(** * myAllocator.c: an endogenous first-fit / best-fit allocator

    A shallow embedding of [myLab/myAllocator.c].  The arena is a range of
    raw bytes obtained from [sbrk]; every block is sandwiched between a
    [BlockPrefix_t] and a [BlockSuffix_t] that live inside that range, so
    the model keeps one byte-addressed memory and every field access is a
    little-endian load or store into it.  Pointers and [size_t] are 64-bit
    unsigned, [int] is 32-bit signed; their wrap-around is written out.

    The C functions become functions of a state-and-error monad: a run
    returns a value and a new state, or stops at a fault (an access outside
    the heap segment, as through the null pointer), at a failed [assert],
    or because a [while] loop was given too little fuel.  The theorems show
    that on a well-formed arena fuel for one more step than there are blocks
    is enough, so the functions do return. *)

From Stdlib Require Import ZArith Lia List.
From stdpp Require Import base option list gmap.

Local Open Scope Z_scope.

(** ** Machine arithmetic *)

Definition wrap64 (x : Z) : Z := x mod 2 ^ 64.

(** conversion to [int] (two's complement, 32 bits) *)
Definition toInt (x : Z) : Z := (x + 2 ^ 31) mod 2 ^ 32 - 2 ^ 31.

Definition INT_MAX : Z := 2 ^ 31 - 1.

(** [#define align8(x) (((x)+7) & ~7)]; the caller wraps the result to the
    type the expression has in C. *)
Definition align8 (x : Z) : Z := Z.land (x + 7) (Z.lnot 7).

(** Modelled from the spec: [myAllocator.h] is not among the sources.  The
    spec says a header stores the allocation flag and the reference to its
    footer, a footer stores the reference back to its header, and both sizes
    are architecture-fixed constants rounded up to a multiple of 8.  On LP64
    that is [struct { BlockSuffix_t *suffix; int allocated; }] (16 bytes) and
    [struct { BlockPrefix_t *prefix; }] (8 bytes). *)
Definition sizeof_BlockPrefix_t : Z := 16.
Definition sizeof_BlockSuffix_t : Z := 8.
Definition off_suffix : Z := 0.
Definition off_allocated : Z := 8.
Definition off_prefix : Z := 0.

Definition prefixSize : Z := wrap64 (align8 sizeof_BlockPrefix_t).
Definition suffixSize : Z := wrap64 (align8 sizeof_BlockSuffix_t).

(** [const size_t DEFAULT_BRKSIZE = 0x100000] *)
Definition DEFAULT_BRKSIZE : Z := 1048576.

(** [int growingDisabled = 1]; nothing in the sources assigns it. *)
Definition growingDisabled : Z := 1.

(** ** Byte-addressed memory *)

(** the byte at address [a]; addresses never written hold 0 *)
Definition byteAt (m : gmap Z Z) (a : Z) : Z := default 0 (m !! a) mod 256.

Fixpoint readLE (m : gmap Z Z) (a : Z) (n : nat) : Z :=
  match n with
  | O => 0
  | S k => byteAt m a + 256 * readLE m (a + 1) k
  end.

Fixpoint writeLE (m : gmap Z Z) (a : Z) (n : nat) (v : Z) : gmap Z Z :=
  match n with
  | O => m
  | S k => <[a := v mod 256]> (writeLE m (a + 1) k (v / 256))
  end.

(** ** Program state: the heap segment and the two globals *)

Record state : Type := mkState {
  mem : gmap Z Z;          (* contents of the heap segment, 0 where unwritten *)
  heapLo : Z;              (* start of the heap segment *)
  brk : Z;                 (* current program break *)
  arenaBegin : Z;          (* BlockPrefix_t *arenaBegin *)
  arenaEnd : Z             (* void *arenaEnd *)
}.

Definition set_mem (st : state) (m : gmap Z Z) : state :=
  mkState m (heapLo st) (brk st) (arenaBegin st) (arenaEnd st).

(** the process before the allocator ran: nothing mapped above [b] *)
Definition boot (b : Z) : state := mkState ∅ b b 0 0.

(** ** Outcomes and the state-and-error monad *)

Inductive outcome (A : Type) : Type :=
| Ok (a : A) (st : state)
| Fault (addr : Z)         (* access outside the heap segment *)
| AssertFail               (* a failed assert() *)
| OutOfFuel.               (* a loop ran longer than the fuel given *)

Arguments Ok {A} a st.
Arguments Fault {A} addr.
Arguments AssertFail {A}.
Arguments OutOfFuel {A}.

Definition M (A : Type) : Type := state -> outcome A.

Definition ret {A} (a : A) : M A := fun st => Ok a st.

Definition bind {A B} (m : M A) (k : A -> M B) : M B :=
  fun st =>
    match m st with
    | Ok a st' => k a st'
    | Fault x => Fault x
    | AssertFail => AssertFail
    | OutOfFuel => OutOfFuel
    end.

Declare Scope alloc_scope.
Delimit Scope alloc_scope with alloc.
Notation "'do' x <- m ; k" := (bind m (fun x => k))
  (at level 10, x name, m at level 100, k at level 200) : alloc_scope.
Notation "'do_' m ; k" := (bind m (fun _ => k))
  (at level 10, m at level 100, k at level 200) : alloc_scope.
Local Open Scope alloc_scope.

Definition inHeap (st : state) (a : Z) (n : nat) : bool :=
  (heapLo st <=? a) && (a + Z.of_nat n <=? brk st).

Definition load (n : nat) (a : Z) : M Z :=
  fun st => if inHeap st a n then Ok (readLE (mem st) a n) st else Fault a.

Definition store (n : nat) (a v : Z) : M unit :=
  fun st => if inHeap st a n then Ok tt (set_mem st (writeLE (mem st) a n v))
            else Fault a.

Definition loadPtr (a : Z) : M Z := load 8 a.
Definition storePtr (a v : Z) : M unit := store 8 a v.
Definition loadInt (a : Z) : M Z := do v <- load 4 a; ret (toInt v).
Definition storeInt (a v : Z) : M unit := store 4 a v.
Definition loadByte (a : Z) : M Z := load 1 a.
Definition storeByte (a v : Z) : M unit := store 1 a v.

Definition get_arenaBegin : M Z := fun st => Ok (arenaBegin st) st.
Definition get_arenaEnd : M Z := fun st => Ok (arenaEnd st) st.
Definition set_arenaBegin (p : Z) : M unit :=
  fun st => Ok tt (mkState (mem st) (heapLo st) (brk st) p (arenaEnd st)).
Definition set_arenaEnd (p : Z) : M unit :=
  fun st => Ok tt (mkState (mem st) (heapLo st) (brk st) (arenaBegin st) p).

(** [sbrk(n)]: the memory-growth provider.  It hands out the [n] bytes that
    follow the current break and returns the old break. *)
Definition sbrk (n : Z) : M Z :=
  fun st => Ok (brk st)
               (mkState (mem st) (heapLo st) (brk st + n) (arenaBegin st) (arenaEnd st)).

(** field accessors *)
Definition get_suffix (p : Z) : M Z := loadPtr (wrap64 (p + off_suffix)).
Definition set_suffix (p s : Z) : M unit := storePtr (wrap64 (p + off_suffix)) s.
Definition get_allocated (p : Z) : M Z := loadInt (wrap64 (p + off_allocated)).
Definition set_allocated (p v : Z) : M unit := storeInt (wrap64 (p + off_allocated)) v.
Definition get_prefix (s : Z) : M Z := loadPtr (wrap64 (s + off_prefix)).
Definition set_prefix (s p : Z) : M unit := storePtr (wrap64 (s + off_prefix)) p.

(** ** The allocator *)

(** [makeFreeBlock(addr, size)] *)
Definition makeFreeBlock (addr size : Z) : M Z :=
  let p := addr in
  let limitAddr := wrap64 (addr + size) in
  let s := wrap64 (limitAddr - wrap64 (align8 sizeof_BlockSuffix_t)) in
  do_ set_suffix p s;
  do_ set_prefix s p;
  do_ set_allocated p 0;
  ret p.

(** [initializeArena()] *)
Definition initializeArena : M unit :=
  do ab <- get_arenaBegin;
  if negb (ab =? 0) then ret tt
  else
    do m <- sbrk DEFAULT_BRKSIZE;
    do p <- makeFreeBlock m DEFAULT_BRKSIZE;
    do_ set_arenaBegin p;
    set_arenaEnd (wrap64 (p + DEFAULT_BRKSIZE)).

(** [computeUsableSpace(p)] *)
Definition computeUsableSpace (p : Z) : M Z :=
  let prefix_end := wrap64 (p + prefixSize) in
  do s <- get_suffix p;
  ret (wrap64 (s - prefix_end)).

(** [computeNextPrefixAddr(p)] *)
Definition computeNextPrefixAddr (p : Z) : M Z :=
  do s <- get_suffix p;
  ret (wrap64 (s + suffixSize)).

(** [computePrevSuffixAddr(p)] *)
Definition computePrevSuffixAddr (p : Z) : Z := wrap64 (p - suffixSize).

(** [getNextPrefix(p)] *)
Definition getNextPrefix (p : Z) : M Z :=
  do np <- computeNextPrefixAddr p;
  do ae <- get_arenaEnd;
  if np <? ae then ret np else ret 0.

(** [getPrevPrefix(p)] *)
Definition getPrevPrefix (p : Z) : M Z :=
  let ps := computePrevSuffixAddr p in
  do ab <- get_arenaBegin;
  if ps >? ab then get_prefix ps else ret 0.

(** [coalescePrev(p)]; the [&&] chain reads the flags only when both
    pointers are non-null. *)
Definition coalescePrev (p : Z) : M Z :=
  do prev <- getPrevPrefix p;
  if (p =? 0) || (prev =? 0) then ret p
  else
    do pa <- get_allocated p;
    if negb (pa =? 0) then ret p
    else
      do qa <- get_allocated prev;
      if negb (qa =? 0) then ret p
      else
        do np <- computeNextPrefixAddr p;
        do_ makeFreeBlock prev (wrap64 (np - prev));
        ret prev.

(** [coalesce(p)]; for a null [p] the C function falls off its end, the
    model returns 0 there. *)
Definition coalesce (p : Z) : M Z :=
  if negb (p =? 0) then
    do p1 <- coalescePrev p;
    do next <- getNextPrefix p1;
    if negb (next =? 0) then coalescePrev next else ret p1
  else ret 0.

(** [growArena(s)] *)
Definition growArena (s : Z) : M Z :=
  if negb (growingDisabled =? 0) then ret 0
  else
    let s1 := wrap64 (s + wrap64 (prefixSize + suffixSize)) in
    let s2 := if s1 <? DEFAULT_BRKSIZE then DEFAULT_BRKSIZE else s1 in
    do n <- sbrk s2;
    do ae <- get_arenaEnd;
    if (n =? 0) || negb (n =? ae) then ret 0
    else
      do_ set_arenaEnd (wrap64 (n + s2));
      do p <- makeFreeBlock n s2;
      coalescePrev p.

(** [pcheck(p)] *)
Definition pcheck (p : Z) : M bool :=
  do ab <- get_arenaBegin;
  do ae <- get_arenaEnd;
  ret ((p >=? ab) && (p <? ae)).

Definition assert (b : bool) : M unit :=
  fun st => if b then Ok tt st else AssertFail.

(** What [arenaCheck] writes to stderr: one line per block (address, usable
    space, allocated flag) and the closing summary. *)
Record report : Type := mkReport {
  lines : list (Z * Z * Z);
  numBlocks : Z;
  amtAllocated : Z;
  amtFree : Z
}.

(** the [while (p != 0)] loop of [arenaCheck] *)
Fixpoint arenaCheck_loop (fuel : nat) (p : Z) (r : report) : M report :=
  match fuel with
  | O => fun _ => OutOfFuel
  | S fuel' =>
    if p =? 0 then ret r
    else
      do u <- computeUsableSpace p;
      do a <- get_allocated p;
      do ok1 <- pcheck p;
      do_ assert ok1;
      do s <- get_suffix p;
      do ok2 <- pcheck s;
      do_ assert ok2;
      do sp <- get_prefix s;
      do_ assert (sp =? p);
      do a' <- get_allocated p;
      do u' <- computeUsableSpace p;
      let r' :=
        mkReport (lines r ++ [(p, u, a)])
                 (toInt (numBlocks r + 1))
                 (if negb (a' =? 0) then wrap64 (amtAllocated r + u') else amtAllocated r)
                 (if negb (a' =? 0) then amtFree r else wrap64 (amtFree r + u')) in
      do np <- computeNextPrefixAddr p;
      do ae <- get_arenaEnd;
      if np =? ae then ret r'
      else
        do ok3 <- pcheck np;
        do_ assert ok3;
        arenaCheck_loop fuel' np r'
  end.

(** [arenaCheck()] *)
Definition arenaCheck (fuel : nat) : M report :=
  do p <- get_arenaBegin;
  arenaCheck_loop fuel p (mkReport [] 0 0 0).

(** the [while (p)] loop of [findFirstFit] *)
Fixpoint findFirstFit_loop (fuel : nat) (s p : Z) : M Z :=
  match fuel with
  | O => fun _ => OutOfFuel
  | S fuel' =>
    if p =? 0 then growArena s
    else
      do a <- get_allocated p;
      if a =? 0 then
        do u <- computeUsableSpace p;
        if u >=? s then ret p
        else do np <- getNextPrefix p; findFirstFit_loop fuel' s np
      else do np <- getNextPrefix p; findFirstFit_loop fuel' s np
  end.

(** [findFirstFit(s)] *)
Definition findFirstFit (fuel : nat) (s : Z) : M Z :=
  do p <- get_arenaBegin;
  findFirstFit_loop fuel s p.

(** the [while (p)] loop of [findBestFit]; [space] is an [int], compared
    with the [size_t] request after the usual conversion. *)
Fixpoint findBestFit_loop (fuel : nat) (s p bestFit minUsableSpace : Z) : M Z :=
  match fuel with
  | O => fun _ => OutOfFuel
  | S fuel' =>
    if p =? 0 then
      if negb (bestFit =? 0) then ret bestFit else growArena s
    else
      do a <- get_allocated p;
      if a =? 0 then
        do u <- computeUsableSpace p;
        let space := toInt u in
        if wrap64 space =? s then ret p
        else
          if (space <? minUsableSpace) && (wrap64 space >? s) then
            do np <- getNextPrefix p;
            findBestFit_loop fuel' s np p space
          else
            do np <- getNextPrefix p;
            findBestFit_loop fuel' s np bestFit minUsableSpace
      else
        do np <- getNextPrefix p;
        findBestFit_loop fuel' s np bestFit minUsableSpace
  end.

(** [findBestFit(s)] *)
Definition findBestFit (fuel : nat) (s : Z) : M Z :=
  do p <- get_arenaBegin;
  findBestFit_loop fuel s p 0 INT_MAX.

(** [regionToPrefix(r)], [prefixToRegion(p)] *)
Definition regionToPrefix (r : Z) : Z :=
  if negb (r =? 0) then wrap64 (r - prefixSize) else 0.

Definition prefixToRegion (p : Z) : Z :=
  if negb (p =? 0) then wrap64 (p + prefixSize) else 0.

(** the three statements under every [/* split block? */], in the
    allocation functions and in the resize functions alike: the tail of
    [blk] from [freeSliverStart] on becomes a free block, the head is
    re-stamped *)
Definition carve (blk freeSliverStart : Z) : M unit :=
  do freeSliverEnd <- computeNextPrefixAddr blk;
  do_ makeFreeBlock freeSliverStart (wrap64 (freeSliverEnd - freeSliverStart));
  do_ makeFreeBlock blk (wrap64 (freeSliverStart - blk));
  ret tt.

(** the body both allocation functions run on the block they found *)
Definition allocFound (asize p : Z) : M Z :=
  if negb (p =? 0) then
    do availSize <- computeUsableSpace p;
    do_ (if availSize >=? wrap64 (asize + prefixSize + suffixSize + 8) then
           carve p (wrap64 (p + prefixSize + suffixSize + asize))
         else ret tt);
    do_ set_allocated p 1;
    ret (prefixToRegion p)
  else ret 0.

(** [firstFitAllocRegion(s)] *)
Definition firstFitAllocRegion (fuel : nat) (s : Z) : M Z :=
  let asize := wrap64 (align8 s) in
  do ab <- get_arenaBegin;
  do_ (if ab =? 0 then initializeArena else ret tt);
  do p <- findFirstFit fuel s;
  allocFound asize p.

(** [bestFitAllocRegion(s)] *)
Definition bestFitAllocRegion (fuel : nat) (s : Z) : M Z :=
  let asize := wrap64 (align8 s) in
  do ab <- get_arenaBegin;
  do_ (if ab =? 0 then initializeArena else ret tt);
  do p <- findBestFit fuel s;
  allocFound asize p.

(** [freeRegion(r)] *)
Definition freeRegion (r : Z) : M unit :=
  if negb (r =? 0) then
    let p := regionToPrefix r in
    do_ set_allocated p 0;
    do_ coalesce p;
    ret tt
  else ret tt.

(** [for (i = 0; i < oldSize; i++) n[i] = o[i];] with [k] iterations left *)
Fixpoint copyBytes (k : nat) (n o i : Z) : M unit :=
  match k with
  | O => ret tt
  | S k' =>
    do b <- loadByte (wrap64 (o + i));
    do_ storeByte (wrap64 (n + i)) b;
    copyBytes k' n o (i + 1)
  end.

(** the prelude of the three resize functions: [oldSize] *)
Definition resizeOldSize (r : Z) : M Z :=
  if negb (r =? 0) then
    do u <- computeUsableSpace (regionToPrefix r);
    ret (toInt u)
  else ret 0.

(** [oldResizeRegion(r, newSize)] *)
Definition oldResizeRegion (fuel : nat) (r newSize : Z) : M Z :=
  do oldSize <- resizeOldSize r;
  if wrap64 oldSize >=? newSize then ret r
  else
    let o := r in
    do n <- firstFitAllocRegion fuel newSize;
    do_ copyBytes (Z.to_nat oldSize) n o 0;
    do_ freeRegion o;
    ret n.

(** [b && !b->allocated] *)
Definition isFreeBlock (b : Z) : M bool :=
  if b =? 0 then ret false
  else do a <- get_allocated b; ret (a =? 0).

(** the fallback tail of [resizeRegion] and [resizeRegionExtra] *)
Definition resizeTail (fuel : nat) (r newSize oldSize : Z) : M Z :=
  let o := r in
  do n <- bestFitAllocRegion fuel newSize;
  do_ copyBytes (Z.to_nat oldSize) n o 0;
  do_ freeRegion o;
  ret n.

(** merging with the successor, the body of [if (sumSize >= newSize)] in
    [resizeRegion] and (the same text) in [resizeRegionExtra] *)
Definition mergeNext (currentPrefix nextBlock usableSpaceNext usableSpaceCurrent newSize : Z)
  : M Z :=
  let aSize := toInt (align8 (toInt (wrap64 (newSize - usableSpaceCurrent)))) in
  let availSize := usableSpaceNext in
  do_ (if availSize >=? wrap64 (toInt (aSize + 8)) then
         carve nextBlock (wrap64 (nextBlock + aSize))
       else ret tt);
  do_ set_allocated currentPrefix 0;
  do cp <- coalescePrev nextBlock;
  do_ set_allocated cp 1;
  ret (prefixToRegion cp).

(** [resizeRegion(r, newSize)] *)
Definition resizeRegion (fuel : nat) (r newSize : Z) : M Z :=
  do oldSize <- resizeOldSize r;
  if wrap64 oldSize >=? newSize then ret r
  else
    let currentPrefix := regionToPrefix r in
    do nextBlock <- getNextPrefix currentPrefix;
    do usableSpaceNext <- computeUsableSpace nextBlock;
    do usableSpaceCurrent <- computeUsableSpace currentPrefix;
    do nextFree <- isFreeBlock nextBlock;
    if nextFree then
      let sumSize := toInt (wrap64 (usableSpaceNext + usableSpaceCurrent)) in
      if wrap64 sumSize >=? newSize then
        mergeNext currentPrefix nextBlock usableSpaceNext usableSpaceCurrent newSize
      else resizeTail fuel r newSize oldSize
    else resizeTail fuel r newSize oldSize.

(** merging with the predecessor, the body of the second
    [if (sumSize >= newSize)] of [resizeRegionExtra] *)
Definition mergePrev (currentPrefix pastBlock usableSpacePast usableSpaceCurrent newSize : Z)
  : M Z :=
  let missingSize := toInt (wrap64 (align8 (wrap64 (newSize - usableSpaceCurrent)))) in
  let aSize := wrap64 (align8 (wrap64 (usableSpacePast - missingSize))) in
  let availSize := usableSpacePast in
  do_ (if availSize >=? wrap64 (aSize + 8) then
         carve pastBlock (wrap64 (pastBlock + prefixSize + suffixSize + aSize))
       else ret tt);
  do_ set_allocated currentPrefix 0;
  do cp <- coalescePrev currentPrefix;
  do_ set_allocated cp 1;
  ret (prefixToRegion cp).

(** the three-way merge when [usableSpacePast > usableSpaceNext]: the
    predecessor is the block that is cut *)
Definition mergeBothCutPrev
    (currentPrefix pastBlock usableSpacePast usableSpaceNext usableSpaceCurrent newSize : Z)
  : M Z :=
  let missingSize :=
    toInt (wrap64 (align8 (wrap64 (newSize - usableSpaceCurrent - usableSpaceNext
                                   - prefixSize - suffixSize)))) in
  let aSize := toInt (align8 (toInt (wrap64 (usableSpacePast - missingSize)))) in
  let availSize := usableSpacePast in
  do_ (if availSize >=? wrap64 (toInt (aSize + 8)) then
         carve pastBlock (wrap64 (pastBlock + aSize + prefixSize + suffixSize))
       else ret tt);
  do_ set_allocated currentPrefix 0;
  do cp <- coalesce currentPrefix;
  do_ set_allocated cp 1;
  ret (prefixToRegion cp).

(** the three-way merge otherwise: the successor is the block that is cut *)
Definition mergeBothCutNext
    (currentPrefix nextBlock usableSpacePast usableSpaceNext usableSpaceCurrent newSize : Z)
  : M Z :=
  let missingSize := toInt (wrap64 (align8 (wrap64 (usableSpaceCurrent + usableSpacePast)))) in
  let aSize := toInt (align8 (toInt (wrap64 (newSize - missingSize)))) in
  let availSize := usableSpaceNext in
  do_ (if availSize >=? wrap64 (toInt (aSize + 8)) then
         carve nextBlock (wrap64 (nextBlock + aSize - wrap64 (prefixSize + suffixSize)))
       else ret tt);
  do_ set_allocated currentPrefix 0;
  do cp <- coalesce currentPrefix;
  do_ set_allocated cp 1;
  ret (prefixToRegion cp).

(** [resizeRegionExtra(r, newSize)], from the third attempt on *)
Definition resizeExtraBoth (fuel : nat) (r newSize oldSize : Z)
    (currentPrefix nextBlock pastBlock : Z)
    (usableSpaceNext usableSpaceCurrent usableSpacePast : Z) : M Z :=
  do pastFree <- isFreeBlock pastBlock;
  do bothFree <- (if pastFree then isFreeBlock nextBlock else ret false);
  if bothFree then
    let sumSize :=
      toInt (wrap64 (usableSpacePast + usableSpaceNext + usableSpaceCurrent)) in
    if wrap64 sumSize >=? newSize then
      if usableSpacePast >? usableSpaceNext then
        mergeBothCutPrev currentPrefix pastBlock
                         usableSpacePast usableSpaceNext usableSpaceCurrent newSize
      else
        mergeBothCutNext currentPrefix nextBlock
                         usableSpacePast usableSpaceNext usableSpaceCurrent newSize
    else resizeTail fuel r newSize oldSize
  else resizeTail fuel r newSize oldSize.

(** [resizeRegionExtra(r, newSize)], from the second attempt on *)
Definition resizeExtraPrev (fuel : nat) (r newSize oldSize : Z)
    (currentPrefix nextBlock : Z) (usableSpaceNext usableSpaceCurrent : Z) : M Z :=
  do pastBlock <- getPrevPrefix currentPrefix;
  do usableSpacePast <- computeUsableSpace pastBlock;
  do pastFree <- isFreeBlock pastBlock;
  let rest :=
    resizeExtraBoth fuel r newSize oldSize currentPrefix nextBlock pastBlock
                    usableSpaceNext usableSpaceCurrent usableSpacePast in
  if pastFree then
    let sumSize := toInt (wrap64 (usableSpacePast + usableSpaceCurrent)) in
    if wrap64 sumSize >=? newSize then
      mergePrev currentPrefix pastBlock usableSpacePast usableSpaceCurrent newSize
    else rest
  else rest.

(** [resizeRegionExtra(r, newSize)] *)
Definition resizeRegionExtra (fuel : nat) (r newSize : Z) : M Z :=
  do oldSize <- resizeOldSize r;
  if wrap64 oldSize >=? newSize then ret r
  else
    let currentPrefix := regionToPrefix r in
    do nextBlock <- getNextPrefix currentPrefix;
    do usableSpaceNext <- computeUsableSpace nextBlock;
    do usableSpaceCurrent <- computeUsableSpace currentPrefix;
    do nextFree <- isFreeBlock nextBlock;
    let rest :=
      resizeExtraPrev fuel r newSize oldSize currentPrefix nextBlock
                      usableSpaceNext usableSpaceCurrent in
    if nextFree then
      let sumSize := toInt (wrap64 (usableSpaceNext + usableSpaceCurrent)) in
      if wrap64 sumSize >=? newSize then
        mergeNext currentPrefix nextBlock usableSpaceNext usableSpaceCurrent newSize
      else rest
    else rest.


(** ** The arena seen as a chain of blocks *)

(** A block is described by its usable space and its allocation flag. *)
Definition blk : Type := (Z * bool)%type.

Definition flagOf (al : bool) : Z := if al then 1 else 0.

(** the bytes a block of usable space [u] occupies, prefix and suffix included *)
Definition extent (b : blk) : Z := 24 + b.1.

Fixpoint span (bs : list blk) : Z :=
  match bs with
  | [] => 0
  | b :: rest => extent b + span rest
  end.

(** [isBlock m a u al]: in memory [m] a well-formed block with usable space
    [u] starts at [a]: its prefix points to its suffix, its suffix points
    back, and the flag is [al]. *)
Definition isBlock (m : gmap Z Z) (a u : Z) (al : bool) : Prop :=
  0 <= u /\
  readLE m a 8 = a + 16 + u /\
  readLE m (a + 8) 4 = flagOf al /\
  readLE m (a + 16 + u) 8 = a.

(** [chain m a bs e]: the blocks [bs] tile the addresses from [a] to [e]
    one after the other, without gaps. *)
Fixpoint chain (m : gmap Z Z) (a : Z) (bs : list blk) (e : Z) : Prop :=
  match bs with
  | [] => a = e
  | b :: rest => isBlock m a b.1 b.2 /\ chain m (a + extent b) rest e
  end.

(** the bytes of the prefixes and suffixes of a chain *)
Fixpoint meta (a : Z) (bs : list blk) (x : Z) : Prop :=
  match bs with
  | [] => False
  | b :: rest =>
    (a <= x < a + 12 \/ a + 16 + b.1 <= x < a + 24 + b.1) \/
    meta (a + extent b) rest x
  end.

(** A well-formed arena: the heap segment lies inside the 64-bit address
    space and above its first bytes, the arena lies inside the segment, is
    not empty, no larger than an [int] can count, and is tiled by [bs]. *)
Record wf (st : state) (bs : list blk) : Prop := mkWf {
  wf_lo : 8 <= heapLo st <= arenaBegin st;
  wf_hi : arenaEnd st <= brk st < 2 ^ 64;
  wf_size : arenaEnd st - arenaBegin st <= INT_MAX;
  wf_ne : bs <> [];
  wf_chain : chain (mem st) (arenaBegin st) bs (arenaEnd st)
}.

(** every usable size is a multiple of 8, so that every block starts a
    multiple of 8 after the beginning of the arena *)
Definition sizesAligned (bs : list blk) : Prop :=
  Forall (fun b : blk => b.1 mod 8 = 0) bs.

(** no two neighbours are both free *)
Fixpoint noAdjacentFree (bs : list blk) : Prop :=
  match bs with
  | b1 :: ((b2 :: _) as rest) => (b1.2 = true \/ b2.2 = true) /\ noAdjacentFree rest
  | _ => True
  end.

(** the regions (start, length) of the allocated blocks of a chain *)
Fixpoint allocatedRegions (a : Z) (bs : list blk) : list (Z * Z) :=
  match bs with
  | [] => []
  | b :: rest =>
    (if b.2 then [(a + 16, b.1)] else []) ++ allocatedRegions (a + extent b) rest
  end.

(** the state the allocation functions work on once they have made sure
    the arena exists *)
Definition arenaReady (st st0 : state) (bs : list blk) : Prop :=
  initializeArena st = Ok tt st0 /\ wf st0 bs.

(** [fits s b]: [b] is free and can hold [s] bytes *)
Definition fits (s : Z) (b : blk) : bool := negb b.2 && (s <=? b.1).

(** first fit: the block after [pre] is the first that fits *)
Definition isFirstFit (s : Z) (pre : list blk) (u : Z) : Prop :=
  s <= u /\ Forall (fun b => fits s b = false) pre.

(** best fit: the block after [pre] fits, no fitting block is smaller, and
    the fitting blocks before it are strictly larger *)
Definition isBestFit (s : Z) (pre : list blk) (u : Z) (post : list blk) : Prop :=
  s <= u /\
  Forall (fun b => fits s b = true -> u < b.1) pre /\
  Forall (fun b => fits s b = true -> u <= b.1) post.

(** [seg st lo hi]: the addresses from [lo] to [hi] lie in the heap segment,
    which itself lies in the address space above its first 8 bytes *)
Definition seg (st : state) (lo hi : Z) : Prop :=
  8 <= heapLo st /\ heapLo st <= lo /\ lo <= hi /\ hi <= brk st /\ brk st < 2 ^ 64.

(** [modifies m m' P]: [m'] differs from [m] at most at the addresses in [P] *)
Definition modifies (m m' : gmap Z Z) (P : Z -> Prop) : Prop :=
  forall x, ~ P x -> byteAt m' x = byteAt m x.

(** *** What [freeRegion] does to the chain *)

(** the freed block swallows a free predecessor ... *)
Definition joinPrev (pre : list blk) (u : Z) : list blk * Z :=
  match rev pre with
  | (u1, false) :: rp => (rev rp, u1 + 24 + u)
  | _ => (pre, u)
  end.

(** ... and then a free successor *)
Definition joinNext (u : Z) (post : list blk) : Z * list blk :=
  match post with
  | (u2, false) :: post' => (u + 24 + u2, post')
  | _ => (u, post)
  end.

Definition freed (pre : list blk) (u : Z) (post : list blk) : list blk :=
  (joinPrev pre u).1 ++ ((joinNext (joinPrev pre u).2 post).1, false)
                     :: (joinNext (joinPrev pre u).2 post).2.

(** the pointer [coalesce] returns: the successor when there is one that is
    allocated, the merged block otherwise *)
Definition coalesceResult (base : Z) (pre : list blk) (u : Z) (post : list blk) : Z :=
  match post with
  | (_, true) :: _ => base + span (joinPrev pre u).1 + 24 + (joinPrev pre u).2
  | _ => base + span (joinPrev pre u).1
  end.

(** *** The two searches, on the chain *)

(** the pointer the scan holds when [rest] is still to be visited *)
Definition scanPtr (a : Z) (rest : list blk) : Z :=
  match rest with [] => 0 | _ => a end.

(** the [while] loop of [findFirstFit] over the blocks from address [a] on *)
Fixpoint firstFitFrom (s a : Z) (rest : list blk) : Z :=
  match rest with
  | [] => 0
  | b :: rest' => if fits s b then a else firstFitFrom s (a + extent b) rest'
  end.

(** the [while] loop of [findBestFit] over the blocks from address [a] on *)
Fixpoint bestFitFrom (s a : Z) (rest : list blk) (bestFit minUsableSpace : Z) : Z :=
  match rest with
  | [] => bestFit
  | b :: rest' =>
    if negb b.2 then
      if b.1 =? s then a
      else if (b.1 <? minUsableSpace) && (b.1 >? s)
           then bestFitFrom s (a + extent b) rest' a b.1
           else bestFitFrom s (a + extent b) rest' bestFit minUsableSpace
    else bestFitFrom s (a + extent b) rest' bestFit minUsableSpace
  end.

(** how many times the best-fit scan runs its loop body: it stops at an
    exact match, and otherwise at the null pointer that ends the chain *)
Fixpoint bestFitSteps (s : Z) (rest : list blk) : nat :=
  match rest with
  | [] => 1%nat
  | b :: rest' => if negb b.2 && (b.1 =? s) then 1%nat else S (bestFitSteps s rest')
  end.

(** how many times the first-fit scan runs its loop body *)
Fixpoint firstFitSteps (s : Z) (rest : list blk) : nat :=
  match rest with
  | [] => 1%nat
  | b :: rest' => if fits s b then 1%nat else S (firstFitSteps s rest')
  end.

(** the invariant of the best-fit scan after the blocks [scanned] *)
Definition bestInv (s base : Z) (scanned : list blk) (best minU : Z) : Prop :=
  Forall (fun b : blk => negb b.2 && (b.1 =? s) = false) scanned /\
  ((best = 0 /\ minU = INT_MAX /\ Forall (fun b => fits s b = false) scanned) \/
   (exists pre u post,
       scanned = pre ++ (u, false) :: post /\
       best = base + span pre /\ minU = u /\ s < u /\
       Forall (fun b => fits s b = true -> u < b.1) pre /\
       Forall (fun b => fits s b = true -> u <= b.1) post)).


(** *** What the allocation functions do to the chain *)

(** the block [(u, free)] after it was handed out for a request of aligned
    size [asize] *)
Definition handedOut (asize u : Z) : list blk :=
  if asize + 32 <=? u then [(asize, true); (u - asize - 24, false)]
  else [(u, true)].

(** [allocated s st0 bs r st' pre u post]: out of the arena [bs] of [st0],
    the free block [(u, free)] that follows [pre] was handed out as region
    [r] for a request of [s] bytes, leaving [st'] *)
Definition allocated (s : Z) (st0 : state) (bs : list blk) (r : Z) (st' : state)
    (pre : list blk) (u : Z) (post : list blk) : Prop :=
  let asize := align8 s in
  let split := asize + prefixSize + suffixSize + 8 <=? u in
  let u' := if split then asize else u in
  bs = pre ++ (u, false) :: post /\
  r = arenaBegin st0 + span pre + 16 /\
  wf st' (pre ++ (u', true) :: (if split then [(u - asize - 24, false)] else []) ++ post) /\
  computeUsableSpace (regionToPrefix r) st' = Ok u' st' /\
  s <= u' /\
  (sizesAligned bs ->
     (r - arenaBegin st0) mod 8 = 0 /\
     (arenaBegin st0 mod 8 = 0 -> r mod 8 = 0) /\
     sizesAligned
       (pre ++ (u', true) :: (if split then [(u - asize - 24, false)] else []) ++ post)) /\
  (forall r2 n2, (r2, n2) ∈ allocatedRegions (arenaBegin st0) bs ->
                 r + u' <= r2 \/ r2 + n2 <= r) /\
  st' = set_mem st0 (mem st') /\
  modifies (mem st0) (mem st')
           (fun x => arenaBegin st0 + span pre <= x < arenaBegin st0 + span pre + 24 + u).

(** a process in which the allocator has not run yet *)
Definition fresh (st : state) : Prop :=
  arenaBegin st = 0 /\ 8 <= heapLo st <= brk st /\ brk st + DEFAULT_BRKSIZE < 2 ^ 64.

(** the result of an allocation function run on [st] whose arena, once it
    exists, is [st0] with blocks [bs]: either no free block fits and null is
    returned, or the block that [sel] describes is handed out *)
Definition allocResult (sel : list blk -> Z -> list blk -> Prop)
    (s : Z) (st0 : state) (bs : list blk) (r : Z) (st' : state) : Prop :=
  (r = 0 /\ st' = st0 /\ Forall (fun b => fits s b = false) bs) \/
  (r <> 0 /\ exists pre u post, sel pre u post /\ allocated s st0 bs r st' pre u post).

(** *** Concrete arenas *)

(** what a run returns, when it returns *)
Definition answer {A} (m : M A) (st : state) : option A :=
  match m st with Ok a _ => Some a | _ => None end.

(** the state a run leaves, when it returns *)
Definition after {A} (m : M A) (st : state) : state :=
  match m st with Ok _ st' => st' | _ => st end.

(** four free blocks of usable sizes 56504, 254, 25400 and 254 that tile an
    arena starting at 4096 *)
Definition fourFree : state := Eval vm_compute in
  after (do_ makeFreeBlock 4096 (24 + 56504);
         do_ makeFreeBlock (4096 + 56528) (24 + 254);
         do_ makeFreeBlock (4096 + 56528 + 278) (24 + 25400);
         do_ makeFreeBlock (4096 + 56528 + 278 + 25424) (24 + 254);
         ret tt)
        (mkState ∅ 4096 (4096 + 82508) 4096 (4096 + 82508)).

(** the arena the test programs build: four allocations of 56500, 254, 25400
    and 254 bytes, then the first and the third are freed; returns the second
    and the fourth region *)
Definition testSetup (fuel : nat) : M (Z * Z) :=
  do p1 <- bestFitAllocRegion fuel 56500;
  do p2 <- bestFitAllocRegion fuel 254;
  do p3 <- bestFitAllocRegion fuel 25400;
  do p4 <- bestFitAllocRegion fuel 254;
  do_ freeRegion p1;
  do_ freeRegion p3;
  ret (p2, p4).

(** the same with a free predecessor and a free successor of equal usable
    size 1000 around an allocated block of usable size 256 *)
Definition tieSetup (fuel : nat) : M Z :=
  do p1 <- bestFitAllocRegion fuel 1000;
  do p2 <- bestFitAllocRegion fuel 256;
  do p3 <- bestFitAllocRegion fuel 1000;
  do p4 <- bestFitAllocRegion fuel 8;
  do_ freeRegion p1;
  do_ freeRegion p3;
  ret p2.

Definition testArena : state := Eval vm_compute in after (testSetup 6) (boot 4096).

(** a fresh arena after one allocation of 8 bytes *)
Definition smallArena : state := Eval vm_compute in
  after (firstFitAllocRegion 3 8) (boot 4096).

Definition tieArena : state := Eval vm_compute in after (tieSetup 6) (boot 4096).

(** the layout [arenaCheck] prints *)
Definition layout (fuel : nat) : M (list (Z * Z * Z)) :=
  do rep <- arenaCheck fuel; ret (lines rep).

(** *** The three-way merge of [resizeRegionExtra] *)

(** when the predecessor (usable space [up]) is the block that is cut: the
    usable space that stays with its free head *)
Definition keptOfPrev (up uc un newSize : Z) : Z :=
  align8 (up - align8 (newSize - uc - un - 24)).

(** when the successor is the block that is cut: the bytes the code means to
    take from it, [aSize] *)
Definition takenOfNext (up uc newSize : Z) : Z :=
  align8 (newSize - align8 (uc + up)).

(** Reading the outcome of a merge: a free block is still found at the
    address of the predecessor, so the predecessor was cut, not swallowed. *)
Definition predecessorCut (past : Z) (st' : state) : Prop :=
  answer (isFreeBlock past) st' = Some true.

(** The block that ends where the successor ended (found through its
    suffix) is free and begins after the successor began: the successor was
    cut, not swallowed. *)
Definition successorCut (next nextEnd : Z) (st' : state) : Prop :=
  exists h, answer (get_prefix (nextEnd - 8)) st' = Some h /\
            next < h /\ answer (isFreeBlock h) st' = Some true.

(** *** The fallback tail of the resize functions *)

(** [resizedByCopy st r u n st1 st']: starting from [st], where the region
    [r] has usable space [u], the fallback went through [st1] (after the
    allocation of [n]) to [st']: the first [u] bytes of [n] are those [r]
    had, and the block of [r], still allocated in [st1], has been freed. *)
Definition resizedByCopy (st : state) (r u n : Z) (st1 st' : state) : Prop :=
  (forall i, 0 <= i < u -> byteAt (mem st') (n + i) = byteAt (mem st) (r + i)) /\
  exists pre2 post2,
    wf st1 (pre2 ++ (u, true) :: post2) /\
    r = arenaBegin st1 + span pre2 + 16 /\
    wf st' (freed pre2 u post2).

(** [tailOutcome st pre u post n st1 run]: what the fallback [run] comes to
    for the region of the block [(u, allocated)] that follows [pre], once
    its allocation has returned [n] and left [st1].  The result [n] is not
    tested.  A region [n] that is not null receives the copy and is
    returned.  When [n] is null, a copy loop with something to copy
    ([0 < u]) stores through the null pointer, which is a fault; with
    nothing to copy ([u = 0]) the old block is freed all the same and null
    is returned. *)
Definition tailOutcome (st : state) (pre : list blk) (u : Z) (post : list blk)
    (n : Z) (st1 : state) (run : outcome Z) : Prop :=
  let r := arenaBegin st + span pre + 16 in
  (n <> 0 -> exists st', run = Ok n st' /\ resizedByCopy st r u n st1 st') /\
  (n = 0 -> 0 < u -> run = Fault 0) /\
  (n = 0 -> u = 0 -> exists st', run = Ok 0 st' /\ wf st' (freed pre u post)).
(** *** What [arenaCheck] reports *)

(** the line printed for each block of a chain: address, usable space, flag *)
Fixpoint linesOf (a : Z) (bs : list blk) : list (Z * Z * Z) :=
  match bs with
  | [] => []
  | b :: rest => (a, b.1, flagOf b.2) :: linesOf (a + extent b) rest
  end.

(** the usable space of the blocks whose flag is [al], added up *)
Fixpoint usableSum (al : bool) (bs : list blk) : Z :=
  match bs with
  | [] => 0
  | b :: rest => (if Bool.eqb b.2 al then b.1 else 0) + usableSum al rest
  end.

(** *** A client of the allocator *)

(** What a program that uses the allocator does, one call after the other:
    it asks for memory with either allocation function, or gives back one of
    the regions it still holds. *)
Inductive call : Type :=
| CallFirstFit (s : Z)           (* [firstFitAllocRegion(s)] *)
| CallBestFit (s : Z)            (* [bestFitAllocRegion(s)] *)
| CallFree (i : nat).            (* [freeRegion] of the [i]-th region held *)

(** the sizes are [size_t] values *)
Definition validCall (c : call) : Prop :=
  match c with
  | CallFirstFit s | CallBestFit s => 0 <= s < 2 ^ 64
  | CallFree _ => True
  end.

(** the regions the client holds, newest first; a null result is not kept *)
Definition keep (r : Z) (held : list Z) : list Z :=
  if r =? 0 then held else r :: held.

Fixpoint runCalls (fuel : nat) (cs : list call) (held : list Z) : M (list Z) :=
  match cs with
  | [] => ret held
  | CallFirstFit s :: cs' =>
    do r <- firstFitAllocRegion fuel s; runCalls fuel cs' (keep r held)
  | CallBestFit s :: cs' =>
    do r <- bestFitAllocRegion fuel s; runCalls fuel cs' (keep r held)
  | CallFree i :: cs' =>
    match held !! i with
    | Some r => do_ freeRegion r; runCalls fuel cs' (delete i held)
    | None => runCalls fuel cs' held
    end
  end.

(** what holds of the arena between the calls of such a client: the blocks
    [bs] tile an arena of [DEFAULT_BRKSIZE] bytes, no two neighbours are both
    free, the usable sizes are multiples of 8, and the regions held are,
    each once, the regions of the allocated blocks *)
Definition clientInv (st : state) (held : list Z) (bs : list blk) : Prop :=
  wf st bs /\
  arenaEnd st - arenaBegin st = DEFAULT_BRKSIZE /\
  noAdjacentFree bs /\
  sizesAligned bs /\
  NoDup held /\
  forall r, r ∈ held <-> exists u, (r, u) ∈ allocatedRegions (arenaBegin st) bs.

(** fuel for more loop iterations than an arena of [DEFAULT_BRKSIZE] bytes
    has room for blocks *)
Definition enoughFuel (fuel : nat) : Prop := DEFAULT_BRKSIZE / 24 < Z.of_nat fuel.

(** the report of [arenaCheck] on a chain *)
Definition reportOf (a : Z) (bs : list blk) : report :=
  mkReport (linesOf a bs) (Z.of_nat (length bs)) (usableSum true bs) (usableSum false bs).

(** * Proofs *)

Arguments wrap64 : simpl never.
Arguments toInt : simpl never.
Arguments align8 : simpl never.
Arguments readLE : simpl never.
Arguments writeLE : simpl never.
Arguments Z.mul : simpl never.
Arguments Z.add : simpl never.
Arguments Z.sub : simpl never.
Arguments Z.pow : simpl never.

(** ** Machine arithmetic *)

Lemma wrap64_id x : 0 <= x < 2 ^ 64 -> wrap64 x = x.
Proof. intros H. unfold wrap64. apply Z.mod_small. exact H. Qed.

Lemma wrap64_range x : 0 <= wrap64 x < 2 ^ 64.
Proof. unfold wrap64. apply Z.mod_pos_bound. lia. Qed.

Lemma wrap64_neg x : - 2 ^ 64 <= x < 0 -> wrap64 x = x + 2 ^ 64.
Proof.
  intros H. unfold wrap64.
  symmetry. apply (Z.mod_unique x (2 ^ 64) (-1) (x + 2 ^ 64)); lia.
Qed.

Lemma toInt_id x : - 2 ^ 31 <= x < 2 ^ 31 -> toInt x = x.
Proof. intros H. unfold toInt. rewrite Z.mod_small; lia. Qed.

Lemma align8_div x : align8 x = 8 * ((x + 7) / 8).
Proof.
  unfold align8. change (Z.lnot 7) with (Z.lnot (Z.ones 3)).
  rewrite <- Z.ldiff_land, Z.ldiff_ones_r by lia.
  rewrite Z.shiftr_div_pow2, Z.shiftl_mul_pow2 by lia.
  change (2 ^ 3) with 8. lia.
Qed.

Lemma align8_bounds x : x <= align8 x < x + 8 /\ align8 x mod 8 = 0.
Proof.
  rewrite align8_div.
  pose proof (Z.div_mod (x + 7) 8 ltac:(lia)) as Hd.
  pose proof (Z.mod_pos_bound (x + 7) 8 ltac:(lia)) as Hm.
  split; [lia|].
  rewrite Z.mul_comm. apply Z.mod_mul. lia.
Qed.

Lemma align8_fix x : x mod 8 = 0 -> align8 x = x.
Proof.
  intros H. rewrite align8_div.
  pose proof (Z.div_mod x 8 ltac:(lia)) as Hd.
  replace (x + 7) with (7 + (x / 8) * 8) by lia.
  rewrite Z.div_add by lia. change (7 / 8) with 0. lia.
Qed.

Lemma prefixSize_eq : prefixSize = 16.
Proof. reflexivity. Qed.

Lemma suffixSize_eq : suffixSize = 8.
Proof. reflexivity. Qed.

Lemma align8_suffix_eq : wrap64 (align8 sizeof_BlockSuffix_t) = 8.
Proof. reflexivity. Qed.

(** ** Little-endian reads and writes *)

Lemma byteAt_insert_eq m a v : byteAt (<[a := v]> m) a = v mod 256.
Proof. unfold byteAt. by rewrite lookup_insert_eq. Qed.

Lemma byteAt_range m a : 0 <= byteAt m a < 256.
Proof. unfold byteAt. apply Z.mod_pos_bound. lia. Qed.

Lemma byteAt_insert_ne m a b v : a <> b -> byteAt (<[a := v]> m) b = byteAt m b.
Proof. intros H. unfold byteAt. by rewrite lookup_insert_ne. Qed.

Lemma writeLE_S m a k v :
  writeLE m a (S k) v = <[a := v mod 256]> (writeLE m (a + 1) k (v / 256)).
Proof. reflexivity. Qed.

Lemma readLE_S m a k :
  readLE m a (S k) = byteAt m a + 256 * readLE m (a + 1) k.
Proof. reflexivity. Qed.

Lemma byteAt_writeLE_out n : forall m a v x,
  x < a \/ a + Z.of_nat n <= x -> byteAt (writeLE m a n v) x = byteAt m x.
Proof.
  induction n as [|n IH]; intros m a v x H; [reflexivity|]. rewrite writeLE_S.
  rewrite byteAt_insert_ne by lia. apply IH. lia.
Qed.

Lemma readLE_ext n : forall m m' a,
  (forall x, a <= x < a + Z.of_nat n -> byteAt m' x = byteAt m x) ->
  readLE m' a n = readLE m a n.
Proof.
  induction n as [|n IH]; intros m m' a H; [reflexivity|]. rewrite !readLE_S.
  rewrite (H a) by lia. rewrite (IH m m' (a + 1)); [reflexivity|].
  intros x Hx. apply H. lia.
Qed.

Lemma readLE_writeLE_same n : forall m a v,
  readLE (writeLE m a n v) a n = v mod 256 ^ Z.of_nat n.
Proof.
  induction n as [|n IH]; intros m a v.
  - change (256 ^ Z.of_nat 0) with 1. by rewrite Z.mod_1_r.
  - rewrite writeLE_S, readLE_S. rewrite byteAt_insert_eq, Z.mod_mod by lia.
    rewrite (readLE_ext n (writeLE m (a + 1) n (v / 256))).
    2:{ intros x Hx. apply byteAt_insert_ne. lia. }
    rewrite IH. rewrite Nat2Z.inj_succ, Z.pow_succ_r by lia.
    rewrite (Z.rem_mul_r v 256 (256 ^ Z.of_nat n)) by lia. reflexivity.
Qed.

Lemma readLE_writeLE_disj n k m a v b :
  b + Z.of_nat k <= a \/ a + Z.of_nat n <= b ->
  readLE (writeLE m a n v) b k = readLE m b k.
Proof.
  intros H. apply readLE_ext. intros x Hx. apply byteAt_writeLE_out. lia.
Qed.

Lemma readLE_1 m a : readLE m a 1 = byteAt m a.
Proof. rewrite readLE_S. change (readLE m (a + 1) 0) with 0. lia. Qed.

(** ** Running the monad *)

Lemma bind_run {A B} (m : M A) (k : A -> M B) st a st' :
  m st = Ok a st' -> bind m k st = k a st'.
Proof. intros H. unfold bind. by rewrite H. Qed.

Lemma bind_fault {A B} (m : M A) (k : A -> M B) st x :
  m st = Fault x -> bind m k st = Fault x.
Proof. intros H. unfold bind. by rewrite H. Qed.

Lemma load_ok n a st :
  heapLo st <= a -> a + Z.of_nat n <= brk st ->
  load n a st = Ok (readLE (mem st) a n) st.
Proof.
  intros H1 H2. unfold load, inHeap.
  rewrite (proj2 (Z.leb_le _ _) H1), (proj2 (Z.leb_le _ _) H2). reflexivity.
Qed.

Lemma load_fault n a st : a < heapLo st -> load n a st = Fault a.
Proof.
  intros H. unfold load, inHeap.
  rewrite (proj2 (Z.leb_gt _ _) H). reflexivity.
Qed.

Lemma store_ok n a v st :
  heapLo st <= a -> a + Z.of_nat n <= brk st ->
  store n a v st = Ok tt (set_mem st (writeLE (mem st) a n v)).
Proof.
  intros H1 H2. unfold store, inHeap.
  rewrite (proj2 (Z.leb_le _ _) H1), (proj2 (Z.leb_le _ _) H2). reflexivity.
Qed.

(** [seg st lo hi]: the addresses from [lo] to [hi] are mapped *)
Lemma set_mem_mem st m : mem (set_mem st m) = m.
Proof. reflexivity. Qed.

Lemma set_mem_set_mem st m m' : set_mem (set_mem st m) m' = set_mem st m'.
Proof. reflexivity. Qed.

Lemma set_mem_same st : set_mem st (mem st) = st.
Proof. by destruct st. Qed.

Lemma seg_sub st lo hi lo' hi' :
  seg st lo hi -> lo <= lo' -> lo' <= hi' -> hi' <= hi -> seg st lo' hi'.
Proof. unfold seg. lia. Qed.

Lemma wf_seg st bs : wf st bs -> seg st (arenaBegin st) (arenaEnd st).
Proof.
  intros [Hlo Hhi Hsz Hne Hch]. unfold seg.
  assert (arenaBegin st <= arenaEnd st); [|lia].
  clear -Hch. revert Hch. generalize (arenaBegin st).
  induction bs as [|[u al] bs IH]; simpl; intros a H; [lia|].
  destruct H as [[Hu _] H]. apply IH in H. unfold extent in H. simpl in H. lia.
Qed.

Lemma modifies_refl m P : modifies m m P.
Proof. by intros x _. Qed.

Lemma modifies_trans m1 m2 m3 (P Q R : Z -> Prop) :
  modifies m1 m2 P -> modifies m2 m3 Q ->
  (forall x, P x -> R x) -> (forall x, Q x -> R x) ->
  modifies m1 m3 R.
Proof.
  intros H12 H23 HP HQ x Hx. rewrite H23, H12; [reflexivity| |]; intros ?; apply Hx; auto.
Qed.

Lemma modifies_weaken m m' (P Q : Z -> Prop) :
  modifies m m' P -> (forall x, P x -> Q x) -> modifies m m' Q.
Proof. intros H HPQ x Hx. apply H. intros ?. apply Hx. auto. Qed.

Lemma readLE_modifies n m m' a (P : Z -> Prop) :
  modifies m m' P -> (forall x, a <= x < a + Z.of_nat n -> ~ P x) ->
  readLE m' a n = readLE m a n.
Proof. intros H HP. apply readLE_ext. intros x Hx. apply H. by apply HP. Qed.

(** ** Field accesses *)

Lemma get_suffix_ok st p :
  seg st p (p + 8) ->
  get_suffix p st = Ok (readLE (mem st) p 8) st.
Proof.
  intros Hs. unfold seg in Hs. unfold get_suffix, loadPtr, off_suffix.
  rewrite Z.add_0_r, wrap64_id by lia. apply load_ok; lia.
Qed.

Lemma get_prefix_ok st s :
  seg st s (s + 8) ->
  get_prefix s st = Ok (readLE (mem st) s 8) st.
Proof.
  intros Hs. unfold seg in Hs. unfold get_prefix, loadPtr, off_prefix.
  rewrite Z.add_0_r, wrap64_id by lia. apply load_ok; lia.
Qed.

Lemma get_allocated_ok st p :
  seg st p (p + 12) ->
  get_allocated p st = Ok (toInt (readLE (mem st) (p + 8) 4)) st.
Proof.
  intros Hs. unfold seg in Hs. unfold get_allocated, loadInt, off_allocated.
  rewrite wrap64_id by lia. erewrite bind_run; [reflexivity|].
  apply load_ok; lia.
Qed.

Lemma set_suffix_ok st p s :
  seg st p (p + 8) ->
  set_suffix p s st = Ok tt (set_mem st (writeLE (mem st) p 8 s)).
Proof.
  intros Hs. unfold seg in Hs. unfold set_suffix, storePtr, off_suffix.
  rewrite Z.add_0_r, wrap64_id by lia. apply store_ok; lia.
Qed.

Lemma set_prefix_ok st s p :
  seg st s (s + 8) ->
  set_prefix s p st = Ok tt (set_mem st (writeLE (mem st) s 8 p)).
Proof.
  intros Hs. unfold seg in Hs. unfold set_prefix, storePtr, off_prefix.
  rewrite Z.add_0_r, wrap64_id by lia. apply store_ok; lia.
Qed.

Lemma set_allocated_ok st p v :
  seg st p (p + 12) ->
  set_allocated p v st = Ok tt (set_mem st (writeLE (mem st) (p + 8) 4 v)).
Proof.
  intros Hs. unfold seg in Hs. unfold set_allocated, storeInt, off_allocated.
  rewrite wrap64_id by lia. apply store_ok; lia.
Qed.

(** a null pointer is never mapped *)
Lemma get_suffix_null st : 8 <= heapLo st -> get_suffix 0 st = Fault 0.
Proof.
  intros H. unfold get_suffix, loadPtr, off_suffix.
  change (wrap64 (0 + 0)) with 0. apply load_fault. lia.
Qed.

Lemma computeUsableSpace_null st : 8 <= heapLo st -> computeUsableSpace 0 st = Fault 0.
Proof.
  intros H. unfold computeUsableSpace. apply bind_fault. by apply get_suffix_null.
Qed.

(** ** Blocks *)

Lemma isBlock_modifies m m' a u al (P : Z -> Prop) :
  isBlock m a u al -> modifies m m' P ->
  (forall x, a <= x < a + 12 \/ a + 16 + u <= x < a + 24 + u -> ~ P x) ->
  isBlock m' a u al.
Proof.
  intros (Hu & H1 & H2 & H3) Hm HP. unfold isBlock.
  rewrite !(readLE_modifies _ m m' _ P Hm); [done| | |];
    intros x Hx; apply HP; simpl in Hx; lia.
Qed.

Lemma flagOf_toInt al : toInt (flagOf al) = flagOf al.
Proof. by destruct al. Qed.

Lemma flagOf_zero al : (flagOf al =? 0) = negb al.
Proof. by destruct al. Qed.

Section BlockReads.
Context (st : state) (a u : Z) (al : bool).
Hypothesis Hb : isBlock (mem st) a u al.
Hypothesis Hs : seg st a (a + 24 + u).

Lemma block_suffix : get_suffix a st = Ok (a + 16 + u) st.
Proof.
  destruct Hb as (Hu & H1 & _). rewrite get_suffix_ok, H1; [done|].
  eapply seg_sub; [exact Hs|lia..].
Qed.

Lemma block_allocated : get_allocated a st = Ok (flagOf al) st.
Proof.
  destruct Hb as (Hu & _ & H2 & _).
  rewrite get_allocated_ok, H2, flagOf_toInt; [done|].
  eapply seg_sub; [exact Hs|lia..].
Qed.

Lemma block_back : get_prefix (a + 16 + u) st = Ok a st.
Proof.
  destruct Hb as (Hu & _ & _ & H3). rewrite get_prefix_ok, H3; [done|].
  eapply seg_sub; [exact Hs|lia..].
Qed.

Lemma block_usable : computeUsableSpace a st = Ok u st.
Proof.
  destruct Hb as (Hu & _). unfold seg in Hs.
  unfold computeUsableSpace. rewrite (bind_run _ _ _ _ _ block_suffix).
  unfold ret. rewrite prefixSize_eq, (wrap64_id (a + 16)) by lia.
  f_equal. replace (a + 16 + u - (a + 16)) with u by lia. apply wrap64_id. lia.
Qed.

Lemma block_next : computeNextPrefixAddr a st = Ok (a + 24 + u) st.
Proof.
  destruct Hb as (Hu & _). unfold seg in Hs.
  unfold computeNextPrefixAddr. rewrite (bind_run _ _ _ _ _ block_suffix).
  unfold ret. rewrite suffixSize_eq. f_equal.
  replace (a + 16 + u + 8) with (a + 24 + u) by lia. apply wrap64_id. lia.
Qed.

Lemma block_isFree : a <> 0 -> isFreeBlock a st = Ok (negb al) st.
Proof.
  intros Ha. unfold isFreeBlock. rewrite (proj2 (Z.eqb_neq _ _) Ha).
  rewrite (bind_run _ _ _ _ _ block_allocated). unfold ret.
  by rewrite flagOf_zero.
Qed.
End BlockReads.

(** ** Chains *)

Ltac blia :=
  cbn [fst snd] in *; cbn [span] in *; unfold extent in *; cbn [fst snd] in *; lia.

Lemma span_app l1 l2 : span (l1 ++ l2) = span l1 + span l2.
Proof. induction l1 as [|b l1 IH]; simpl; lia. Qed.

Lemma span_cons b l : span (b :: l) = extent b + span l.
Proof. reflexivity. Qed.

Lemma chain_end m a bs e : chain m a bs e -> e = a + span bs.
Proof.
  revert a. induction bs as [|b bs IH]; simpl; intros a H; [lia|].
  destruct H as [_ H]. apply IH in H. lia.
Qed.

Lemma chain_nonneg m a bs e : chain m a bs e -> Forall (fun b : blk => 0 <= b.1) bs.
Proof.
  revert a. induction bs as [|b bs IH]; simpl; intros a H; [constructor|].
  destruct H as [[Hu _] H]. constructor; eauto.
Qed.

Lemma span_nonneg bs : Forall (fun b : blk => 0 <= b.1) bs -> 0 <= span bs.
Proof. induction 1 as [|b bs Hb _ IH]; simpl; unfold extent; lia. Qed.

Lemma chain_le m a bs e : chain m a bs e -> a <= e.
Proof.
  intros H. pose proof (chain_end _ _ _ _ H).
  pose proof (span_nonneg _ (chain_nonneg _ _ _ _ H)). lia.
Qed.

Lemma chain_app m a l1 l2 e :
  chain m a (l1 ++ l2) e <->
  chain m a l1 (a + span l1) /\ chain m (a + span l1) l2 e.
Proof.
  revert a. induction l1 as [|b l1 IH]; intros a; simpl.
  - rewrite Z.add_0_r. intuition.
  - rewrite IH. replace (a + extent b + span l1) with (a + (extent b + span l1)) by lia.
    intuition.
Qed.

Lemma meta_range m a bs e x : chain m a bs e -> meta a bs x -> a <= x < e.
Proof.
  revert a. induction bs as [|b bs IH]; simpl; intros a H Hx; [done|].
  destruct H as [[Hu _] H]. pose proof (chain_le _ _ _ _ H) as Hle.
  unfold extent in *. destruct Hx as [Hx|Hx]; [lia|].
  specialize (IH _ H Hx). lia.
Qed.

Lemma meta_app a l1 l2 x :
  meta a (l1 ++ l2) x <-> meta a l1 x \/ meta (a + span l1) l2 x.
Proof.
  revert a. induction l1 as [|b l1 IH]; intros a; simpl.
  - rewrite Z.add_0_r. intuition.
  - rewrite IH. replace (a + extent b + span l1) with (a + (extent b + span l1)) by lia.
    intuition.
Qed.

Lemma chain_modifies m m' a bs e (P : Z -> Prop) :
  chain m a bs e -> modifies m m' P ->
  (forall x, meta a bs x -> ~ P x) ->
  chain m' a bs e.
Proof.
  revert a. induction bs as [|b bs IH]; simpl; intros a H Hm HP; [done|].
  destruct H as [Hb H]. split.
  - eapply isBlock_modifies; eauto.
  - eapply IH; eauto.
Qed.

Lemma chain_modifies_out m m' a bs e (P : Z -> Prop) :
  chain m a bs e -> modifies m m' P ->
  (forall x, P x -> x < a \/ e <= x) ->
  chain m' a bs e.
Proof.
  intros H Hm HP. eapply chain_modifies; eauto.
  intros x Hx HPx. pose proof (meta_range _ _ _ _ _ H Hx). specialize (HP _ HPx). lia.
Qed.

(** the block in the middle of a well-formed arena *)
Lemma wf_split st pre b post :
  wf st (pre ++ b :: post) ->
  let a := arenaBegin st + span pre in
  chain (mem st) (arenaBegin st) pre a /\
  isBlock (mem st) a b.1 b.2 /\
  chain (mem st) (a + extent b) post (arenaEnd st) /\
  seg st (arenaBegin st) a /\
  seg st a (a + extent b) /\
  seg st (a + extent b) (arenaEnd st).
Proof.
  intros Hwf a. pose proof (wf_seg _ _ Hwf) as Hs.
  destruct Hwf as [Hlo Hhi Hsz Hne Hch].
  apply chain_app in Hch. destruct Hch as [H1 H2]. simpl in H2.
  destruct H2 as [Hb H2]. subst a.
  pose proof (chain_le _ _ _ _ H1). pose proof (chain_le _ _ _ _ H2).
  assert (0 <= b.1) by (by destruct Hb).
  do 3 (split; [done|]). unfold seg, extent in *. lia.
Qed.

Lemma wf_rechain st bs m' bs' :
  wf st bs -> bs' <> [] ->
  chain m' (arenaBegin st) bs' (arenaEnd st) ->
  wf (set_mem st m') bs'.
Proof. intros [Hlo Hhi Hsz Hne Hch] Hne' Hch'. by constructor. Qed.

Lemma chain_three m a l1 mid l2 e :
  chain m a l1 (a + span l1) ->
  chain m (a + span l1) mid (a + span l1 + span mid) ->
  chain m (a + span l1 + span mid) l2 e ->
  chain m a (l1 ++ mid ++ l2) e.
Proof. intros H1 H2 H3. apply chain_app. split; [done|]. apply chain_app. by split. Qed.

Lemma app_cons_not_nil' {A} (l1 : list A) x l2 : l1 ++ x :: l2 <> [].
Proof. by destruct l1. Qed.

(** ** [makeFreeBlock] *)

Lemma makeFreeBlock_ok st a sz :
  seg st a (a + sz) -> 24 <= sz ->
  exists m',
    makeFreeBlock a sz st = Ok a (set_mem st m') /\
    isBlock m' a (sz - 24) false /\
    modifies (mem st) m' (fun x => a <= x < a + 12 \/ a + sz - 8 <= x < a + sz).
Proof.
  intros Hs Hsz. pose proof Hs as Hs'. unfold seg in Hs'.
  unfold makeFreeBlock. rewrite align8_suffix_eq.
  rewrite (wrap64_id (a + sz)) by lia. rewrite (wrap64_id (a + sz - 8)) by lia.
  set (s := a + sz - 8).
  erewrite bind_run; [|apply set_suffix_ok; eapply seg_sub; [exact Hs|lia..]].
  erewrite bind_run; [|apply set_prefix_ok; eapply seg_sub; [exact Hs|unfold s; lia..]].
  erewrite bind_run; [|apply set_allocated_ok; eapply seg_sub; [exact Hs|lia..]].
  cbn [mem set_mem]. unfold ret.
  eexists. split; [reflexivity|]. split.
  - unfold isBlock. split; [lia|]. split; [|split].
    + rewrite readLE_writeLE_disj by (simpl; lia).
      rewrite readLE_writeLE_disj by (simpl; unfold s; lia).
      rewrite readLE_writeLE_same. change (256 ^ Z.of_nat 8) with (2 ^ 64).
      rewrite Z.mod_small; unfold s; lia.
    + rewrite readLE_writeLE_same. reflexivity.
    + replace (a + 16 + (sz - 24)) with s by (unfold s; lia).
      rewrite readLE_writeLE_disj by (simpl; unfold s; lia).
      rewrite readLE_writeLE_same. change (256 ^ Z.of_nat 8) with (2 ^ 64).
      rewrite Z.mod_small; lia.
  - intros x Hx. rewrite !byteAt_writeLE_out; [reflexivity|simpl; unfold s; lia..].
Qed.

(** ** Setting the flag of a block *)

Lemma set_allocated_block st a u al (al' : bool) :
  isBlock (mem st) a u al -> seg st a (a + 24 + u) ->
  exists m',
    set_allocated a (flagOf al') st = Ok tt (set_mem st m') /\
    isBlock m' a u al' /\
    modifies (mem st) m' (fun x => a + 8 <= x < a + 12).
Proof.
  intros (Hu & H1 & H2 & H3) Hs.
  rewrite set_allocated_ok by (eapply seg_sub; [exact Hs|lia..]).
  eexists. split; [reflexivity|]. split.
  - unfold isBlock. split; [lia|]. split; [|split].
    + rewrite readLE_writeLE_disj by (simpl; lia). done.
    + rewrite readLE_writeLE_same. by destruct al'.
    + rewrite readLE_writeLE_disj by (simpl; lia). done.
  - intros x Hx. rewrite byteAt_writeLE_out; [reflexivity|simpl; lia].
Qed.

(** ** Walking the chain *)

Section Navigation.
Context (st : state) (pre : list blk) (b : blk) (post : list blk).
Hypothesis Hwf : wf st (pre ++ b :: post).
Let a := arenaBegin st + span pre.

Lemma here_block : isBlock (mem st) a b.1 b.2.
Proof. by destruct (wf_split _ _ _ _ Hwf) as (_ & ? & _). Qed.

Lemma here_seg : seg st a (a + 24 + b.1).
Proof.
  destruct (wf_split _ _ _ _ Hwf) as (_ & _ & _ & _ & Hs & _).
  unfold extent in Hs. by replace (a + 24 + b.1) with (a + (24 + b.1)) by lia.
Qed.

Lemma here_bounds : 8 <= a /\ a + 24 + b.1 <= arenaEnd st /\ 0 <= b.1.
Proof.
  destruct (wf_split _ _ _ _ Hwf) as (_ & Hb & _ & H1 & H2 & H3).
  destruct Hb as [Hu _]. unfold seg, extent in *. fold a in H1, H2, H3. lia.
Qed.

Lemma here_usable : computeUsableSpace a st = Ok b.1 st.
Proof. eapply block_usable; [apply here_block | apply here_seg]. Qed.

Lemma here_allocated : get_allocated a st = Ok (flagOf b.2) st.
Proof. eapply block_allocated; [apply here_block | apply here_seg]. Qed.

Lemma here_isFree : isFreeBlock a st = Ok (negb b.2) st.
Proof.
  eapply block_isFree; [apply here_block | apply here_seg |].
  pose proof here_bounds. lia.
Qed.

Lemma here_nextAddr : computeNextPrefixAddr a st = Ok (a + 24 + b.1) st.
Proof. eapply block_next; [apply here_block | apply here_seg]. Qed.

Lemma here_next :
  getNextPrefix a st = Ok (match post with [] => 0 | _ => a + 24 + b.1 end) st.
Proof.
  unfold getNextPrefix. rewrite (bind_run _ _ _ _ _ here_nextAddr).
  unfold get_arenaEnd, bind, ret.
  destruct (wf_split _ _ _ _ Hwf) as (_ & _ & Hpost & _).
  fold a in Hpost. unfold extent in Hpost.
  destruct post as [|c post'].
  - simpl in Hpost. rewrite (proj2 (Z.ltb_ge _ _)); [done|lia].
  - pose proof (chain_end _ _ _ _ Hpost) as He.
    pose proof (span_nonneg _ (chain_nonneg _ _ _ _ Hpost)) as Hn.
    simpl in Hpost. destruct Hpost as [[Hc _] Hrest].
    apply chain_le in Hrest. unfold extent in Hrest.
    rewrite (proj2 (Z.ltb_lt _ _)); [done|lia].
Qed.
End Navigation.

Lemma first_prev st b post :
  wf st (b :: post) -> getPrevPrefix (arenaBegin st) st = Ok 0 st.
Proof.
  intros Hwf. pose proof (wf_seg _ _ Hwf) as Hs. unfold seg in Hs.
  unfold getPrevPrefix, computePrevSuffixAddr, get_arenaBegin, bind.
  rewrite suffixSize_eq, wrap64_id by lia.
  destruct (arenaBegin st - 8 >? arenaBegin st) eqn:E; [lia|done].
Qed.

Lemma later_prev st pre q b post :
  wf st ((pre ++ [q]) ++ b :: post) ->
  getPrevPrefix (arenaBegin st + span (pre ++ [q])) st
  = Ok (arenaBegin st + span pre) st.
Proof.
  intros Hwf.
  assert (Hwf' : wf st (pre ++ q :: b :: post)) by (by rewrite <- app_assoc in Hwf).
  pose proof (here_block _ _ _ _ Hwf') as Hq.
  pose proof (here_seg _ _ _ _ Hwf') as Hs.
  pose proof (here_bounds _ _ _ _ Hwf') as Hbd.
  pose proof (wf_lo _ _ Hwf') as Hlo.
  assert (arenaBegin st <= arenaBegin st + span pre).
  { destruct (wf_split _ _ _ _ Hwf') as (_ & _ & _ & H1 & _). unfold seg in H1. lia. }
  rewrite span_app. cbn [span]. unfold extent.
  unfold getPrevPrefix, computePrevSuffixAddr, get_arenaBegin, bind.
  rewrite suffixSize_eq.
  replace (arenaBegin st + (span pre + (24 + q.1 + 0)) - 8)
    with (arenaBegin st + span pre + 16 + q.1) by lia.
  unfold seg in Hs. rewrite wrap64_id by lia.
  destruct (_ >? _) eqn:E; [|lia].
  eapply block_back; eauto.
Qed.

(** ** [coalescePrev] *)

Lemma span_snoc pre q : span (pre ++ [q]) = span pre + extent q.
Proof. rewrite span_app. simpl. lia. Qed.

Lemma wf_snoc st pre q b post :
  wf st (pre ++ q :: b :: post) <-> wf st ((pre ++ [q]) ++ b :: post).
Proof. by rewrite <- app_assoc. Qed.

Lemma meta_here a pre b post x :
  (let p := a + span pre in p <= x < p + 12 \/ p + 16 + b.1 <= x < p + 24 + b.1) ->
  meta a (pre ++ b :: post) x.
Proof. intros H. apply meta_app. right. simpl. by left. Qed.

Lemma meta_second a pre q b post x :
  (let p := a + span pre + extent q in
   p <= x < p + 12 \/ p + 16 + b.1 <= x < p + 24 + b.1) ->
  meta a (pre ++ q :: b :: post) x.
Proof. intros H. apply meta_app. right. simpl. right. by left. Qed.

Lemma coalescePrev_first st b post :
  wf st (b :: post) -> coalescePrev (arenaBegin st) st = Ok (arenaBegin st) st.
Proof.
  intros Hwf. unfold coalescePrev.
  rewrite (bind_run _ _ _ _ _ (first_prev _ _ _ Hwf)).
  by rewrite orb_true_r.
Qed.

Section TwoBlocks.
Context (st : state) (pre : list blk) (q b : blk) (post : list blk).
Hypothesis Hwf : wf st (pre ++ q :: b :: post).
Let aq := arenaBegin st + span pre.
Let ab := arenaBegin st + span pre + extent q.

Lemma second_wf : wf st ((pre ++ [q]) ++ b :: post).
Proof. by apply wf_snoc. Qed.

Lemma second_addr : arenaBegin st + span (pre ++ [q]) = ab.
Proof. rewrite span_snoc. unfold ab. lia. Qed.

Lemma second_prev : getPrevPrefix ab st = Ok aq st.
Proof. rewrite <- second_addr. exact (later_prev _ _ _ _ _ second_wf). Qed.

Lemma coalescePrev_keep :
  q.2 = true \/ b.2 = true -> coalescePrev ab st = Ok ab st.
Proof.
  intros Hal. unfold coalescePrev.
  rewrite (bind_run _ _ _ _ _ second_prev).
  pose proof (here_bounds _ _ _ _ Hwf) as Hq. fold aq in Hq.
  pose proof (here_bounds _ _ _ _ second_wf) as Hb. rewrite second_addr in Hb.
  rewrite (proj2 (Z.eqb_neq ab 0)), (proj2 (Z.eqb_neq aq 0)) by lia.
  cbn [orb].
  pose proof (here_allocated _ _ _ _ second_wf) as Ha. rewrite second_addr in Ha.
  rewrite (bind_run _ _ _ _ _ Ha), flagOf_zero.
  destruct (b.2) eqn:Eb; cbn [negb]; [done|].
  pose proof (here_allocated _ _ _ _ Hwf) as Ha'. fold aq in Ha'.
  rewrite (bind_run _ _ _ _ _ Ha'), flagOf_zero.
  destruct Hal as [->|?]; done.
Qed.

Lemma coalescePrev_merge :
  q.2 = false -> b.2 = false ->
  exists m',
    coalescePrev ab st = Ok aq (set_mem st m') /\
    wf (set_mem st m') (pre ++ (q.1 + 24 + b.1, false) :: post) /\
    modifies (mem st) m'
      (fun x => aq <= x < aq + 12 \/ ab + 16 + b.1 <= x < ab + 24 + b.1).
Proof.
  intros Hqf Hbf. unfold coalescePrev.
  rewrite (bind_run _ _ _ _ _ second_prev).
  pose proof (here_bounds _ _ _ _ Hwf) as Hq. fold aq in Hq.
  pose proof (here_bounds _ _ _ _ second_wf) as Hb. rewrite second_addr in Hb.
  pose proof (here_seg _ _ _ _ Hwf) as Hsq. fold aq in Hsq.
  pose proof (here_seg _ _ _ _ second_wf) as Hsb. rewrite second_addr in Hsb.
  assert (Hab : ab = aq + 24 + q.1) by (unfold ab, aq, extent; lia).
  rewrite (proj2 (Z.eqb_neq ab 0)), (proj2 (Z.eqb_neq aq 0)) by lia.
  cbn [orb].
  pose proof (here_allocated _ _ _ _ second_wf) as Ha. rewrite second_addr in Ha.
  rewrite (bind_run _ _ _ _ _ Ha), flagOf_zero, Hbf. cbn [negb].
  pose proof (here_allocated _ _ _ _ Hwf) as Ha'. fold aq in Ha'.
  rewrite (bind_run _ _ _ _ _ Ha'), flagOf_zero, Hqf. cbn [negb].
  pose proof (here_nextAddr _ _ _ _ second_wf) as Hn. rewrite second_addr in Hn.
  rewrite (bind_run _ _ _ _ _ Hn).
  unfold seg in Hsq, Hsb.
  rewrite wrap64_id by lia.
  destruct (makeFreeBlock_ok st aq (ab + 24 + b.1 - aq)) as (m' & Hrun & Hblk & Hmod).
  { unfold seg. lia. }
  { lia. }
  rewrite (bind_run _ _ _ _ _ Hrun). unfold ret.
  exists m'. split; [done|].
  destruct (wf_split _ _ _ _ Hwf) as (Hpre & _ & _).
  destruct (wf_split _ _ _ _ second_wf) as (_ & _ & Hpost & _).
  rewrite second_addr in Hpost. fold aq in Hpre.
  pose proof (chain_end _ _ _ _ Hpre) as Hepre.
  split.
  - eapply wf_rechain; [exact Hwf|apply app_cons_not_nil'|].
    apply (chain_three m' _ pre [(q.1 + 24 + b.1, false)] post).
    + eapply chain_modifies_out; [exact Hpre|exact Hmod|].
      intros x Hx. simpl in Hx. fold aq. lia.
    + cbn [chain span extent fst snd]. split; [|fold aq; lia].
      fold aq. replace (q.1 + 24 + b.1) with (ab + 24 + b.1 - aq - 24) by lia.
      exact Hblk.
    + cbn [span extent fst].
      eapply chain_modifies_out; [|exact Hmod|].
      * fold aq.
        match goal with |- chain _ ?x _ _ =>
          replace x with (ab + extent b) by (unfold extent; cbn [fst]; lia) end.
        exact Hpost.
      * intros x Hx. simpl in Hx. fold aq. blia.
  - eapply modifies_weaken; [exact Hmod|]. intros x Hx. simpl in Hx. lia.
Qed.
End TwoBlocks.

(** ** [coalesce] and [freeRegion] *)

Lemma list_snoc_cases {A} (l : list A) : l = [] \/ exists l' x, l = l' ++ [x].
Proof.
  induction l as [|l x _] using rev_ind; [by left|right; eauto].
Qed.

Lemma joinPrev_nil u : joinPrev [] u = ([], u).
Proof. reflexivity. Qed.

Lemma joinPrev_snoc l q u :
  joinPrev (l ++ [q]) u = if q.2 then (l ++ [q], u) else (l, q.1 + 24 + u).
Proof.
  unfold joinPrev. rewrite rev_app_distr. simpl.
  destruct q as [u1 [|]]; simpl; [done|]. by rewrite rev_involutive.
Qed.

Lemma coalesce_prev_step st pre u post :
  wf st (pre ++ (u, false) :: post) ->
  exists m1,
    coalescePrev (arenaBegin st + span pre) st
    = Ok (arenaBegin st + span (joinPrev pre u).1) (set_mem st m1) /\
    wf (set_mem st m1) ((joinPrev pre u).1 ++ ((joinPrev pre u).2, false) :: post) /\
    modifies (mem st) m1 (meta (arenaBegin st) (pre ++ (u, false) :: post)).
Proof.
  intros Hwf. destruct (list_snoc_cases pre) as [->|(l & q & ->)].
  - exists (mem st). rewrite joinPrev_nil. cbn [fst snd span app].
    rewrite Z.add_0_r, set_mem_same. split; [|split].
    + eapply coalescePrev_first; eauto.
    + done.
    + apply modifies_refl.
  - rewrite joinPrev_snoc. rewrite <- app_assoc in Hwf. cbn [app] in Hwf.
    rewrite span_snoc, Z.add_assoc.
    destruct (q.2) eqn:Eq.
    + exists (mem st). cbn [fst snd]. rewrite set_mem_same, span_snoc, Z.add_assoc.
      split; [|split].
      * apply (coalescePrev_keep _ _ _ _ _ Hwf). by left.
      * by rewrite <- app_assoc.
      * apply modifies_refl.
    + destruct (coalescePrev_merge _ _ _ _ _ Hwf Eq eq_refl) as (m1 & Hrun & Hwf1 & Hmod).
      exists m1. cbn [fst snd] in *. split; [done|]. split; [done|].
      eapply modifies_weaken; [exact Hmod|].
      intros x Hx. cbn beta in Hx. rewrite <- app_assoc. cbn [app].
      destruct Hx as [Hx|Hx].
      * apply meta_here. cbn zeta. lia.
      * apply meta_second. cbn zeta. cbn [fst]. lia.
Qed.

Lemma joinNext_span u post :
  24 + (joinNext u post).1 + span (joinNext u post).2 = 24 + u + span post.
Proof. destruct post as [|[u2 [|]] post']; cbn [joinNext]; blia. Qed.

Lemma coalesce_next_step st pre u post :
  wf st (pre ++ (u, false) :: post) ->
  let a := arenaBegin st + span pre in
  exists m2,
    (do next <- getNextPrefix a;
     if negb (next =? 0) then coalescePrev next else ret a) st
    = Ok (match post with (_, true) :: _ => a + 24 + u | _ => a end) (set_mem st m2) /\
    wf (set_mem st m2) (pre ++ ((joinNext u post).1, false) :: (joinNext u post).2) /\
    modifies (mem st) m2 (meta (arenaBegin st) (pre ++ (u, false) :: post)).
Proof.
  intros Hwf a.
  rewrite (bind_run _ _ _ _ _ (here_next _ _ _ _ Hwf)). fold a.
  pose proof (here_bounds _ _ _ _ Hwf) as Hb. fold a in Hb. cbn [fst] in Hb.
  destruct post as [|[u2 al2] post'].
  - exists (mem st). cbn [Z.eqb negb joinNext fst snd]. rewrite set_mem_same.
    split; [done|]. split; [done|]. apply modifies_refl.
  - cbn [fst]. rewrite (proj2 (Z.eqb_neq _ _)) by lia. cbn [negb].
    replace (a + 24 + u) with (arenaBegin st + span pre + extent (u, false)) by (subst a; blia).
    destruct al2.
    + exists (mem st). cbn [joinNext fst snd]. rewrite set_mem_same.
      split; [|split; [done|apply modifies_refl]].
      apply (coalescePrev_keep _ _ _ _ _ Hwf). by right.
    + destruct (coalescePrev_merge _ _ _ _ _ Hwf eq_refl eq_refl) as (m2 & Hrun & Hwf2 & Hmod).
      exists m2. cbn [joinNext fst snd] in *. split; [done|]. split; [done|].
      eapply modifies_weaken; [exact Hmod|].
      intros x Hx. cbn beta in Hx.
      destruct Hx as [Hx|Hx].
      * apply meta_here. cbn zeta. lia.
      * apply meta_second. cbn zeta. cbn [fst]. lia.
Qed.

Lemma meta_merge a l q u al post x :
  meta a (l ++ (q.1 + 24 + u, al) :: post) x ->
  meta a (l ++ q :: (u, al) :: post) x.
Proof.
  rewrite !meta_app. intros [H|H]; [by left|right].
  cbn [meta fst] in *.
  replace (a + span l + extent q + extent (u, al))
    with (a + span l + extent (q.1 + 24 + u, al)) by blia.
  unfold extent in *. cbn [fst] in *.
  destruct H as [[H|H]|H]; [left; left; lia|right; left; right; lia|by right; right].
Qed.

Lemma meta_joinPrev a pre u post x :
  meta a ((joinPrev pre u).1 ++ ((joinPrev pre u).2, false) :: post) x ->
  meta a (pre ++ (u, false) :: post) x.
Proof.
  destruct (list_snoc_cases pre) as [->|(l & q & ->)]; [done|].
  rewrite joinPrev_snoc. destruct (q.2); [done|]. cbn [fst snd].
  rewrite <- app_assoc. cbn [app]. apply meta_merge.
Qed.

Lemma coalesce_spec st pre u post :
  wf st (pre ++ (u, false) :: post) ->
  exists m',
    coalesce (arenaBegin st + span pre) st
    = Ok (coalesceResult (arenaBegin st) pre u post) (set_mem st m') /\
    wf (set_mem st m') (freed pre u post) /\
    modifies (mem st) m' (meta (arenaBegin st) (pre ++ (u, false) :: post)).
Proof.
  intros Hwf. pose proof (here_bounds _ _ _ _ Hwf) as Hb.
  unfold coalesce. rewrite (proj2 (Z.eqb_neq _ _)) by lia. cbn [negb].
  destruct (coalesce_prev_step _ _ _ _ Hwf) as (m1 & Hrun1 & Hwf1 & Hmod1).
  rewrite (bind_run _ _ _ _ _ Hrun1).
  destruct (coalesce_next_step _ _ _ _ Hwf1) as (m2 & Hrun2 & Hwf2 & Hmod2).
  cbn [arenaBegin set_mem mem] in *. rewrite Hrun2.
  exists m2. split; [|split].
  - reflexivity.
  - exact Hwf2.
  - eapply modifies_trans; [exact Hmod1|exact Hmod2|done|].
    intros x. apply meta_joinPrev.
Qed.

Lemma regionToPrefix_region a : 8 <= a -> a + 16 < 2 ^ 64 -> regionToPrefix (a + 16) = a.
Proof.
  intros H1 H2. unfold regionToPrefix.
  rewrite (proj2 (Z.eqb_neq _ _)) by lia. cbn [negb].
  rewrite prefixSize_eq, wrap64_id; lia.
Qed.

Lemma prefixToRegion_prefix a : 8 <= a -> a + 16 < 2 ^ 64 -> prefixToRegion a = a + 16.
Proof.
  intros H1 H2. unfold prefixToRegion.
  rewrite (proj2 (Z.eqb_neq _ _)) by lia. cbn [negb].
  rewrite prefixSize_eq, wrap64_id; lia.
Qed.

(** flipping the flag of the block in the middle of a well-formed arena *)
Lemma set_flag_spec st pre u al post (al' : bool) :
  wf st (pre ++ (u, al) :: post) ->
  let a := arenaBegin st + span pre in
  exists m',
    set_allocated a (flagOf al') st = Ok tt (set_mem st m') /\
    wf (set_mem st m') (pre ++ (u, al') :: post) /\
    modifies (mem st) m' (fun x => a + 8 <= x < a + 12).
Proof.
  intros Hwf a.
  destruct (wf_split _ _ _ _ Hwf) as (Hpre & Hblk & Hpost & _ & Hs & _).
  cbn [fst snd] in *. fold a in Hpre, Hblk, Hpost, Hs.
  destruct (set_allocated_block st a u al al' Hblk) as (m' & Hrun & Hblk' & Hmod).
  { unfold extent in Hs. cbn [fst] in Hs. by replace (a + 24 + u) with (a + (24 + u)) by lia. }
  exists m'. split; [done|]. split; [|done].
  eapply wf_rechain; [exact Hwf|apply app_cons_not_nil'|].
  pose proof (chain_end _ _ _ _ Hpre) as He.
  apply chain_app. split.
  - rewrite <- He. eapply chain_modifies_out; [exact Hpre|exact Hmod|].
    intros x Hx. cbn beta in Hx. lia.
  - rewrite <- He. cbn [chain fst snd]. split; [done|].
    eapply chain_modifies_out; [exact Hpost|exact Hmod|].
    intros x Hx. cbn beta in Hx. destruct Hblk as [Hu _]. blia.
Qed.

Lemma freeRegion_spec st pre u al post :
  wf st (pre ++ (u, al) :: post) ->
  exists m',
    freeRegion (arenaBegin st + span pre + 16) st = Ok tt (set_mem st m') /\
    wf (set_mem st m') (freed pre u post) /\
    modifies (mem st) m' (meta (arenaBegin st) (pre ++ (u, al) :: post)).
Proof.
  intros Hwf. pose proof (here_bounds _ _ _ _ Hwf) as Hb.
  pose proof (here_seg _ _ _ _ Hwf) as Hs. unfold seg in Hs. cbn [fst] in *.
  unfold freeRegion. rewrite (proj2 (Z.eqb_neq _ _)) by lia. cbn [negb].
  rewrite regionToPrefix_region by lia.
  destruct (set_flag_spec _ _ _ _ _ false Hwf) as (m1 & Hrun1 & Hwf1 & Hmod1).
  cbn zeta in Hrun1. cbn [flagOf] in Hrun1. rewrite (bind_run _ _ _ _ _ Hrun1).
  destruct (coalesce_spec _ _ _ _ Hwf1) as (m2 & Hrun2 & Hwf2 & Hmod2).
  cbn [arenaBegin set_mem mem] in *. rewrite (bind_run _ _ _ _ _ Hrun2).
  exists m2. split; [done|]. split; [done|].
  eapply modifies_trans; [exact Hmod1|exact Hmod2| |].
  - intros x Hx. cbn beta in Hx. apply meta_here. cbn zeta. cbn [fst]. lia.
  - intros x. rewrite !meta_app. cbn [meta fst snd]. done.
Qed.

Lemma freeRegion_null st : freeRegion 0 st = Ok tt st.
Proof. reflexivity. Qed.

(** ** Neighbouring free blocks *)

Lemma naf_app l1 b l2 :
  noAdjacentFree (l1 ++ b :: l2) <->
  noAdjacentFree (l1 ++ [b]) /\ noAdjacentFree (b :: l2).
Proof.
  induction l1 as [|x l1 IH].
  - simpl. intuition.
  - destruct l1 as [|y l1].
    + simpl. destruct l2; simpl; intuition.
    + change (noAdjacentFree ((x :: y :: l1) ++ b :: l2))
        with ((x.2 = true \/ y.2 = true) /\ noAdjacentFree ((y :: l1) ++ b :: l2)).
      change (noAdjacentFree ((x :: y :: l1) ++ [b]))
        with ((x.2 = true \/ y.2 = true) /\ noAdjacentFree ((y :: l1) ++ [b])).
      rewrite IH. intuition.
Qed.

Lemma naf_flag_last l (b b' : blk) :
  b.2 = b'.2 -> noAdjacentFree (l ++ [b]) -> noAdjacentFree (l ++ [b']).
Proof.
  intros Hf. induction l as [|x l IH]; [done|].
  destruct l as [|y l].
  - simpl. by rewrite Hf.
  - change (noAdjacentFree ((x :: y :: l) ++ [b]))
      with ((x.2 = true \/ y.2 = true) /\ noAdjacentFree ((y :: l) ++ [b])).
    change (noAdjacentFree ((x :: y :: l) ++ [b']))
      with ((x.2 = true \/ y.2 = true) /\ noAdjacentFree ((y :: l) ++ [b'])).
    intuition.
Qed.

Lemma naf_flag_head l (b b' : blk) :
  b.2 = b'.2 -> noAdjacentFree (b :: l) -> noAdjacentFree (b' :: l).
Proof. intros Hf. destruct l; simpl; [done|]. by rewrite Hf. Qed.

Lemma naf_tail b l : noAdjacentFree (b :: l) -> noAdjacentFree l.
Proof. destruct l; simpl; [done|]. by intros [_ ?]. Qed.

Lemma naf_init l b : noAdjacentFree (l ++ [b]) -> noAdjacentFree l.
Proof.
  induction l as [|x l IH]; [done|]. destruct l as [|y l]; [done|].
  change (noAdjacentFree ((x :: y :: l) ++ [b]))
    with ((x.2 = true \/ y.2 = true) /\ noAdjacentFree ((y :: l) ++ [b])).
  change (noAdjacentFree (x :: y :: l))
    with ((x.2 = true \/ y.2 = true) /\ noAdjacentFree (y :: l)).
  intuition.
Qed.

Lemma naf_snoc_alloc l (q b : blk) :
  q.2 = true -> noAdjacentFree (l ++ [q]) -> noAdjacentFree ((l ++ [q]) ++ [b]).
Proof.
  intros Hq H. rewrite <- app_assoc. cbn [app]. apply naf_app. split; [done|].
  simpl. auto.
Qed.

Lemma freed_noAdjacentFree pre u al post :
  noAdjacentFree (pre ++ (u, al) :: post) -> noAdjacentFree (freed pre u post).
Proof.
  intros H. apply naf_app in H. destruct H as [Hl Hr].
  unfold freed. apply naf_app. split.
  - destruct (list_snoc_cases pre) as [->|(l & q & ->)]; [done|].
    rewrite joinPrev_snoc. destruct (q.2) eqn:Eq; cbn [fst snd].
    + apply naf_snoc_alloc; [done|]. by apply naf_init in Hl.
    + apply naf_init in Hl. eapply naf_flag_last; [|exact Hl]. done.
  - destruct post as [|[u2 [|]] post']; cbn [joinNext fst snd].
    + done.
    + simpl. split; [by right|]. by apply naf_tail in Hr.
    + apply naf_tail in Hr. eapply naf_flag_head; [|exact Hr]. done.
Qed.

(** ** The searches *)

Lemma growArena_disabled s st : growArena s st = Ok 0 st.
Proof. reflexivity. Qed.

Lemma wf_usable_int st pre b post :
  wf st (pre ++ b :: post) -> 0 <= b.1 < 2 ^ 31.
Proof.
  intros Hwf. pose proof (here_bounds _ _ _ _ Hwf) as Hb.
  destruct (wf_split _ _ _ _ Hwf) as (_ & _ & _ & Hs & _).
  pose proof (wf_size _ _ Hwf) as Hsz. unfold INT_MAX, seg in *. lia.
Qed.

Lemma scanPtr_next st pre b post :
  wf st (pre ++ b :: post) ->
  getNextPrefix (arenaBegin st + span pre) st
  = Ok (scanPtr (arenaBegin st + span (pre ++ [b])) post) st.
Proof.
  intros Hwf. rewrite (here_next _ _ _ _ Hwf). f_equal.
  destruct post; [done|]. unfold scanPtr. rewrite span_snoc. blia.
Qed.

Lemma firstFitSteps_pos s rest : (1 <= firstFitSteps s rest)%nat.
Proof. destruct rest as [|b rest]; cbn [firstFitSteps]; [lia|]. destruct (fits s b); lia. Qed.

Lemma bestFitSteps_pos s rest : (1 <= bestFitSteps s rest)%nat.
Proof.
  destruct rest as [|b rest]; cbn [bestFitSteps]; [lia|].
  destruct (negb b.2 && (b.1 =? s)); lia.
Qed.

Lemma findFirstFit_loop_spec st s : forall rest pre fuel,
  wf st (pre ++ rest) ->
  (firstFitSteps s rest <= fuel)%nat ->
  findFirstFit_loop fuel s (scanPtr (arenaBegin st + span pre) rest) st
  = Ok (firstFitFrom s (arenaBegin st + span pre) rest) st.
Proof.
  induction rest as [|b rest IH]; intros pre fuel Hwf Hfuel.
  - destruct fuel as [|fuel]; [simpl in Hfuel; lia|]. reflexivity.
  - destruct fuel as [|fuel]; [pose proof (firstFitSteps_pos s (b :: rest)); lia|].
    pose proof (here_bounds _ _ _ _ Hwf) as Hb.
    cbn [findFirstFit_loop scanPtr firstFitFrom].
    rewrite (proj2 (Z.eqb_neq _ _)) by lia.
    rewrite (bind_run _ _ _ _ _ (here_allocated _ _ _ _ Hwf)), flagOf_zero.
    assert (Hnext : forall fuel', (firstFitSteps s rest <= fuel')%nat ->
      (do np <- getNextPrefix (arenaBegin st + span pre);
       findFirstFit_loop fuel' s np) st
      = Ok (firstFitFrom s (arenaBegin st + span pre + extent b) rest) st).
    { intros fuel' Hf. rewrite (bind_run _ _ _ _ _ (scanPtr_next _ _ _ _ Hwf)).
      rewrite IH; [by rewrite span_snoc, Z.add_assoc| by rewrite <- app_assoc | done]. }
    unfold fits. cbn [firstFitSteps] in Hfuel. unfold fits in Hfuel.
    destruct (b.2); cbn [negb andb] in *.
    + apply Hnext. lia.
    + rewrite (bind_run _ _ _ _ _ (here_usable _ _ _ _ Hwf)).
      rewrite Z.geb_leb. destruct (s <=? b.1); [done|]. apply Hnext. lia.
Qed.

Lemma findFirstFit_spec st s bs fuel :
  wf st bs -> (firstFitSteps s bs <= fuel)%nat ->
  findFirstFit fuel s st = Ok (firstFitFrom s (arenaBegin st) bs) st.
Proof.
  intros Hwf Hfuel. unfold findFirstFit, get_arenaBegin, bind.
  pose proof (findFirstFit_loop_spec st s bs [] fuel Hwf Hfuel) as H.
  cbn [span] in H. rewrite Z.add_0_r in H.
  destruct bs as [|b bs]; [by destruct (wf_ne _ _ Hwf)|]. exact H.
Qed.

Lemma findBestFit_loop_spec st s : forall rest pre fuel best minU,
  wf st (pre ++ rest) ->
  (bestFitSteps s rest <= fuel)%nat ->
  findBestFit_loop fuel s (scanPtr (arenaBegin st + span pre) rest) best minU st
  = Ok (bestFitFrom s (arenaBegin st + span pre) rest best minU) st.
Proof.
  induction rest as [|b rest IH]; intros pre fuel best minU Hwf Hfuel.
  - destruct fuel as [|fuel]; [simpl in Hfuel; lia|].
    cbn [findBestFit_loop scanPtr bestFitFrom Z.eqb].
    destruct (negb (best =? 0)) eqn:E; [done|].
    rewrite growArena_disabled. f_equal.
    apply negb_false_iff, Z.eqb_eq in E. done.
  - destruct fuel as [|fuel]; [pose proof (bestFitSteps_pos s (b :: rest)); lia|].
    pose proof (here_bounds _ _ _ _ Hwf) as Hb.
    pose proof (wf_usable_int _ _ _ _ Hwf) as Hu.
    cbn [findBestFit_loop scanPtr bestFitFrom].
    rewrite (proj2 (Z.eqb_neq _ _)) by lia.
    rewrite (bind_run _ _ _ _ _ (here_allocated _ _ _ _ Hwf)), flagOf_zero.
    assert (Hnext : forall fuel' best' min', (bestFitSteps s rest <= fuel')%nat ->
      (do np <- getNextPrefix (arenaBegin st + span pre);
       findBestFit_loop fuel' s np best' min') st
      = Ok (bestFitFrom s (arenaBegin st + span pre + extent b) rest best' min') st).
    { intros fuel' best' min' Hf.
      rewrite (bind_run _ _ _ _ _ (scanPtr_next _ _ _ _ Hwf)).
      rewrite IH; [by rewrite span_snoc, Z.add_assoc| by rewrite <- app_assoc | done]. }
    cbn [bestFitSteps] in Hfuel.
    destruct (b.2); cbn [negb andb] in *.
    + apply Hnext. lia.
    + rewrite (bind_run _ _ _ _ _ (here_usable _ _ _ _ Hwf)).
      rewrite toInt_id, wrap64_id by lia.
      destruct (b.1 =? s); [done|].
      destruct ((b.1 <? minU) && (b.1 >? s)); apply Hnext; lia.
Qed.

Lemma findBestFit_spec st s bs fuel :
  wf st bs -> (bestFitSteps s bs <= fuel)%nat ->
  findBestFit fuel s st = Ok (bestFitFrom s (arenaBegin st) bs 0 INT_MAX) st.
Proof.
  intros Hwf Hfuel. unfold findBestFit, get_arenaBegin, bind.
  pose proof (findBestFit_loop_spec st s bs [] fuel 0 INT_MAX Hwf Hfuel) as H.
  cbn [span] in H. rewrite Z.add_0_r in H.
  destruct bs as [|b bs]; [by destruct (wf_ne _ _ Hwf)|]. exact H.
Qed.

(** ** What the searches find *)

Lemma firstFitFrom_spec s a : forall rest pre,
  (firstFitFrom s (a + span pre) rest = 0 /\ Forall (fun b => fits s b = false) rest) \/
  (exists mid u post,
      rest = mid ++ (u, false) :: post /\
      firstFitFrom s (a + span pre) rest = a + span (pre ++ mid) /\
      isFirstFit s mid u /\
      firstFitSteps s rest = S (length mid)).
Proof.
  induction rest as [|b rest IH]; intros pre.
  - left. by split.
  - cbn [firstFitFrom firstFitSteps]. destruct (fits s b) eqn:Ef.
    + right. exists [], b.1, rest. destruct b as [u al]. unfold fits in Ef.
      cbn [fst snd] in *. apply andb_true_iff in Ef. destruct Ef as [Eal Es].
      apply negb_true_iff in Eal. subst al. apply Z.leb_le in Es.
      rewrite app_nil_r. repeat split; try done.
    + destruct (IH (pre ++ [b])) as [[H0 Hall]|(mid & u & post & -> & Hr & [Hs Hmid] & Hst)].
      * left. rewrite span_snoc, Z.add_assoc in H0. split; [done|]. by constructor.
      * right. exists (b :: mid), u, post.
        rewrite span_snoc, Z.add_assoc in Hr. rewrite <- app_assoc in Hr.
        repeat split; try done.
        -- by constructor.
        -- cbn [length]. by rewrite Hst.
Qed.

Lemma bestInv_skip s base scanned best minU b :
  bestInv s base scanned best minU ->
  fits s b = false ->
  bestInv s base (scanned ++ [b]) best minU.
Proof.
  intros [Hex Hinv] Hf. split.
  - apply Forall_app. split; [done|]. constructor; [|constructor].
    unfold fits in Hf. destruct (negb b.2); [|done]. cbn [andb] in *.
    apply Z.leb_gt in Hf. apply Z.eqb_neq. lia.
  - destruct Hinv as [(-> & -> & Hall)|(pre & u & post & -> & -> & -> & Hsu & Hpre & Hpost)].
    + left. repeat split; try done. apply Forall_app. split; [done|]. by repeat constructor.
    + right. exists pre, u, (post ++ [b]). rewrite <- app_assoc. repeat split; try done.
      apply Forall_app. split; [done|]. constructor; [|constructor]. by rewrite Hf.
Qed.

Lemma bestFitFrom_spec s base : forall rest scanned best minU,
  8 <= base ->
  Forall (fun b : blk => 0 <= b.1 < INT_MAX) (scanned ++ rest) ->
  bestInv s base scanned best minU ->
  (bestFitFrom s (base + span scanned) rest best minU = 0 /\
   Forall (fun b => fits s b = false) (scanned ++ rest)) \/
  (exists pre u post,
      scanned ++ rest = pre ++ (u, false) :: post /\
      bestFitFrom s (base + span scanned) rest best minU = base + span pre /\
      isBestFit s pre u post).
Proof.
  induction rest as [|b rest IH]; intros scanned best minU Hbase Hbd Hinv.
  - cbn [bestFitFrom]. rewrite app_nil_r in *.
    destruct Hinv as [Hex [(-> & -> & Hall)|(pre & u & post & -> & -> & -> & Hsu & Hpre & Hpost)]].
    + by left.
    + right. exists pre, u, post. repeat split; try done. lia.
  - assert (Hb : 0 <= b.1 < INT_MAX).
    { apply Forall_app in Hbd. destruct Hbd as [_ Hbd]. by inversion Hbd. }
    assert (Hbd' : Forall (fun b : blk => 0 <= b.1 < INT_MAX) ((scanned ++ [b]) ++ rest)).
    { by rewrite <- app_assoc. }
    assert (Hstep : forall best' minU',
      bestInv s base (scanned ++ [b]) best' minU' ->
      (bestFitFrom s (base + span scanned + extent b) rest best' minU' = 0 /\
       Forall (fun b => fits s b = false) (scanned ++ b :: rest)) \/
      (exists pre u post,
        scanned ++ b :: rest = pre ++ (u, false) :: post /\
        bestFitFrom s (base + span scanned + extent b) rest best' minU' = base + span pre /\
        isBestFit s pre u post)).
    { intros best' minU' Hinv'.
      specialize (IH (scanned ++ [b]) best' minU' Hbase Hbd' Hinv').
      rewrite span_snoc, Z.add_assoc, <- app_assoc in IH. exact IH. }
    cbn [bestFitFrom].
    destruct (b.2) eqn:Eal; cbn [negb].
    { apply Hstep, bestInv_skip; [done|]. unfold fits. by rewrite Eal. }
    destruct (b.1 =? s) eqn:Eeq.
    { apply Z.eqb_eq in Eeq. right. exists scanned, b.1, rest.
      destruct b as [u al]. cbn [fst snd] in *. subst al u.
      split; [done|]. split; [done|]. split; [lia|]. split.
      - destruct Hinv as [Hex _]. eapply Forall_impl; [exact Hex|].
        intros c Hc Hfit. cbn beta in Hc. unfold fits in Hfit.
        destruct (negb c.2); [|done]. cbn [andb] in *.
        apply Z.leb_le in Hfit. apply Z.eqb_neq in Hc. lia.
      - apply Forall_forall. intros c _ Hfit. unfold fits in Hfit.
        apply andb_true_iff in Hfit. destruct Hfit as [_ Hfit]. by apply Z.leb_le in Hfit. }
    apply Z.eqb_neq in Eeq.
    destruct ((b.1 <? minU) && (b.1 >? s)) eqn:Ec.
    + apply andb_true_iff in Ec. destruct Ec as [Elt Egt].
      apply Z.ltb_lt in Elt. apply Z.gtb_lt in Egt.
      apply Hstep. destruct Hinv as [Hex Hinv]. split.
      * apply Forall_app. split; [done|]. constructor; [|constructor].
        rewrite Eal. cbn [negb andb]. apply Z.eqb_neq. lia.
      * right. exists scanned, b.1, []. destruct b as [u al]. cbn [fst snd] in *. subst al.
        do 3 (split; [done|]). split; [lia|]. split; [|constructor].
        destruct Hinv as [(_ & _ & Hall)|(pre & u0 & post & -> & _ & -> & Hsu & Hpre & Hpost)].
        -- eapply Forall_impl; [exact Hall|]. intros c Hc Hfit. cbn beta in Hc. congruence.
        -- apply Forall_app. split; [|constructor].
           ++ eapply Forall_impl; [exact Hpre|]. intros c Hc Hfit. specialize (Hc Hfit). lia.
           ++ intros _. cbn [fst]. lia.
           ++ eapply Forall_impl; [exact Hpost|]. intros c Hc Hfit. specialize (Hc Hfit). lia.
    + apply Hstep. destruct (fits s b) eqn:Ef; [|by apply bestInv_skip].
      unfold fits in Ef. rewrite Eal in Ef. cbn [negb andb] in Ef. apply Z.leb_le in Ef.
      assert (Hge : minU <= b.1).
      { apply andb_false_iff in Ec. destruct Ec as [Ec|Ec].
        - by apply Z.ltb_ge in Ec.
        - rewrite Z.gtb_ltb in Ec. apply Z.ltb_ge in Ec. lia. }
      destruct Hinv as [Hex Hinv]. split.
      * apply Forall_app. split; [done|]. constructor; [|constructor].
        rewrite Eal. cbn [negb andb]. by apply Z.eqb_neq.
      * destruct Hinv as [(_ & -> & _)|(pre & u0 & post & -> & -> & -> & Hsu & Hpre & Hpost)];
          [lia|].
        right. exists pre, u0, (post ++ [b]). rewrite <- app_assoc.
        do 5 (split; [done|]).
        apply Forall_app. split; [done|]. by repeat constructor.
Qed.

Lemma bestFitFrom_exact s post : forall pre a best minU,
  Forall (fun b : blk => negb b.2 && (b.1 =? s) = false) pre ->
  bestFitFrom s a (pre ++ (s, false) :: post) best minU = a + span pre /\
  bestFitSteps s (pre ++ (s, false) :: post) = S (length pre).
Proof.
  induction pre as [|b pre IH]; intros a best minU Hpre.
  - cbn [app bestFitFrom bestFitSteps span length fst snd negb andb].
    rewrite Z.eqb_refl. split; [lia|done].
  - inversion Hpre as [|? ? Hb Hrest]; subst.
    cbn [app bestFitFrom bestFitSteps span length]. rewrite Hb.
    assert (Hgo : forall best' minU',
      bestFitFrom s (a + extent b) (pre ++ (s, false) :: post) best' minU'
      = a + (extent b + span pre)).
    { intros. rewrite (proj1 (IH _ _ _ Hrest)). lia. }
    split; [|by rewrite (proj2 (IH a best minU Hrest))].
    destruct (negb b.2); [|apply Hgo]. cbn [andb] in Hb. rewrite Hb.
    destruct ((b.1 <? minU) && (b.1 >? s)); apply Hgo.
Qed.

(** ** Splitting a block and allocating it *)

Lemma carve_spec st pre u al post k :
  wf st (pre ++ (u, al) :: post) ->
  0 <= k -> k + 24 <= u ->
  let p := arenaBegin st + span pre in
  exists m',
    carve p (p + 24 + k) st = Ok tt (set_mem st m') /\
    wf (set_mem st m') (pre ++ (k, false) :: (u - k - 24, false) :: post) /\
    modifies (mem st) m' (fun x => p <= x < p + 24 + u).
Proof.
  intros Hwf Hk Hku p.
  pose proof (here_bounds _ _ _ _ Hwf) as Hb. fold p in Hb. cbn [fst] in Hb.
  pose proof (here_seg _ _ _ _ Hwf) as Hs. fold p in Hs. cbn [fst] in Hs.
  pose proof Hs as Hs'. unfold seg in Hs'.
  destruct (wf_split _ _ _ _ Hwf) as (Hpre & _ & Hpost & _). fold p in Hpre, Hpost.
  pose proof (chain_end _ _ _ _ Hpre) as Hepre.
  unfold carve.
  pose proof (here_nextAddr _ _ _ _ Hwf) as Hn. fold p in Hn. cbn [fst] in Hn.
  rewrite (bind_run _ _ _ _ _ Hn).
  replace (p + 24 + u - (p + 24 + k)) with (u - k) by lia.
  rewrite (wrap64_id (u - k)) by lia.
  destruct (makeFreeBlock_ok st (p + 24 + k) (u - k)) as (m1 & Hrun1 & Hblk1 & Hmod1).
  { eapply seg_sub; [exact Hs|lia..]. }
  { lia. }
  rewrite (bind_run _ _ _ _ _ Hrun1).
  replace (p + 24 + k - p) with (24 + k) by lia.
  rewrite (wrap64_id (24 + k)) by lia.
  destruct (makeFreeBlock_ok (set_mem st m1) p (24 + k)) as (m2 & Hrun2 & Hblk2 & Hmod2).
  { unfold seg in *. cbn [heapLo brk set_mem]. lia. }
  { lia. }
  rewrite (bind_run _ _ _ _ _ Hrun2). cbn [set_mem mem heapLo brk arenaBegin arenaEnd] in *.
  exists m2. split; [done|].
  assert (Hmod : modifies (mem st) m2 (fun x => p <= x < p + 24 + u)).
  { eapply modifies_trans; [exact Hmod1|exact Hmod2|..]; intros x Hx; cbn beta in Hx; lia. }
  split; [|exact Hmod].
  eapply wf_rechain; [exact Hwf|apply app_cons_not_nil'|].
  apply (chain_three m2 _ pre [(k, false); (u - k - 24, false)] post).
  - rewrite <- Hepre. eapply chain_modifies_out; [exact Hpre|exact Hmod|].
    intros x Hx. cbn beta in Hx. lia.
  - rewrite <- Hepre. cbn [chain span fst snd]. unfold extent. cbn [fst].
    split; [|split; [|lia]].
    + replace k with (24 + k - 24) at 1 by lia. exact Hblk2.
    + eapply isBlock_modifies; [|exact Hmod2|].
      * replace (p + (24 + k)) with (p + 24 + k) by lia. exact Hblk1.
      * intros x Hx. cbn beta. lia.
  - rewrite <- Hepre. eapply chain_modifies_out; [|exact Hmod|].
    + match goal with |- chain _ ?x _ _ =>
        replace x with (p + extent (u, al)) by blia end. exact Hpost.
    + intros x Hx. cbn beta in Hx. blia.
Qed.

Lemma allocFound_null asize st : allocFound asize 0 st = Ok 0 st.
Proof. reflexivity. Qed.

Lemma allocFound_spec st pre u post asize :
  wf st (pre ++ (u, false) :: post) ->
  0 <= asize < 2 ^ 32 ->
  let p := arenaBegin st + span pre in
  exists m',
    allocFound asize p st = Ok (p + 16) (set_mem st m') /\
    wf (set_mem st m') (pre ++ handedOut asize u ++ post) /\
    modifies (mem st) m' (fun x => p <= x < p + 24 + u).
Proof.
  intros Hwf Has p.
  pose proof (here_bounds _ _ _ _ Hwf) as Hb. fold p in Hb. cbn [fst] in Hb.
  pose proof (here_seg _ _ _ _ Hwf) as Hs. fold p in Hs. cbn [fst] in Hs.
  unfold seg in Hs.
  unfold allocFound. rewrite (proj2 (Z.eqb_neq _ _)) by lia. cbn [negb].
  pose proof (here_usable _ _ _ _ Hwf) as Hu. fold p in Hu. cbn [fst] in Hu.
  rewrite (bind_run _ _ _ _ _ Hu).
  rewrite prefixSize_eq, suffixSize_eq.
  replace (asize + 16 + 8 + 8) with (asize + 32) by lia.
  rewrite (wrap64_id (asize + 32)) by lia.
  rewrite Z.geb_leb. unfold handedOut.
  rewrite prefixToRegion_prefix by lia.
  destruct (asize + 32 <=? u) eqn:E.
  - apply Z.leb_le in E.
    replace (p + 16 + 8 + asize) with (p + 24 + asize) by lia.
    rewrite (wrap64_id (p + 24 + asize)) by lia.
    destruct (carve_spec _ _ _ _ _ asize Hwf) as (m1 & Hrun1 & Hwf1 & Hmod1); [lia..|].
    fold p in Hrun1, Hmod1. rewrite (bind_run _ _ _ _ _ Hrun1).
    destruct (set_flag_spec _ _ _ _ _ true Hwf1) as (m2 & Hrun2 & Hwf2 & Hmod2).
    cbn zeta in Hrun2. cbn [arenaBegin set_mem flagOf mem] in *. fold p in Hrun2, Hmod2.
    rewrite (bind_run _ _ _ _ _ Hrun2). unfold ret.
    exists m2. split; [done|]. split; [done|].
    eapply modifies_trans; [exact Hmod1|exact Hmod2|..]; intros x Hx; cbn beta in Hx; lia.
  - destruct (set_flag_spec _ _ _ _ _ true Hwf) as (m2 & Hrun2 & Hwf2 & Hmod2).
    cbn zeta in Hrun2. cbn [flagOf] in *. fold p in Hrun2, Hmod2.
    unfold ret at 1. unfold bind at 1.
    rewrite (bind_run _ _ _ _ _ Hrun2). unfold ret.
    exists m2. split; [done|]. split; [done|].
    eapply modifies_weaken; [exact Hmod2|]. intros x Hx. cbn beta in Hx. lia.
Qed.

(** ** [initializeArena] *)

Lemma initializeArena_again st :
  arenaBegin st <> 0 -> initializeArena st = Ok tt st.
Proof.
  intros H. unfold initializeArena, get_arenaBegin, bind.
  by rewrite (proj2 (Z.eqb_neq _ _) H).
Qed.

Lemma initializeArena_fresh st :
  fresh st ->
  exists st0,
    initializeArena st = Ok tt st0 /\
    wf st0 [(DEFAULT_BRKSIZE - 24, false)] /\
    arenaBegin st0 = brk st /\
    heapLo st0 = heapLo st.
Proof.
  intros (Hab & Hlo & Hhi).
  unfold initializeArena, get_arenaBegin. unfold bind at 1. rewrite Hab.
  cbn [Z.eqb negb]. unfold sbrk. unfold bind at 1.
  set (st1 := mkState (mem st) (heapLo st) (brk st + DEFAULT_BRKSIZE)
                      (arenaBegin st) (arenaEnd st)).
  destruct (makeFreeBlock_ok st1 (brk st) DEFAULT_BRKSIZE) as (m' & Hrun & Hblk & Hmod).
  { unfold seg, DEFAULT_BRKSIZE in *. cbn [heapLo brk st1]. lia. }
  { unfold DEFAULT_BRKSIZE. lia. }
  rewrite (bind_run _ _ _ _ _ Hrun).
  unfold set_arenaBegin, set_arenaEnd, bind.
  cbn [set_mem st1 mem heapLo brk arenaBegin arenaEnd].
  rewrite wrap64_id by (unfold DEFAULT_BRKSIZE in *; lia).
  eexists. split; [reflexivity|]. split; [|done].
  constructor; cbn [mem heapLo brk arenaBegin arenaEnd].
  - lia.
  - lia.
  - unfold INT_MAX, DEFAULT_BRKSIZE. lia.
  - done.
  - cbn [chain fst snd]. split; [done|]. unfold extent. cbn [fst]. lia.
Qed.

Lemma ensure_initialized st :
  (do ab <- get_arenaBegin;
   (if ab =? 0 then initializeArena else ret tt)) st = initializeArena st.
Proof.
  unfold get_arenaBegin, bind. destruct (arenaBegin st =? 0) eqn:E; [done|].
  apply Z.eqb_neq in E. by rewrite initializeArena_again.
Qed.

Lemma arenaReady_wf st bs : wf st bs -> arenaReady st st bs.
Proof.
  intros Hwf. split; [|done]. apply initializeArena_again.
  pose proof (wf_lo _ _ Hwf). lia.
Qed.

Lemma arenaReady_fresh st :
  fresh st -> exists st0, arenaReady st st0 [(DEFAULT_BRKSIZE - 24, false)].
Proof.
  intros H. destruct (initializeArena_fresh _ H) as (st0 & Hrun & Hwf & _).
  by exists st0.
Qed.

(** ** Regions of allocated blocks *)

Lemma allocatedRegions_app a l1 l2 :
  allocatedRegions a (l1 ++ l2)
  = allocatedRegions a l1 ++ allocatedRegions (a + span l1) l2.
Proof.
  revert a. induction l1 as [|b l1 IH]; intros a; cbn [allocatedRegions span app].
  - by rewrite Z.add_0_r.
  - rewrite IH, <- app_assoc. by rewrite Z.add_assoc.
Qed.

Lemma allocatedRegions_range a bs r n :
  Forall (fun b : blk => 0 <= b.1) bs ->
  (r, n) ∈ allocatedRegions a bs ->
  a + 16 <= r /\ r + n + 8 <= a + span bs /\ 0 <= n.
Proof.
  intros Hnn. revert a. induction Hnn as [|b bs Hb Hbs IH]; intros a Hin.
  - by apply elem_of_nil in Hin.
  - cbn [allocatedRegions] in Hin. apply elem_of_app in Hin.
    pose proof (span_nonneg _ Hbs) as Hsp.
    destruct Hin as [Hin|Hin].
    + destruct (b.2); [|by apply elem_of_nil in Hin].
      apply list_elem_of_singleton in Hin. inversion Hin; subst. blia.
    + specialize (IH _ Hin). blia.
Qed.

Lemma span_aligned bs :
  Forall (fun b : blk => b.1 mod 8 = 0) bs -> span bs mod 8 = 0.
Proof.
  induction 1 as [|b bs Hb _ IH]; [done|].
  cbn [span]. unfold extent. Z.to_euclidean_division_equations. lia.
Qed.

Lemma firstFitSteps_le s bs : (firstFitSteps s bs <= S (length bs))%nat.
Proof.
  induction bs as [|b bs IH]; cbn [firstFitSteps length]; [lia|].
  destruct (fits s b); lia.
Qed.

Lemma bestFitSteps_le s bs : (bestFitSteps s bs <= S (length bs))%nat.
Proof.
  induction bs as [|b bs IH]; cbn [bestFitSteps length]; [lia|].
  destruct (negb b.2 && (b.1 =? s)); lia.
Qed.

Lemma initializeArena_fresh_break st :
  fresh st ->
  exists st0,
    initializeArena st = Ok tt st0 /\
    wf st0 [(DEFAULT_BRKSIZE - 24, false)] /\
    arenaBegin st0 = brk st /\
    arenaEnd st0 = brk st + DEFAULT_BRKSIZE /\
    brk st0 = brk st + DEFAULT_BRKSIZE.
Proof.
  intros (Hab & Hlo & Hhi).
  unfold initializeArena, get_arenaBegin. unfold bind at 1. rewrite Hab.
  cbn [Z.eqb negb]. unfold sbrk. unfold bind at 1.
  set (st1 := mkState (mem st) (heapLo st) (brk st + DEFAULT_BRKSIZE)
                      (arenaBegin st) (arenaEnd st)).
  destruct (makeFreeBlock_ok st1 (brk st) DEFAULT_BRKSIZE) as (m' & Hrun & Hblk & Hmod).
  { unfold seg, DEFAULT_BRKSIZE in *. cbn [heapLo brk st1]. lia. }
  { unfold DEFAULT_BRKSIZE. lia. }
  rewrite (bind_run _ _ _ _ _ Hrun).
  unfold set_arenaBegin, set_arenaEnd, bind.
  cbn [set_mem st1 mem heapLo brk arenaBegin arenaEnd].
  rewrite wrap64_id by (unfold DEFAULT_BRKSIZE in *; lia).
  eexists. split; [reflexivity|]. split; [|done].
  constructor; cbn [mem heapLo brk arenaBegin arenaEnd].
  - lia.
  - lia.
  - unfold INT_MAX, DEFAULT_BRKSIZE. lia.
  - done.
  - cbn [chain fst snd]. split; [done|]. unfold extent. cbn [fst]. lia.
Qed.

(** ** The allocation functions *)

Lemma allocFound_allocated st0 pre u post s :
  wf st0 (pre ++ (u, false) :: post) ->
  0 <= s <= u ->
  exists st',
    allocFound (wrap64 (align8 s)) (arenaBegin st0 + span pre) st0
    = Ok (arenaBegin st0 + span pre + 16) st' /\
    allocated s st0 (pre ++ (u, false) :: post) (arenaBegin st0 + span pre + 16) st'
              pre u post.
Proof.
  intros Hwf Hs.
  pose proof (wf_usable_int _ _ _ _ Hwf) as Hu. cbn [fst] in Hu.
  pose proof (align8_bounds s) as (Hal & Hal8).
  pose proof (here_bounds _ _ _ _ Hwf) as Hb. cbn [fst] in Hb.
  pose proof (here_seg _ _ _ _ Hwf) as Hsg. cbn [fst] in Hsg. unfold seg in Hsg.
  rewrite (wrap64_id (align8 s)) by lia.
  destruct (allocFound_spec _ _ _ _ (align8 s) Hwf) as (m' & Hrun & Hwf' & Hmod); [lia|].
  cbn zeta in Hrun, Hmod.
  exists (set_mem st0 m'). split; [exact Hrun|].
  unfold allocated. cbn zeta. rewrite prefixSize_eq, suffixSize_eq.
  replace (align8 s + 16 + 8 + 8) with (align8 s + 32) by lia.
  unfold handedOut in Hwf'.
  set (split := align8 s + 32 <=? u) in *.
  set (u' := if split then align8 s else u).
  assert (Hwf'' : wf (set_mem st0 m')
            (pre ++ (u', true) :: (if split then [(u - align8 s - 24, false)] else []) ++ post)).
  { subst u'. by destruct split. }
  split; [done|]. split; [done|]. split; [exact Hwf''|].
  split; [|split; [|split; [|split; [|split]]]].
  - rewrite regionToPrefix_region by lia.
    exact (here_usable _ _ _ _ Hwf'').
  - subst u'. destruct split; lia.
  - intros Hall. unfold sizesAligned in *.
    apply Forall_app in Hall. destruct Hall as [Hpre Hrest].
    inversion Hrest as [|? ? Hu8 Hpost]; subst. cbn [fst] in Hu8.
    pose proof (span_aligned _ Hpre) as Hsp.
    split; [|split].
    + Z.to_euclidean_division_equations. lia.
    + intros Hbase. Z.to_euclidean_division_equations. lia.
    + apply Forall_app. split; [done|]. subst u'.
      destruct split; repeat constructor; cbn [fst]; try done.
      Z.to_euclidean_division_equations. lia.
  - intros r2 n2 Hin. rewrite allocatedRegions_app in Hin.
    destruct (wf_split _ _ _ _ Hwf) as (Hpre & _ & Hpost & _).
    assert (Hu' : u' <= u).
    { subst u' split. destruct (align8 s + 32 <=? u) eqn:E; [|lia]. apply Z.leb_le in E. lia. }
    apply elem_of_app in Hin. destruct Hin as [Hin|Hin].
    + apply (allocatedRegions_range _ _ _ _ (chain_nonneg _ _ _ _ Hpre)) in Hin. lia.
    + cbn [allocatedRegions snd app] in Hin.
      apply (allocatedRegions_range _ _ _ _ (chain_nonneg _ _ _ _ Hpost)) in Hin. blia.
  - reflexivity.
  - exact Hmod.
Qed.

Lemma alloc_generic (find : nat -> Z -> M Z) (sel : Z -> list blk -> Z -> list blk -> Prop)
    st st0 bs s fuel :
  (forall p, find fuel s st0 = Ok p st0 ->
     (p = 0 /\ Forall (fun b => fits s b = false) bs) \/
     (exists pre u post, bs = pre ++ (u, false) :: post /\
        p = arenaBegin st0 + span pre /\ s <= u /\ sel s pre u post)) ->
  (exists p, find fuel s st0 = Ok p st0) ->
  arenaReady st st0 bs ->
  0 <= s ->
  exists r st',
    (do ab <- get_arenaBegin;
     do_ (if ab =? 0 then initializeArena else ret tt);
     do p <- find fuel s;
     allocFound (wrap64 (align8 s)) p) st = Ok r st' /\
    allocResult (sel s) s st0 bs r st'.
Proof.
  intros Hfind [p Hp] [Hinit Hwf] Hs.
  assert (Hpre : (do ab <- get_arenaBegin;
     do_ (if ab =? 0 then initializeArena else ret tt);
     do p <- find fuel s;
     allocFound (wrap64 (align8 s)) p) st
     = (do p <- find fuel s; allocFound (wrap64 (align8 s)) p) st0).
  { pose proof (ensure_initialized st) as He. rewrite Hinit in He.
    unfold bind in *. destruct (get_arenaBegin st) as [ab st1| | |]; try done.
    by rewrite He. }
  rewrite Hpre, (bind_run _ _ _ _ _ Hp).
  destruct (Hfind p Hp) as [(-> & Hno)|(pre & u & post & -> & -> & Hsu & Hsel)].
  - exists 0, st0. split; [done|]. by left.
  - destruct (allocFound_allocated _ _ _ _ s Hwf) as (st' & Hrun & Hall); [lia|].
    exists (arenaBegin st0 + span pre + 16), st'. split; [done|]. right.
    pose proof (here_bounds _ _ _ _ Hwf). split; [lia|]. by exists pre, u, post.
Qed.

Lemma firstFit_found st0 bs s fuel :
  wf st0 bs -> (length bs < fuel)%nat ->
  findFirstFit fuel s st0 = Ok (firstFitFrom s (arenaBegin st0) bs) st0 /\
  ((firstFitFrom s (arenaBegin st0) bs = 0 /\ Forall (fun b => fits s b = false) bs) \/
   (exists pre u post, bs = pre ++ (u, false) :: post /\
      firstFitFrom s (arenaBegin st0) bs = arenaBegin st0 + span pre /\
      s <= u /\ isFirstFit s pre u)).
Proof.
  intros Hwf Hfuel. split.
  - apply findFirstFit_spec; [done|]. pose proof (firstFitSteps_le s bs). lia.
  - destruct (firstFitFrom_spec s (arenaBegin st0) bs [])
      as [H|(mid & u & post & -> & Hr & Hsel & _)];
      cbn [span app] in *; rewrite Z.add_0_r in *.
    + by left.
    + right. exists mid, u, post. destruct Hsel as [Hs ?]. repeat split; done.
Qed.

Lemma bestInv_start s base : bestInv s base [] 0 INT_MAX.
Proof. split; [constructor|]. left. repeat split; constructor. Qed.

Lemma wf_usable_bounds st bs :
  wf st bs -> Forall (fun b : blk => 0 <= b.1 < INT_MAX) bs.
Proof.
  intros Hwf. apply Forall_forall. intros b Hin.
  apply list_elem_of_split in Hin. destruct Hin as (l1 & l2 & ->).
  pose proof (wf_usable_int _ _ _ _ Hwf) as Hu.
  pose proof (here_bounds _ _ _ _ Hwf) as Hb.
  destruct (wf_split _ _ _ _ Hwf) as (_ & _ & _ & Hs & _).
  pose proof (wf_size _ _ Hwf). unfold seg, INT_MAX in *. lia.
Qed.

Lemma bestFit_found st0 bs s fuel :
  wf st0 bs -> (bestFitSteps s bs <= fuel)%nat ->
  findBestFit fuel s st0 = Ok (bestFitFrom s (arenaBegin st0) bs 0 INT_MAX) st0 /\
  ((bestFitFrom s (arenaBegin st0) bs 0 INT_MAX = 0 /\
    Forall (fun b => fits s b = false) bs) \/
   (exists pre u post, bs = pre ++ (u, false) :: post /\
      bestFitFrom s (arenaBegin st0) bs 0 INT_MAX = arenaBegin st0 + span pre /\
      s <= u /\ isBestFit s pre u post)).
Proof.
  intros Hwf Hfuel. split.
  - by apply findBestFit_spec.
  - pose proof (wf_lo _ _ Hwf) as Hlo.
    destruct (bestFitFrom_spec s (arenaBegin st0) bs [] 0 INT_MAX)
      as [H|(pre & u & post & Heq & Hr & Hsel)];
      cbn [span app] in *; rewrite ?Z.add_0_r in *.
    + lia.
    + by apply (wf_usable_bounds st0).
    + apply bestInv_start.
    + by left.
    + right. exists pre, u, post. do 2 (split; [done|]). split; [apply Hsel|done].
Qed.

Lemma firstFitAllocRegion_spec st st0 bs s fuel :
  arenaReady st st0 bs -> 0 <= s -> (length bs < fuel)%nat ->
  exists r st',
    firstFitAllocRegion fuel s st = Ok r st' /\
    allocResult (fun pre u _ => isFirstFit s pre u) s st0 bs r st'.
Proof.
  intros Hready Hs Hfuel. pose proof Hready as [_ Hwf].
  destruct (firstFit_found st0 bs s fuel Hwf Hfuel) as [Hrun Hcases].
  apply (alloc_generic findFirstFit (fun s pre u _ => isFirstFit s pre u)); try done.
  - intros p Hp. rewrite Hrun in Hp. inversion Hp; subst. exact Hcases.
  - eauto.
Qed.

Lemma bestFitAllocRegion_spec st st0 bs s fuel :
  arenaReady st st0 bs -> 0 <= s -> (length bs < fuel)%nat ->
  exists r st',
    bestFitAllocRegion fuel s st = Ok r st' /\
    allocResult (isBestFit s) s st0 bs r st'.
Proof.
  intros Hready Hs Hfuel. pose proof Hready as [_ Hwf].
  assert (Hfuel' : (bestFitSteps s bs <= fuel)%nat).
  { pose proof (bestFitSteps_le s bs). lia. }
  destruct (bestFit_found st0 bs s fuel Hwf Hfuel') as [Hrun Hcases].
  apply (alloc_generic findBestFit isBestFit); try done.
  - intros p Hp. rewrite Hrun in Hp. inversion Hp; subst. exact Hcases.
  - eauto.
Qed.

(** ** The prelude of the resize functions *)

Section ResizePrelude.
Context (st : state) (pre : list blk) (u : Z) (al : bool) (post : list blk).
Hypothesis Hwf : wf st (pre ++ (u, al) :: post).
Let cur := arenaBegin st + span pre.
Let r := cur + 16.

Lemma region_nonnull : (r =? 0) = false.
Proof.
  pose proof (here_bounds _ _ _ _ Hwf) as Hb. apply Z.eqb_neq. subst r cur. lia.
Qed.

Lemma region_prefix : regionToPrefix r = cur.
Proof.
  pose proof (here_bounds _ _ _ _ Hwf) as Hb.
  pose proof (here_seg _ _ _ _ Hwf) as Hs. unfold seg in Hs. cbn [fst] in *.
  apply regionToPrefix_region; subst cur; lia.
Qed.

Lemma resizeOldSize_block : resizeOldSize r st = Ok u st.
Proof.
  unfold resizeOldSize. rewrite region_nonnull. cbn [negb].
  rewrite region_prefix.
  rewrite (bind_run _ _ _ _ _ (here_usable _ _ _ _ Hwf)). unfold ret. cbn [fst].
  pose proof (wf_usable_int _ _ _ _ Hwf) as Hu. cbn [fst] in Hu.
  by rewrite toInt_id by lia.
Qed.

Lemma oldSize_small newSize : u < newSize -> (wrap64 u >=? newSize) = false.
Proof.
  intros H. pose proof (wf_usable_int _ _ _ _ Hwf) as Hu. cbn [fst] in Hu.
  rewrite wrap64_id by lia. rewrite Z.geb_leb. apply Z.leb_gt. lia.
Qed.

Lemma oldSize_enough newSize : newSize <= u -> (wrap64 u >=? newSize) = true.
Proof.
  intros H. pose proof (wf_usable_int _ _ _ _ Hwf) as Hu. cbn [fst] in Hu.
  rewrite wrap64_id by lia. rewrite Z.geb_leb. apply Z.leb_le. lia.
Qed.
End ResizePrelude.

Lemma resizeRegion_last st pre u al newSize fuel :
  wf st (pre ++ [(u, al)]) -> u < newSize ->
  resizeRegion fuel (arenaBegin st + span pre + 16) newSize st = Fault 0.
Proof.
  intros Hwf Hlt. unfold resizeRegion.
  rewrite (bind_run _ _ _ _ _ (resizeOldSize_block _ _ _ _ _ Hwf)).
  rewrite (oldSize_small _ _ _ _ _ Hwf) by done.
  rewrite (region_prefix _ _ _ _ _ Hwf).
  rewrite (bind_run _ _ _ _ _ (here_next _ _ _ _ Hwf)).
  apply bind_fault, computeUsableSpace_null. pose proof (wf_lo _ _ Hwf). lia.
Qed.

Lemma resizeRegionExtra_last st pre u al newSize fuel :
  wf st (pre ++ [(u, al)]) -> u < newSize ->
  resizeRegionExtra fuel (arenaBegin st + span pre + 16) newSize st = Fault 0.
Proof.
  intros Hwf Hlt. unfold resizeRegionExtra.
  rewrite (bind_run _ _ _ _ _ (resizeOldSize_block _ _ _ _ _ Hwf)).
  rewrite (oldSize_small _ _ _ _ _ Hwf) by done.
  rewrite (region_prefix _ _ _ _ _ Hwf).
  rewrite (bind_run _ _ _ _ _ (here_next _ _ _ _ Hwf)).
  apply bind_fault, computeUsableSpace_null. pose proof (wf_lo _ _ Hwf). lia.
Qed.

(** the sum of two usable sizes, as the [int] the resize functions keep *)
Lemma sumSize_int st bs a b :
  wf st bs -> 0 <= a -> 0 <= b -> a + b <= arenaEnd st - arenaBegin st ->
  wrap64 (toInt (wrap64 (a + b))) = a + b.
Proof.
  intros Hwf Ha Hb Hab. pose proof (wf_size _ _ Hwf) as Hsz. unfold INT_MAX in Hsz.
  rewrite (wrap64_id (a + b)) by lia. rewrite toInt_id by lia. apply wrap64_id. lia.
Qed.

Lemma two_blocks_fit st pre q b post :
  wf st (pre ++ q :: b :: post) ->
  0 <= q.1 /\ 0 <= b.1 /\ q.1 + b.1 + 48 <= arenaEnd st - arenaBegin st.
Proof.
  intros Hwf.
  pose proof (here_bounds _ _ _ _ Hwf) as Hq.
  pose proof (here_bounds _ _ _ _ (second_wf _ _ _ _ _ Hwf)) as Hb.
  rewrite (second_addr st pre q) in Hb.
  destruct (wf_split _ _ _ _ Hwf) as (_ & _ & _ & Hs & _). unfold seg in Hs. blia.
Qed.

Lemma resizeRegionExtra_first st u al c post newSize fuel :
  wf st ((u, al) :: c :: post) -> u < newSize ->
  c.2 = true \/ c.1 + u < newSize ->
  resizeRegionExtra fuel (arenaBegin st + 16) newSize st = Fault 0.
Proof.
  intros Hwf Hlt Hnext.
  assert (Hwf0 : wf st ([] ++ (u, al) :: c :: post)) by done.
  pose proof (resizeOldSize_block _ _ _ _ _ Hwf0) as Hold.
  pose proof (region_prefix _ _ _ _ _ Hwf0) as Hpref.
  pose proof (here_next _ _ _ _ Hwf0) as Hn.
  pose proof (here_usable _ _ _ _ Hwf0) as Huc.
  pose proof (second_wf _ _ _ _ _ Hwf0) as Hwf1.
  pose proof (here_usable _ _ _ _ Hwf1) as Hun.
  pose proof (here_isFree _ _ _ _ Hwf1) as Hnf.
  pose proof (two_blocks_fit _ _ _ _ _ Hwf0) as Hfit.
  cbn [span app fst snd] in *. rewrite Z.add_0_r in *.
  unfold extent in *. cbn [fst] in *. rewrite ?Z.add_0_r in *.
  replace (arenaBegin st + 24 + u) with (arenaBegin st + (24 + u)) in Hn by lia.
  unfold resizeRegionExtra.
  rewrite (bind_run _ _ _ _ _ Hold).
  rewrite (oldSize_small st [] u al (c :: post) Hwf0) by done.
  rewrite Hpref.
  rewrite (bind_run _ _ _ _ _ Hn), (bind_run _ _ _ _ _ Hun), (bind_run _ _ _ _ _ Huc).
  rewrite (bind_run _ _ _ _ _ Hnf).
  assert (Hrest : resizeExtraPrev fuel (arenaBegin st + 16) newSize u (arenaBegin st)
            (arenaBegin st + (24 + u)) c.1 u st = Fault 0).
  { unfold resizeExtraPrev.
    rewrite (bind_run _ _ _ _ _ (first_prev _ _ _ Hwf)).
    apply bind_fault, computeUsableSpace_null. pose proof (wf_lo _ _ Hwf). lia. }
  destruct (c.2) eqn:Ec; cbn [negb]; [exact Hrest|].
  destruct Hnext as [?|Hsum]; [done|].
  rewrite (sumSize_int st _ c.1 u Hwf) by lia.
  rewrite Z.geb_leb, (proj2 (Z.leb_gt _ _)) by lia. exact Hrest.
Qed.

(** ** The fast path of the resize functions *)

Lemma resize_prelude_enough st r u newSize :
  r <> 0 ->
  computeUsableSpace (regionToPrefix r) st = Ok u st ->
  0 <= u < 2 ^ 31 -> newSize <= u ->
  resizeOldSize r st = Ok u st /\ (wrap64 u >=? newSize) = true.
Proof.
  intros Hr Hu Hbd Hle. split.
  - unfold resizeOldSize. rewrite (proj2 (Z.eqb_neq _ _) Hr). cbn [negb].
    rewrite (bind_run _ _ _ _ _ Hu). unfold ret. by rewrite toInt_id by lia.
  - rewrite wrap64_id by lia. rewrite Z.geb_leb. apply Z.leb_le. lia.
Qed.

(** ** Concrete arenas *)

Ltac concrete_wf :=
  constructor;
  [ vm_compute; intuition congruence ..
  | cbn [chain fst snd]; unfold isBlock, extent; cbn [fst snd];
    repeat split; try lia; vm_compute; reflexivity ].

Lemma fourFree_wf :
  wf fourFree [(56504, false); (254, false); (25400, false); (254, false)].
Proof. concrete_wf. Qed.

Lemma testArena_wf :
  wf testArena
     [(56504, false); (256, true); (25400, false); (256, true); (966040, false)].
Proof. concrete_wf. Qed.

Lemma tieArena_wf :
  wf tieArena
     [(1000, false); (256, true); (1000, false); (8, true); (1046192, false)].
Proof. concrete_wf. Qed.

Lemma smallArena_wf : wf smallArena [(8, true); (1048520, false)].
Proof. concrete_wf. Qed.

(** ** Conversions between [size_t] and [int] *)

Lemma toInt_shift x : toInt (x + 2 ^ 64) = toInt x.
Proof.
  unfold toInt. f_equal.
  replace (x + 2 ^ 64 + 2 ^ 31) with (x + 2 ^ 31 + 2 ^ 32 * 2 ^ 32) by lia.
  by rewrite Z_mod_plus_full.
Qed.

Lemma toInt_wrap64 x : - 2 ^ 31 <= x < 2 ^ 31 -> toInt (wrap64 x) = x.
Proof.
  intros H. destruct (Z_lt_le_dec x 0).
  - rewrite wrap64_neg by lia. rewrite toInt_shift. apply toInt_id. lia.
  - rewrite wrap64_id by lia. apply toInt_id. lia.
Qed.

Lemma wrap64_toInt x : 0 <= x < 2 ^ 31 -> wrap64 (toInt x) = x.
Proof. intros H. rewrite toInt_id by lia. apply wrap64_id. lia. Qed.

Lemma align8_shift x : align8 (x + 2 ^ 64) = align8 x + 2 ^ 64.
Proof.
  rewrite !align8_div.
  replace (x + 2 ^ 64 + 7) with (x + 7 + 2 ^ 61 * 8) by lia.
  rewrite Z.div_add by lia. lia.
Qed.

Lemma align8_mono x y : x <= y -> align8 x <= align8 y.
Proof.
  intros H. rewrite !align8_div.
  pose proof (Z.div_le_mono (x + 7) (y + 7) 8 ltac:(lia) ltac:(lia)). lia.
Qed.

(** [(int) align8(x)] for a [size_t] expression [x] whose mathematical value
    [d] fits an [int], negative values included *)
Lemma int_align8_sz d :
  - 2 ^ 31 <= d < 2 ^ 31 - 8 ->
  toInt (wrap64 (align8 (wrap64 d))) = align8 d.
Proof.
  intros H. pose proof (align8_bounds d) as [Hb _].
  destruct (Z_lt_le_dec d 0).
  - rewrite (wrap64_neg d) by lia. rewrite align8_shift.
    assert (Hlo : - 2 ^ 31 <= align8 d).
    { pose proof (align8_mono (- 2 ^ 31) d ltac:(lia)) as Hm.
      rewrite (align8_fix (- 2 ^ 31)) in Hm by reflexivity. lia. }
    destruct (Z_lt_le_dec (align8 d) 0).
    + rewrite wrap64_id by lia. rewrite toInt_shift. apply toInt_id. lia.
    + assert (align8 d = 0).
      { pose proof (align8_mono d 0 ltac:(lia)) as Hm.
        rewrite (align8_fix 0) in Hm by reflexivity. lia. }
      replace (align8 d) with 0 by lia. reflexivity.
  - rewrite (wrap64_id d) by lia. rewrite wrap64_id by lia. apply toInt_id. lia.
Qed.

(** [align8((int) x)] assigned to an [int] *)
Lemma int_align8_int d :
  - 2 ^ 31 <= d < 2 ^ 31 - 8 ->
  toInt (align8 (toInt (wrap64 d))) = align8 d.
Proof.
  intros H. rewrite toInt_wrap64 by lia.
  pose proof (align8_bounds d) as [Hb _].
  pose proof (align8_mono (- 2 ^ 31) d ltac:(lia)) as Hm.
  rewrite (align8_fix (- 2 ^ 31)) in Hm by reflexivity.
  apply toInt_id. lia.
Qed.

(** ** Reading the chain at a given address *)

Lemma app_snoc_cons {A} (l : list A) x r : l ++ x :: r = (l ++ [x]) ++ r.
Proof. by rewrite <- app_assoc. Qed.

Section At.
Context (st : state) (l : list blk) (b : blk) (r : list blk) (a : Z).
Hypothesis Hwf : wf st (l ++ b :: r).
Hypothesis Ha : a = arenaBegin st + span l.

Lemma usable_at : computeUsableSpace a st = Ok b.1 st.
Proof. subst a. exact (here_usable _ _ _ _ Hwf). Qed.

Lemma isFree_at : isFreeBlock a st = Ok (negb b.2) st.
Proof. subst a. exact (here_isFree _ _ _ _ Hwf). Qed.

Lemma nextAddr_at : computeNextPrefixAddr a st = Ok (a + 24 + b.1) st.
Proof. subst a. exact (here_nextAddr _ _ _ _ Hwf). Qed.

Lemma next_at :
  getNextPrefix a st = Ok (match r with [] => 0 | _ => a + 24 + b.1 end) st.
Proof. subst a. exact (here_next _ _ _ _ Hwf). Qed.

Lemma bounds_at : 8 <= a /\ a + 24 + b.1 <= arenaEnd st /\ 0 <= b.1.
Proof. subst a. exact (here_bounds _ _ _ _ Hwf). Qed.

Lemma oldSize_at : resizeOldSize (a + 16) st = Ok b.1 st.
Proof. subst a. destruct b as [u al]. exact (resizeOldSize_block _ _ _ _ _ Hwf). Qed.

Lemma prefix_at : regionToPrefix (a + 16) = a.
Proof. subst a. destruct b as [u al]. exact (region_prefix _ _ _ _ _ Hwf). Qed.
End At.

Lemma prev_at st l q b r a :
  wf st (l ++ q :: b :: r) ->
  a = arenaBegin st + span l + extent q ->
  getPrevPrefix a st = Ok (arenaBegin st + span l) st.
Proof. intros Hwf ->. exact (second_prev _ _ _ _ _ Hwf). Qed.

Lemma set_flag_at st l u al r (al' : bool) a :
  wf st (l ++ (u, al) :: r) ->
  a = arenaBegin st + span l ->
  exists m',
    set_allocated a (flagOf al') st = Ok tt (set_mem st m') /\
    wf (set_mem st m') (l ++ (u, al') :: r) /\
    modifies (mem st) m' (fun x => a + 8 <= x < a + 12).
Proof. intros Hwf ->. exact (set_flag_spec _ _ _ _ _ al' Hwf). Qed.

Lemma carve_at st l u al r k a :
  wf st (l ++ (u, al) :: r) ->
  a = arenaBegin st + span l ->
  0 <= k -> k + 24 <= u ->
  exists m',
    carve a (a + 24 + k) st = Ok tt (set_mem st m') /\
    wf (set_mem st m') (l ++ (k, false) :: (u - k - 24, false) :: r) /\
    modifies (mem st) m' (fun x => a <= x < a + 24 + u).
Proof. intros Hwf -> Hk Hku. exact (carve_spec _ _ _ _ _ k Hwf Hk Hku). Qed.

Lemma coalesce_at st l u r a :
  wf st (l ++ (u, false) :: r) ->
  a = arenaBegin st + span l ->
  exists m',
    coalesce a st = Ok (coalesceResult (arenaBegin st) l u r) (set_mem st m') /\
    wf (set_mem st m') (freed l u r) /\
    modifies (mem st) m' (meta (arenaBegin st) (l ++ (u, false) :: r)).
Proof. intros Hwf ->. exact (coalesce_spec _ _ _ _ Hwf). Qed.

(** ** [resizeRegionExtra] between two free neighbours *)

Section ThreeBlocks.
Context (st : state) (pre : list blk) (up uc : Z) (al : bool) (un : Z) (post : list blk).
Hypothesis Hwf : wf st (pre ++ (up, false) :: (uc, al) :: (un, false) :: post).
Let aP := arenaBegin st + span pre.
Let aC := arenaBegin st + span pre + 24 + up.
Let aN := arenaBegin st + span pre + 24 + up + 24 + uc.

Lemma three_wfC : wf st ((pre ++ [(up, false)]) ++ (uc, al) :: (un, false) :: post).
Proof. by rewrite <- app_snoc_cons. Qed.

Lemma three_wfN : wf st ((pre ++ [(up, false); (uc, al)]) ++ (un, false) :: post).
Proof. rewrite <- app_assoc. exact Hwf. Qed.

Lemma three_aC : aC = arenaBegin st + span (pre ++ [(up, false)]).
Proof. rewrite span_app. subst aC. blia. Qed.

Lemma three_aN : aN = arenaBegin st + span (pre ++ [(up, false); (uc, al)]).
Proof. rewrite span_app. subst aN. blia. Qed.

Lemma three_bounds :
  8 <= aP /\ 0 <= up /\ 0 <= uc /\ 0 <= un /\
  aN + 24 + un <= arenaEnd st /\ arenaBegin st <= aP /\
  arenaEnd st - arenaBegin st < 2 ^ 31 /\ arenaEnd st < 2 ^ 64.
Proof.
  pose proof (bounds_at _ _ _ _ _ Hwf eq_refl) as HP.
  pose proof (bounds_at _ _ _ _ _ three_wfC three_aC) as HC.
  pose proof (bounds_at _ _ _ _ _ three_wfN three_aN) as HN.
  destruct (wf_split _ _ _ _ Hwf) as (_ & _ & _ & Hs & _).
  pose proof (wf_size _ _ Hwf) as Hsz. pose proof (wf_hi _ _ Hwf) as Hhi.
  unfold seg, INT_MAX in *. cbn [fst] in *. subst aP aC aN. lia.
Qed.

Lemma extra_reaches_both newSize fuel :
  uc < newSize -> un + uc < newSize -> up + uc < newSize ->
  resizeRegionExtra fuel (aC + 16) newSize st
  = resizeExtraBoth fuel (aC + 16) newSize uc aC aN aP un uc up st.
Proof.
  intros H1 H2 H3. pose proof three_bounds as Hb.
  unfold resizeRegionExtra.
  rewrite (bind_run _ _ _ _ _ (oldSize_at _ _ _ _ _ three_wfC three_aC)). cbn [fst].
  rewrite wrap64_id by lia. rewrite Z.geb_leb, (proj2 (Z.leb_gt _ _)) by lia.
  rewrite (prefix_at _ _ _ _ _ three_wfC three_aC).
  rewrite (bind_run _ _ _ _ _ (next_at _ _ _ _ _ three_wfC three_aC)). cbn [fst].
  fold aN.
  rewrite (bind_run _ _ _ _ _ (usable_at _ _ _ _ _ three_wfN three_aN)).
  rewrite (bind_run _ _ _ _ _ (usable_at _ _ _ _ _ three_wfC three_aC)).
  rewrite (bind_run _ _ _ _ _ (isFree_at _ _ _ _ _ three_wfN three_aN)).
  cbn [fst snd negb].
  rewrite (sumSize_int st _ un uc Hwf) by lia.
  rewrite Z.geb_leb, (proj2 (Z.leb_gt _ _)) by lia.
  unfold resizeExtraPrev.
  rewrite (bind_run _ _ _ _ _ (prev_at _ _ _ _ _ aC Hwf ltac:(subst aC; blia))).
  fold aP.
  rewrite (bind_run _ _ _ _ _ (usable_at _ _ _ _ _ Hwf eq_refl)).
  rewrite (bind_run _ _ _ _ _ (isFree_at _ _ _ _ _ Hwf eq_refl)).
  cbn [fst snd negb].
  rewrite (sumSize_int st _ up uc Hwf) by lia.
  rewrite Z.geb_leb, (proj2 (Z.leb_gt _ _)) by lia.
  reflexivity.
Qed.

Lemma both_chooses newSize fuel r oldSize :
  newSize <= up + uc + un ->
  resizeExtraBoth fuel r newSize oldSize aC aN aP un uc up st
  = if up >? un
    then mergeBothCutPrev aC aP up un uc newSize st
    else mergeBothCutNext aC aN up un uc newSize st.
Proof.
  intros H. pose proof three_bounds as Hb.
  unfold resizeExtraBoth.
  rewrite (bind_run _ _ _ _ _ (isFree_at _ _ _ _ _ Hwf eq_refl)).
  cbn [fst snd negb].
  rewrite (bind_run _ _ _ _ _ (isFree_at _ _ _ _ _ three_wfN three_aN)).
  cbn [fst snd negb].
  assert (Hsum : wrap64 (toInt (wrap64 (up + un + uc))) = up + un + uc).
  { rewrite (wrap64_id (up + un + uc)) by lia. rewrite toInt_id by lia.
    apply wrap64_id. lia. }
  rewrite Hsum, Z.geb_leb, (proj2 (Z.leb_le _ _)) by lia.
  by destruct (up >? un).
Qed.


Lemma mergeBothCutPrev_split newSize :
  un + uc < newSize -> newSize <= up + uc + un ->
  let k := keptOfPrev up uc un newSize in
  k + 24 <= up ->
  exists m',
    mergeBothCutPrev aC aP up un uc newSize st
    = Ok (aP + 24 + k + 16) (set_mem st m') /\
    wf (set_mem st m')
       (pre ++ (k, false) :: (up - k + uc + un + 24, true) :: post).
Proof.
  intros H1 H2 k Hk. pose proof three_bounds as Hb.
  unfold mergeBothCutPrev. rewrite prefixSize_eq, suffixSize_eq.
  replace (newSize - uc - un - 16 - 8) with (newSize - uc - un - 24) by lia.
  rewrite int_align8_sz by lia.
  pose proof (align8_bounds (newSize - uc - un - 24)) as [HM _].
  rewrite int_align8_int by lia.
  fold (keptOfPrev up uc un newSize). fold k.
  pose proof (align8_bounds (up - align8 (newSize - uc - un - 24))) as [Hk' _].
  fold (keptOfPrev up uc un newSize) in Hk'. fold k in Hk'.
  rewrite wrap64_toInt by lia.
  rewrite Z.geb_leb, (proj2 (Z.leb_le _ _)) by lia.
  replace (aP + k + 16 + 8) with (aP + 24 + k) by lia.
  rewrite (wrap64_id (aP + 24 + k)) by lia.
  destruct (carve_at _ _ _ _ _ k aP Hwf eq_refl) as (m1 & Hrun1 & Hwf1 & _); [lia..|].
  rewrite (bind_run _ _ _ _ _ Hrun1).
  set (sl := up - k - 24) in *.
  assert (Hwf1C : wf (set_mem st m1)
            ((pre ++ [(k, false); (sl, false)]) ++ (uc, al) :: (un, false) :: post)).
  { rewrite <- app_assoc. exact Hwf1. }
  assert (HaC : aC = arenaBegin (set_mem st m1) + span (pre ++ [(k, false); (sl, false)])).
  { rewrite span_app. subst aC sl. cbn [arenaBegin set_mem]. blia. }
  destruct (set_flag_at _ _ _ _ _ false aC Hwf1C HaC) as (m2 & Hrun2 & Hwf2 & _).
  cbn [flagOf] in Hrun2. rewrite (bind_run _ _ _ _ _ Hrun2).
  cbn [set_mem arenaBegin mem] in *.
  destruct (coalesce_at _ _ _ _ aC Hwf2 HaC) as (m3 & Hrun3 & Hwf3 & _).
  rewrite (bind_run _ _ _ _ _ Hrun3).
  cbn [set_mem arenaBegin mem] in *.
  assert (Hj : joinPrev (pre ++ [(k, false); (sl, false)]) uc
               = (pre ++ [(k, false)], sl + 24 + uc)).
  { replace (pre ++ [(k, false); (sl, false)]) with ((pre ++ [(k, false)]) ++ [(sl, false)])
      by (by rewrite <- app_assoc).
    by rewrite joinPrev_snoc. }
  unfold coalesceResult, freed in *. rewrite Hj in *. cbn [fst snd joinNext] in *.
  set (merged := sl + 24 + uc + 24 + un) in *.
  assert (Hcp : arenaBegin st + span (pre ++ [(k, false)]) = aP + 24 + k).
  { rewrite span_app. subst aP. blia. }
  rewrite Hcp in *.
  assert (Hwf3' : wf (set_mem st m3) ((pre ++ [(k, false)]) ++ (merged, false) :: post))
    by exact Hwf3.
  destruct (set_flag_at _ _ _ _ _ true (aP + 24 + k) Hwf3') as (m4 & Hrun4 & Hwf4 & _).
  { cbn [arenaBegin set_mem]. lia. }
  cbn [flagOf] in Hrun4. rewrite (bind_run _ _ _ _ _ Hrun4).
  unfold ret. rewrite prefixToRegion_prefix by lia.
  exists m4. split; [done|]. cbn [set_mem] in Hwf4.
  rewrite <- app_assoc in Hwf4. cbn [app] in Hwf4.
  replace (up - k + uc + un + 24) with merged by (subst merged sl; lia).
  exact Hwf4.
Qed.

Lemma mergeBothCutPrev_whole newSize :
  un + uc < newSize -> newSize <= up + uc + un ->
  up < keptOfPrev up uc un newSize + 8 ->
  exists m',
    mergeBothCutPrev aC aP up un uc newSize st = Ok (aP + 16) (set_mem st m') /\
    wf (set_mem st m') (pre ++ (up + uc + un + 48, true) :: post).
Proof.
  intros H1 H2 Hk. pose proof three_bounds as Hb.
  unfold mergeBothCutPrev. rewrite prefixSize_eq, suffixSize_eq.
  replace (newSize - uc - un - 16 - 8) with (newSize - uc - un - 24) by lia.
  rewrite int_align8_sz by lia.
  pose proof (align8_bounds (newSize - uc - un - 24)) as [HM _].
  rewrite int_align8_int by lia.
  fold (keptOfPrev up uc un newSize).
  pose proof (align8_bounds (up - align8 (newSize - uc - un - 24))) as [Hk' _].
  fold (keptOfPrev up uc un newSize) in Hk'.
  rewrite wrap64_toInt by lia.
  rewrite Z.geb_leb, (proj2 (Z.leb_gt _ _)) by lia.
  unfold ret at 1. unfold bind at 1.
  destruct (set_flag_at _ _ _ _ _ false aC three_wfC three_aC) as (m2 & Hrun2 & Hwf2 & _).
  cbn [flagOf] in Hrun2. rewrite (bind_run _ _ _ _ _ Hrun2).
  pose proof three_aC as HaC.
  destruct (coalesce_at _ _ _ _ aC Hwf2 HaC) as (m3 & Hrun3 & Hwf3 & _).
  rewrite (bind_run _ _ _ _ _ Hrun3).
  cbn [set_mem arenaBegin mem] in *.
  unfold coalesceResult, freed in *. rewrite joinPrev_snoc in *.
  cbn [fst snd joinNext] in *. fold aP in Hrun3 |- *.
  destruct (set_flag_at _ _ _ _ _ true aP Hwf3 eq_refl) as (m4 & Hrun4 & Hwf4 & _).
  cbn [flagOf] in Hrun4. rewrite (bind_run _ _ _ _ _ Hrun4).
  unfold ret. rewrite prefixToRegion_prefix by lia.
  exists m4. split; [done|]. cbn [set_mem] in Hwf4.
  replace (up + uc + un + 48) with (up + 24 + uc + 24 + un) by lia.
  exact Hwf4.
Qed.


Lemma takenOfNext_bounds newSize :
  up + uc < newSize -> newSize <= up + uc + un ->
  0 <= takenOfNext up uc newSize < 2 ^ 31 - 16 /\
  toInt (align8 (toInt (wrap64
     (newSize - toInt (wrap64 (align8 (wrap64 (uc + up)))))))) = takenOfNext up uc newSize.
Proof.
  intros H1 H2. pose proof three_bounds as Hb.
  pose proof (align8_bounds (uc + up)) as [HM _].
  pose proof (align8_bounds (newSize - align8 (uc + up))) as [Hk Hk8].
  fold (takenOfNext up uc newSize) in Hk, Hk8.
  split.
  - split; [|lia]. Z.to_euclidean_division_equations. lia.
  - rewrite int_align8_sz by lia. rewrite int_align8_int by lia. reflexivity.
Qed.

Lemma mergeBothCutNext_split newSize :
  up + uc < newSize -> newSize <= up + uc + un ->
  let k := takenOfNext up uc newSize in
  k + 8 <= un -> 48 <= k ->
  exists m',
    mergeBothCutNext aC aN up un uc newSize st = Ok (aP + 16) (set_mem st m') /\
    wf (set_mem st m')
       (pre ++ (up + uc + k, true) :: (un - k + 24, false) :: post).
Proof.
  intros H1 H2 k Hk Hlegal. pose proof three_bounds as Hb.
  destruct (takenOfNext_bounds newSize H1 H2) as [Hkb Hkeq]. fold k in Hkb.
  unfold mergeBothCutNext. rewrite Hkeq. fold k.
  rewrite prefixSize_eq, suffixSize_eq. change (wrap64 (16 + 8)) with 24.
  rewrite wrap64_toInt by lia.
  rewrite Z.geb_leb, (proj2 (Z.leb_le _ _)) by lia.
  replace (aN + k - 24) with (aN + 24 + (k - 48)) by lia.
  rewrite (wrap64_id (aN + 24 + (k - 48))) by lia.
  destruct (carve_at _ _ _ _ _ (k - 48) aN three_wfN three_aN)
    as (m1 & Hrun1 & Hwf1 & _); [lia..|].
  rewrite (bind_run _ _ _ _ _ Hrun1).
  set (rest := un - (k - 48) - 24) in *.
  assert (Hwf1C : wf (set_mem st m1)
            ((pre ++ [(up, false)]) ++ (uc, al) :: (k - 48, false) :: (rest, false) :: post)).
  { rewrite <- !app_assoc in Hwf1 |- *. exact Hwf1. }
  pose proof three_aC as HaC.
  destruct (set_flag_at _ _ _ _ _ false aC Hwf1C HaC) as (m2 & Hrun2 & Hwf2 & _).
  cbn [flagOf] in Hrun2. rewrite (bind_run _ _ _ _ _ Hrun2).
  cbn [set_mem arenaBegin mem] in *.
  destruct (coalesce_at _ _ _ _ aC Hwf2 HaC) as (m3 & Hrun3 & Hwf3 & _).
  rewrite (bind_run _ _ _ _ _ Hrun3).
  cbn [set_mem arenaBegin mem] in *.
  unfold coalesceResult, freed in *. rewrite joinPrev_snoc in *.
  cbn [fst snd joinNext] in *. fold aP in Hrun3 |- *.
  destruct (set_flag_at _ _ _ _ _ true aP Hwf3 eq_refl) as (m4 & Hrun4 & Hwf4 & _).
  cbn [flagOf] in Hrun4. rewrite (bind_run _ _ _ _ _ Hrun4).
  unfold ret. rewrite prefixToRegion_prefix by lia.
  exists m4. split; [done|]. cbn [set_mem] in Hwf4.
  replace (up + uc + k) with (up + 24 + uc + 24 + (k - 48)) by lia.
  replace (un - k + 24) with rest by (subst rest; lia).
  exact Hwf4.
Qed.

Lemma mergeBothCutNext_whole newSize :
  up + uc < newSize -> newSize <= up + uc + un ->
  un < takenOfNext up uc newSize + 8 ->
  exists m',
    mergeBothCutNext aC aN up un uc newSize st = Ok (aP + 16) (set_mem st m') /\
    wf (set_mem st m') (pre ++ (up + uc + un + 48, true) :: post).
Proof.
  intros H1 H2 Hk. pose proof three_bounds as Hb.
  destruct (takenOfNext_bounds newSize H1 H2) as [Hkb Hkeq].
  unfold mergeBothCutNext. rewrite Hkeq.
  rewrite wrap64_toInt by lia.
  rewrite Z.geb_leb, (proj2 (Z.leb_gt _ _)) by lia.
  unfold ret at 1. unfold bind at 1.
  destruct (set_flag_at _ _ _ _ _ false aC three_wfC three_aC) as (m2 & Hrun2 & Hwf2 & _).
  cbn [flagOf] in Hrun2. rewrite (bind_run _ _ _ _ _ Hrun2).
  pose proof three_aC as HaC.
  destruct (coalesce_at _ _ _ _ aC Hwf2 HaC) as (m3 & Hrun3 & Hwf3 & _).
  rewrite (bind_run _ _ _ _ _ Hrun3).
  cbn [set_mem arenaBegin mem] in *.
  unfold coalesceResult, freed in *. rewrite joinPrev_snoc in *.
  cbn [fst snd joinNext] in *. fold aP in Hrun3 |- *.
  destruct (set_flag_at _ _ _ _ _ true aP Hwf3 eq_refl) as (m4 & Hrun4 & Hwf4 & _).
  cbn [flagOf] in Hrun4. rewrite (bind_run _ _ _ _ _ Hrun4).
  unfold ret. rewrite prefixToRegion_prefix by lia.
  exists m4. split; [done|]. cbn [set_mem] in Hwf4.
  replace (up + uc + un + 48) with (up + 24 + uc + 24 + un) by lia.
  exact Hwf4.
Qed.
End ThreeBlocks.

(** ** The fallback tail of the resize functions *)

Lemma two_splits {A} (x y : A) : forall l1 r1 l2 r2,
  l1 ++ x :: r1 = l2 ++ y :: r2 -> x <> y ->
  (exists mid, l2 = l1 ++ x :: mid /\ r1 = mid ++ y :: r2) \/
  (exists mid, l1 = l2 ++ y :: mid /\ r2 = mid ++ x :: r1).
Proof.
  induction l1 as [|a l1 IH]; intros r1 l2 r2 Heq Hne.
  - destruct l2 as [|b l2]; simpl in Heq.
    + inversion Heq. congruence.
    + inversion Heq; subst. left. by exists l2.
  - destruct l2 as [|b l2]; simpl in Heq.
    + inversion Heq; subst. right. by exists l1.
    + inversion Heq; subst.
      destruct (IH _ _ _ H1 Hne) as [(mid & -> & ->)|(mid & -> & ->)].
      * left. by exists mid.
      * right. by exists mid.
Qed.

Lemma payload_not_meta m a l b r e x :
  chain m a (l ++ b :: r) e ->
  a + span l + 16 <= x < a + span l + 16 + b.1 ->
  ~ meta a (l ++ b :: r) x.
Proof.
  intros Hch Hx Hmeta. apply chain_app in Hch. destruct Hch as [Hl Hbr].
  cbn [chain] in Hbr. destruct Hbr as [Hb Hr].
  apply meta_app in Hmeta. destruct Hmeta as [Hm|Hm].
  - pose proof (meta_range _ _ _ _ _ Hl Hm). lia.
  - cbn [meta] in Hm. destruct Hm as [Hm|Hm]; [lia|].
    pose proof (meta_range _ _ _ _ _ Hr Hm). blia.
Qed.

Lemma loadByte_ok st a :
  seg st a (a + 1) -> loadByte a st = Ok (byteAt (mem st) a) st.
Proof.
  intros Hs. unfold seg in Hs. unfold loadByte.
  rewrite load_ok by (simpl; lia). by rewrite readLE_1.
Qed.

Lemma storeByte_ok st a v :
  seg st a (a + 1) ->
  storeByte a v st = Ok tt (set_mem st (<[a := v mod 256]> (mem st))).
Proof.
  intros Hs. unfold seg in Hs. unfold storeByte.
  rewrite store_ok by (simpl; lia). reflexivity.
Qed.

Lemma copyBytes_spec : forall k st n o i,
  seg st (o + i) (o + i + Z.of_nat k) ->
  seg st (n + i) (n + i + Z.of_nat k) ->
  n + i + Z.of_nat k <= o + i \/ o + i + Z.of_nat k <= n + i ->
  exists m',
    copyBytes k n o i st = Ok tt (set_mem st m') /\
    (forall j, 0 <= j < Z.of_nat k ->
               byteAt m' (n + i + j) = byteAt (mem st) (o + i + j)) /\
    modifies (mem st) m' (fun x => n + i <= x < n + i + Z.of_nat k).
Proof.
  induction k as [|k IH]; intros st n o i Ho Hn Hdis.
  - exists (mem st). cbn [copyBytes]. unfold ret. rewrite set_mem_same.
    split; [done|]. split; [intros j Hj; lia|apply modifies_refl].
  - cbn [copyBytes]. pose proof Ho as Ho'. pose proof Hn as Hn'. unfold seg in Ho', Hn'.
    rewrite (wrap64_id (o + i)), (wrap64_id (n + i)) by lia.
    rewrite (bind_run _ _ _ _ _ (loadByte_ok st (o + i) ltac:(unfold seg; lia))).
    rewrite (bind_run _ _ _ _ _
               (storeByte_ok st (n + i) _ ltac:(unfold seg; lia))).
    set (st1 := set_mem st _).
    destruct (IH st1 n o (i + 1)) as (m' & Hrun & Hcopy & Hmod).
    { unfold seg in *. cbn [heapLo brk st1 set_mem]. lia. }
    { unfold seg in *. cbn [heapLo brk st1 set_mem]. lia. }
    { lia. }
    rewrite Hrun. cbn [set_mem st1]. exists m'. split; [done|].
    cbn [mem st1 set_mem] in Hcopy, Hmod. split.
    + intros j Hj. destruct (Z.eq_dec j 0) as [->|Hj0].
      * rewrite !Z.add_0_r. rewrite Hmod by (cbn beta; lia).
        rewrite byteAt_insert_eq, Z.mod_mod by lia. apply Z.mod_small, byteAt_range.
      * replace (n + i + j) with (n + (i + 1) + (j - 1)) by lia.
        rewrite Hcopy by lia.
        rewrite byteAt_insert_ne by lia. f_equal. lia.
    + intros x Hx. rewrite Hmod by (cbn beta in *; lia).
      apply byteAt_insert_ne. cbn beta in Hx. lia.
Qed.

Lemma region_listed a l u r :
  (a + span l + 16, u) ∈ allocatedRegions a (l ++ (u, true) :: r).
Proof.
  rewrite allocatedRegions_app. apply elem_of_app. right.
  cbn [allocatedRegions snd fst]. apply elem_of_app. left.
  by apply list_elem_of_singleton.
Qed.

Lemma tail_generic (alloc : nat -> Z -> M Z) sel st pre u post newSize fuel n st1 :
  wf st (pre ++ (u, true) :: post) -> u < newSize ->
  alloc fuel newSize st = Ok n st1 ->
  allocResult sel newSize st (pre ++ (u, true) :: post) n st1 ->
  n <> 0 ->
  let r := arenaBegin st + span pre + 16 in
  exists st',
    (do n <- alloc fuel newSize;
     do_ copyBytes (Z.to_nat u) n r 0;
     do_ freeRegion r;
     ret n) st = Ok n st' /\
    resizedByCopy st r u n st1 st'.
Proof.
  intros Hwf Hlt Halloc Hres Hn r.
  destruct Hres as [(-> & _)|(_ & preA & v & postA & _ & Hall)]; [done|].
  unfold allocated in Hall. cbn zeta in Hall.
  destruct Hall as (Hbs & Hn' & Hwf1 & Husable & Hfit & _ & Hdisj & Hst1 & Hmod).
  set (split := align8 newSize + prefixSize + suffixSize + 8 <=? v) in *.
  set (u' := if split then align8 newSize else v) in *.
  set (sl := if split then [(v - align8 newSize - 24, false)] else []) in *.
  assert (Hspan : 24 + u' + span sl = 24 + v).
  { subst u' sl. destruct split; blia. }
  remember (mem st1) as m1 eqn:Hm1. subst st1.
  cbn [arenaBegin set_mem mem] in *.
  pose proof (here_bounds _ _ _ _ Hwf) as Hb. cbn [fst] in Hb.
  pose proof (here_seg _ _ _ _ Hwf) as Hsg. cbn [fst] in Hsg.
  pose proof (here_bounds _ _ _ _ Hwf1) as HbA. cbn [fst arenaBegin arenaEnd set_mem] in HbA.
  pose proof (here_seg _ _ _ _ Hwf1) as HsgA. cbn [fst arenaBegin set_mem] in HsgA.
  specialize (Hdisj _ _ (region_listed (arenaBegin st) pre u post)). fold r in Hdisj.
  (* where the old block is in the new chain *)
  assert (Hloc : exists pre2 post2,
    preA ++ (u', true) :: sl ++ postA = pre2 ++ (u, true) :: post2 /\
    span pre2 = span pre /\
    (r + u + 8 <= arenaBegin st + span preA \/
     arenaBegin st + span preA + 24 + v <= r - 16)).
  { destruct (two_splits (u, true) (v, false) _ _ _ _ Hbs ltac:(congruence))
      as [(mid & -> & ->)|(mid & -> & ->)].
    - exists pre, (mid ++ (u', true) :: sl ++ postA).
      split; [by rewrite <- app_assoc|]. split; [done|]. left.
      subst r. rewrite span_app.
      assert (0 <= span mid).
      { destruct (wf_split _ _ _ _ Hwf) as (_ & _ & Hpost & _).
        apply chain_app in Hpost. destruct Hpost as [Hmid _].
        exact (span_nonneg _ (chain_nonneg _ _ _ _ Hmid)). }
      blia.
    - exists (preA ++ (u', true) :: sl ++ mid), post.
      split; [by repeat (rewrite <- app_assoc || cbn [app])|]. split.
      + rewrite !span_app. cbn [span]. rewrite !span_app. blia.
      + right. subst r. rewrite span_app.
        assert (0 <= span mid).
        { destruct (wf_split _ _ _ _ Hwf1) as (_ & _ & Hpost & _).
          apply chain_app in Hpost. destruct Hpost as [_ Hpost].
          apply chain_app in Hpost. destruct Hpost as [Hmid _].
          exact (span_nonneg _ (chain_nonneg _ _ _ _ Hmid)). }
        blia. }
  destruct Hloc as (pre2 & post2 & Hlist & Hspan2 & Hout).
  pose proof (wf_chain _ _ Hwf1) as Hch1A. cbn [mem arenaBegin arenaEnd set_mem] in Hch1A.
  rewrite Hlist in Hwf1.
  (* the allocation *)
  rewrite (bind_run _ _ _ _ _ Halloc).
  assert (Hu : 0 <= u) by lia.
  assert (Hu' : u <= u') by lia.
  (* the copy *)
  destruct (copyBytes_spec (Z.to_nat u) (set_mem st m1) n r 0)
    as (m2 & Hrun2 & Hcopy & Hmod2).
  { unfold seg in *. cbn [heapLo brk set_mem] in *. subst r. lia. }
  { unfold seg in *. cbn [heapLo brk set_mem] in *. lia. }
  { lia. }
  rewrite (bind_run _ _ _ _ _ Hrun2). cbn [set_mem mem] in *.
  rewrite Z2Nat.id in Hcopy, Hmod2 by lia. rewrite !Z.add_0_r in Hcopy, Hmod2.
  assert (Hwf2 : wf (set_mem st m2) (pre2 ++ (u, true) :: post2)).
  { eapply (wf_rechain (set_mem st m1)); [exact Hwf1|apply app_cons_not_nil'|].
    cbn [arenaBegin arenaEnd set_mem]. rewrite <- Hlist.
    eapply chain_modifies; [exact Hch1A|exact Hmod2|].
    intros x Hmeta Hx. cbn beta in Hx.
    eapply (payload_not_meta _ _ _ _ _ _ _ Hch1A); [|exact Hmeta].
    cbn [fst]. lia. }
  pose proof (wf_chain _ _ Hwf2) as Hch2A. cbn [mem arenaBegin arenaEnd set_mem] in Hch2A.
  rewrite <- Hlist in Hch2A.
  (* the free *)
  assert (Hr : r = arenaBegin (set_mem st m2) + span pre2 + 16).
  { cbn [arenaBegin set_mem]. subst r. lia. }
  destruct (freeRegion_spec _ _ _ _ _ Hwf2) as (m3 & Hrun3 & Hwf3 & Hmod3).
  rewrite <- Hr in Hrun3. rewrite (bind_run _ _ _ _ _ Hrun3).
  cbn [set_mem mem arenaBegin] in *.
  exists (set_mem st m3). split; [done|]. split.
  - intros i Hi. cbn [mem set_mem].
    rewrite Hmod3.
    2:{ rewrite <- Hlist. eapply (payload_not_meta _ _ _ _ _ _ _ Hch2A).
        cbn [fst]. lia. }
    rewrite Hcopy by lia.
    replace (r + 0 + i) with (r + i) by lia.
    apply (Hmod (r + i)). cbn beta. lia.
  - exists pre2, post2. split; [exact Hwf1|]. split; [|exact Hwf3].
    cbn [arenaBegin set_mem]. subst r. lia.
Qed.

Lemma oldResizeRegion_tail st pre u al post newSize fuel :
  wf st (pre ++ (u, al) :: post) -> u < newSize ->
  let r := arenaBegin st + span pre + 16 in
  oldResizeRegion fuel r newSize st
  = (do n <- firstFitAllocRegion fuel newSize;
     do_ copyBytes (Z.to_nat u) n r 0;
     do_ freeRegion r;
     ret n) st.
Proof.
  intros Hwf Hlt r. unfold oldResizeRegion.
  rewrite (bind_run _ _ _ _ _ (resizeOldSize_block _ _ _ _ _ Hwf)).
  by rewrite (oldSize_small _ _ _ _ _ Hwf) by done.
Qed.

Lemma resizeRegion_tail st pre u al c post newSize fuel :
  wf st (pre ++ (u, al) :: c :: post) -> u < newSize ->
  c.2 = true \/ c.1 + u < newSize ->
  let r := arenaBegin st + span pre + 16 in
  resizeRegion fuel r newSize st = resizeTail fuel r newSize u st.
Proof.
  intros Hwf Hlt Hc r.
  pose proof (two_blocks_fit _ _ _ _ _ Hwf) as Hfit. cbn [fst] in Hfit.
  assert (HwfN : wf st ((pre ++ [(u, al)]) ++ c :: post)) by (by rewrite <- app_snoc_cons).
  assert (HaN : arenaBegin st + span pre + 24 + u
                = arenaBegin st + span (pre ++ [(u, al)])).
  { rewrite span_app. blia. }
  unfold resizeRegion. subst r.
  rewrite (bind_run _ _ _ _ _ (resizeOldSize_block _ _ _ _ _ Hwf)).
  rewrite (oldSize_small _ _ _ _ _ Hwf) by done.
  rewrite (region_prefix _ _ _ _ _ Hwf).
  rewrite (bind_run _ _ _ _ _ (here_next _ _ _ _ Hwf)). cbn [fst].
  rewrite (bind_run _ _ _ _ _ (usable_at _ _ _ _ _ HwfN HaN)).
  rewrite (bind_run _ _ _ _ _ (here_usable _ _ _ _ Hwf)). cbn [fst].
  rewrite (bind_run _ _ _ _ _ (isFree_at _ _ _ _ _ HwfN HaN)).
  destruct (c.2) eqn:Ec; cbn [negb]; [reflexivity|].
  destruct Hc as [?|Hsum]; [done|].
  rewrite (sumSize_int st _ c.1 u Hwf) by lia.
  by rewrite Z.geb_leb, (proj2 (Z.leb_gt _ _)) by lia.
Qed.

Lemma resizeRegionExtra_tail st pre q u al c post newSize fuel :
  wf st (pre ++ q :: (u, al) :: c :: post) -> u < newSize ->
  c.2 = true \/ c.1 + u < newSize ->
  q.2 = true \/ q.1 + u < newSize ->
  q.2 = true \/ c.2 = true \/ q.1 + c.1 + u < newSize ->
  let r := arenaBegin st + span pre + extent q + 16 in
  resizeRegionExtra fuel r newSize st = resizeTail fuel r newSize u st.
Proof.
  intros Hwf Hlt Hc Hq Hqc r.
  assert (HwfC : wf st ((pre ++ [q]) ++ (u, al) :: c :: post)) by (by rewrite <- app_snoc_cons).
  assert (HaC : arenaBegin st + span pre + extent q = arenaBegin st + span (pre ++ [q])).
  { rewrite span_app. blia. }
  assert (HwfN : wf st ((pre ++ [q; (u, al)]) ++ c :: post)).
  { rewrite <- app_assoc. exact Hwf. }
  assert (HaN : arenaBegin st + span pre + extent q + 24 + u
                = arenaBegin st + span (pre ++ [q; (u, al)])).
  { rewrite span_app. blia. }
  pose proof (bounds_at _ _ _ _ _ Hwf eq_refl) as HbP.
  pose proof (bounds_at _ _ _ _ _ HwfC HaC) as HbC.
  pose proof (bounds_at _ _ _ _ _ HwfN HaN) as HbN.
  destruct (wf_split _ _ _ _ Hwf) as (_ & _ & _ & Hs & _).
  pose proof (wf_size _ _ Hwf) as Hsz. pose proof (wf_hi _ _ Hwf) as Hhi.
  unfold seg, INT_MAX in *. cbn [fst] in *.
  set (aP := arenaBegin st + span pre) in *.
  set (aC := aP + extent q) in *.
  set (aN := aC + 24 + u) in *.
  assert (HaCP : aC = aP + 24 + q.1) by (subst aC; blia).
  unfold resizeRegionExtra. subst r.
  rewrite (bind_run _ _ _ _ _ (oldSize_at _ _ _ _ _ HwfC HaC)). cbn [fst].
  rewrite wrap64_id by lia. rewrite Z.geb_leb, (proj2 (Z.leb_gt _ _)) by lia.
  rewrite (prefix_at _ _ _ _ _ HwfC HaC).
  rewrite (bind_run _ _ _ _ _ (next_at _ _ _ _ _ HwfC HaC)). cbn [fst]. fold aN.
  rewrite (bind_run _ _ _ _ _ (usable_at _ _ _ _ _ HwfN HaN)).
  rewrite (bind_run _ _ _ _ _ (usable_at _ _ _ _ _ HwfC HaC)). cbn [fst].
  rewrite (bind_run _ _ _ _ _ (isFree_at _ _ _ _ _ HwfN HaN)).
  assert (Hrest : resizeExtraPrev fuel (aC + 16) newSize u aC aN c.1 u st
                  = resizeTail fuel (aC + 16) newSize u st).
  { unfold resizeExtraPrev.
    rewrite (bind_run _ _ _ _ _ (prev_at _ _ _ _ _ aC Hwf eq_refl)). fold aP.
    rewrite (bind_run _ _ _ _ _ (usable_at _ _ _ _ _ Hwf eq_refl)).
    rewrite (bind_run _ _ _ _ _ (isFree_at _ _ _ _ _ Hwf eq_refl)).
    assert (Hboth : resizeExtraBoth fuel (aC + 16) newSize u aC aN aP c.1 u q.1 st
                    = resizeTail fuel (aC + 16) newSize u st).
    { unfold resizeExtraBoth.
      rewrite (bind_run _ _ _ _ _ (isFree_at _ _ _ _ _ Hwf eq_refl)).
      destruct (q.2) eqn:Eq; cbn [negb].
      - unfold ret at 1. unfold bind at 1. reflexivity.
      - rewrite (bind_run _ _ _ _ _ (isFree_at _ _ _ _ _ HwfN HaN)).
        destruct (c.2) eqn:Ec; cbn [negb]; [reflexivity|].
        destruct Hqc as [?|[?|Hsum]]; [done..|].
        assert (Hs3 : wrap64 (toInt (wrap64 (q.1 + c.1 + u))) = q.1 + c.1 + u).
        { rewrite (wrap64_id (q.1 + c.1 + u)) by lia. rewrite toInt_id by lia.
          apply wrap64_id. lia. }
        by rewrite Hs3, Z.geb_leb, (proj2 (Z.leb_gt _ _)) by lia. }
    destruct (q.2) eqn:Eq; cbn [negb]; [exact Hboth|].
    destruct Hq as [?|Hsum]; [done|].
    rewrite (sumSize_int st _ q.1 u Hwf) by lia.
    rewrite Z.geb_leb, (proj2 (Z.leb_gt _ _)) by lia. exact Hboth. }
  destruct (c.2) eqn:Ec; cbn [negb]; [exact Hrest|].
  destruct Hc as [?|Hsum]; [done|].
  rewrite (sumSize_int st _ c.1 u Hwf) by lia.
  rewrite Z.geb_leb, (proj2 (Z.leb_gt _ _)) by lia. exact Hrest.
Qed.

(** the fallback when the allocation returns null: nothing tests the
    result, so the copy loop stores through the null pointer; a region of
    usable space 0 has nothing to copy and is freed *)
Lemma store_null n v st : 8 <= heapLo st -> store n 0 v st = Fault 0.
Proof.
  intros H. unfold store, inHeap.
  by rewrite (proj2 (Z.leb_gt (heapLo st) 0)) by lia.
Qed.

Lemma tail_null (alloc : nat -> Z -> M Z) st pre u post newSize fuel :
  wf st (pre ++ (u, true) :: post) ->
  alloc fuel newSize st = Ok 0 st ->
  let r := arenaBegin st + span pre + 16 in
  let run := (do n <- alloc fuel newSize;
              do_ copyBytes (Z.to_nat u) n r 0;
              do_ freeRegion r;
              ret n) st in
  (0 < u -> run = Fault 0) /\
  (u = 0 -> exists st', run = Ok 0 st' /\ wf st' (freed pre u post)).
Proof.
  intros Hwf Halloc r run. subst run.
  pose proof (here_bounds _ _ _ _ Hwf) as Hb. cbn [fst] in Hb.
  pose proof (here_seg _ _ _ _ Hwf) as Hsg. cbn [fst] in Hsg.
  rewrite (bind_run _ _ _ _ _ Halloc).
  split.
  - intros Hu. destruct (Z.to_nat u) as [|k] eqn:Ek; [lia|].
    cbn [copyBytes].
    rewrite Z.add_0_r. rewrite (wrap64_id r) by (unfold seg in Hsg; subst r; lia).
    apply bind_fault.
    rewrite (bind_run _ _ _ _ _ (loadByte_ok st r ltac:(unfold seg in *; subst r; lia))).
    apply bind_fault.
    change (wrap64 (0 + 0)) with 0. unfold storeByte. apply store_null.
    unfold seg in Hsg. lia.
  - intros ->. cbn [Z.to_nat copyBytes].
    rewrite (bind_run (ret tt) _ st tt st eq_refl).
    destruct (freeRegion_spec _ _ _ _ _ Hwf) as (m' & Hrun & Hwf' & _).
    fold r in Hrun. rewrite (bind_run _ _ _ _ _ Hrun).
    by exists (set_mem st m').
Qed.

Lemma tail_outcome (alloc : nat -> Z -> M Z) sel st pre u post newSize fuel n st1 :
  wf st (pre ++ (u, true) :: post) -> u < newSize ->
  alloc fuel newSize st = Ok n st1 ->
  allocResult sel newSize st (pre ++ (u, true) :: post) n st1 ->
  tailOutcome st pre u post n st1
    ((do n <- alloc fuel newSize;
      do_ copyBytes (Z.to_nat u) n (arenaBegin st + span pre + 16) 0;
      do_ freeRegion (arenaBegin st + span pre + 16);
      ret n) st).
Proof.
  intros Hwf Hlt Halloc Hres. unfold tailOutcome. cbn zeta.
  split; [|split].
  - intros Hn. exact (tail_generic alloc sel _ _ _ _ _ _ _ _ Hwf Hlt Halloc Hres Hn).
  - intros -> Hu. destruct Hres as [(_ & -> & _)|(? & _)]; [|done].
    exact (proj1 (tail_null alloc _ _ _ _ _ _ Hwf Halloc) Hu).
  - intros -> Hu. destruct Hres as [(_ & -> & _)|(? & _)]; [|done].
    exact (proj2 (tail_null alloc _ _ _ _ _ _ Hwf Halloc) Hu).
Qed.

(** ** [arenaCheck] *)

Lemma pcheck_run p st :
  pcheck p st = Ok ((p >=? arenaBegin st) && (p <? arenaEnd st)) st.
Proof. reflexivity. Qed.

Lemma usableSum_bounds al bs :
  Forall (fun b : blk => 0 <= b.1) bs ->
  0 <= usableSum al bs /\ usableSum al bs + 24 * Z.of_nat (length bs) <= span bs.
Proof.
  induction 1 as [|b bs Hb _ IH]; cbn [usableSum span length]; [lia|].
  unfold extent. destruct (Bool.eqb b.2 al); lia.
Qed.

Lemma usableSum_total bs :
  usableSum true bs + usableSum false bs + 24 * Z.of_nat (length bs) = span bs.
Proof.
  induction bs as [|[u al] bs IH]; cbn [usableSum span length fst snd]; [lia|].
  unfold extent. cbn [fst snd]. destruct al; cbn [Bool.eqb]; lia.
Qed.

Lemma linesOf_app a l1 l2 :
  linesOf a (l1 ++ l2) = linesOf a l1 ++ linesOf (a + span l1) l2.
Proof.
  revert a. induction l1 as [|b l1 IH]; intros a; cbn [linesOf span app].
  - by replace (a + 0) with a by lia.
  - rewrite IH. by replace (a + extent b + span l1) with (a + (extent b + span l1)) by lia.
Qed.

Lemma usableSum_app al l1 l2 :
  usableSum al (l1 ++ l2) = usableSum al l1 + usableSum al l2.
Proof. induction l1 as [|b l1 IH]; cbn [usableSum app]; lia. Qed.

Lemma arenaCheck_loop_spec st : forall rest pre fuel r,
  wf st (pre ++ rest) -> rest <> [] ->
  (length rest <= fuel)%nat ->
  numBlocks r = Z.of_nat (length pre) ->
  amtAllocated r = usableSum true pre ->
  amtFree r = usableSum false pre ->
  arenaCheck_loop fuel (arenaBegin st + span pre) r st
  = Ok (mkReport (lines r ++ linesOf (arenaBegin st + span pre) rest)
                 (Z.of_nat (length (pre ++ rest)))
                 (usableSum true (pre ++ rest))
                 (usableSum false (pre ++ rest))) st.
Proof.
  induction rest as [|[u al] rest IH]; intros pre fuel r Hwf Hne Hfuel Hn Ha Hf; [done|].
  destruct fuel as [|fuel]; [cbn [length] in Hfuel; lia|].
  pose proof (here_bounds _ _ _ _ Hwf) as (Hlo & Hhi & Hu). cbn [fst snd] in Hhi, Hu.
  pose proof (here_block _ _ _ _ Hwf) as Hblk. cbn [fst snd] in Hblk.
  pose proof (here_seg _ _ _ _ Hwf) as Hseg. cbn [fst snd] in Hseg.
  pose proof (wf_lo _ _ Hwf) as Hwlo. pose proof (wf_hi _ _ Hwf) as Hwhi.
  pose proof (wf_size _ _ Hwf) as Hsz.
  pose proof (chain_nonneg _ _ _ _ (wf_chain _ _ Hwf)) as Hnn.
  pose proof (chain_end _ _ _ _ (wf_chain _ _ Hwf)) as Hend.
  pose proof (usableSum_bounds true _ Hnn) as HbA.
  pose proof (usableSum_bounds false _ Hnn) as HbF.
  assert (Hpre : 0 <= span pre).
  { apply span_nonneg. apply Forall_app in Hnn. tauto. }
  set (a := arenaBegin st + span pre) in *.
  cbn [arenaCheck_loop].
  replace (a =? 0) with false by (symmetry; apply Z.eqb_neq; lia).
  rewrite (bind_run _ _ _ _ _ (here_usable _ _ _ _ Hwf)). cbn [fst snd].
  rewrite (bind_run _ _ _ _ _ (here_allocated _ _ _ _ Hwf)). cbn [fst snd].
  rewrite (bind_run _ _ _ _ _ (pcheck_run _ _)).
  fold a.
  replace ((a >=? arenaBegin st) && (a <? arenaEnd st)) with true
    by (symmetry; apply andb_true_iff; split; [apply Z.geb_le|apply Z.ltb_lt]; lia).
  rewrite (bind_run (assert true) _ st tt st eq_refl).
  rewrite (bind_run _ _ _ _ _ (block_suffix _ _ _ _ Hblk Hseg)).
  rewrite (bind_run _ _ _ _ _ (pcheck_run _ _)).
  replace ((a + 16 + u >=? arenaBegin st) && (a + 16 + u <? arenaEnd st)) with true
    by (symmetry; apply andb_true_iff; split; [apply Z.geb_le|apply Z.ltb_lt]; lia).
  rewrite (bind_run (assert true) _ st tt st eq_refl).
  rewrite (bind_run _ _ _ _ _ (block_back _ _ _ _ Hblk Hseg)).
  rewrite Z.eqb_refl.
  rewrite (bind_run (assert true) _ st tt st eq_refl).
  rewrite (bind_run _ _ _ _ _ (here_allocated _ _ _ _ Hwf)). cbn [fst snd].
  rewrite (bind_run _ _ _ _ _ (here_usable _ _ _ _ Hwf)). cbn [fst snd].
  rewrite (bind_run _ _ _ _ _ (here_nextAddr _ _ _ _ Hwf)). cbn [fst snd].
  fold a.
  rewrite (bind_run get_arenaEnd _ st (arenaEnd st) st eq_refl).
  rewrite flagOf_zero, Bool.negb_involutive.
  rewrite span_app in Hend, HbA, HbF. cbn [span] in Hend, HbA, HbF.
  unfold extent in Hend, HbA, HbF. cbn [fst snd] in Hend, HbA, HbF.
  rewrite !length_app, !usableSum_app in *. cbn [length usableSum fst snd] in *.
  assert (Hrest : 0 <= span rest).
  { apply span_nonneg. apply Forall_app in Hnn as [_ Hnn]. by inversion Hnn. }
  assert (HnnP : Forall (fun b : blk => 0 <= b.1) pre) by (apply Forall_app in Hnn; tauto).
  assert (HnnR : Forall (fun b : blk => 0 <= b.1) rest).
  { apply Forall_app in Hnn as [_ Hnn]. by inversion Hnn. }
  pose proof (usableSum_bounds true _ HnnP) as HpA.
  pose proof (usableSum_bounds false _ HnnP) as HpF.
  pose proof (usableSum_bounds true _ HnnR) as HrA.
  pose proof (usableSum_bounds false _ HnnR) as HrF.
  assert (Hn' : toInt (numBlocks r + 1) = Z.of_nat (length pre) + 1).
  { rewrite toInt_id; unfold INT_MAX in *; lia. }
  assert (Ha' : (if al then wrap64 (amtAllocated r + u) else amtAllocated r)
                = usableSum true pre + (if Bool.eqb al true then u else 0)).
  { unfold INT_MAX in *. destruct al; cbn [Bool.eqb] in *; [rewrite wrap64_id|]; lia. }
  assert (Hf' : (if al then amtFree r else wrap64 (amtFree r + u))
                = usableSum false pre + (if Bool.eqb al false then u else 0)).
  { unfold INT_MAX in *. destruct al; cbn [Bool.eqb] in *; [|rewrite wrap64_id]; lia. }
  rewrite Hn', Ha', Hf'.
  set (r' := mkReport _ _ _ _).
  assert (Hr'n : numBlocks r' = Z.of_nat (length (pre ++ [(u, al)]))).
  { unfold r'. cbn [numBlocks]. rewrite length_app. cbn [length]. lia. }
  assert (Hr'a : amtAllocated r' = usableSum true (pre ++ [(u, al)])).
  { unfold r'. cbn [amtAllocated]. rewrite usableSum_app. cbn [usableSum fst snd]. lia. }
  assert (Hr'f : amtFree r' = usableSum false (pre ++ [(u, al)])).
  { unfold r'. cbn [amtFree]. rewrite usableSum_app. cbn [usableSum fst snd]. lia. }
  destruct rest as [|c rest].
  - cbn [span] in Hend. replace (a + 24 + u =? arenaEnd st) with true
      by (symmetry; apply Z.eqb_eq; lia).
    unfold ret. f_equal. unfold r'. cbn [linesOf length usableSum].
    f_equal; lia.
  - assert (Hwf2 : wf st ((pre ++ [(u, al)]) ++ c :: rest)) by (by rewrite <- app_assoc).
    pose proof (here_bounds _ _ _ _ Hwf2) as (_ & Hhi2 & Hu2).
    rewrite span_snoc in Hhi2. unfold extent in Hhi2. cbn [fst snd] in Hhi2.
    replace (a + 24 + u =? arenaEnd st) with false
      by (symmetry; apply Z.eqb_neq; unfold a; lia).
    rewrite (bind_run _ _ _ _ _ (pcheck_run _ _)).
    replace ((a + 24 + u >=? arenaBegin st) && (a + 24 + u <? arenaEnd st)) with true
      by (symmetry; apply andb_true_iff; split; [apply Z.geb_le|apply Z.ltb_lt]; unfold a; lia).
    rewrite (bind_run (assert true) _ st tt st eq_refl).
    replace (a + 24 + u) with (arenaBegin st + span (pre ++ [(u, al)]))
      by (rewrite span_snoc; unfold extent, a; cbn [fst snd]; lia).
    rewrite (IH (pre ++ [(u, al)]) fuel r' Hwf2 ltac:(done)
                ltac:(cbn [length] in *; lia) Hr'n Hr'a Hr'f).
    f_equal. unfold r'. cbn [lines]. f_equal.
    + rewrite <- !app_assoc. cbn [app linesOf fst snd].
      rewrite span_snoc. unfold extent, a. cbn [fst snd].
      by replace (arenaBegin st + (span pre + (24 + u)))
        with (arenaBegin st + span pre + (24 + u)) by lia.
    + rewrite <- app_assoc, length_app. reflexivity.
    + rewrite <- app_assoc, usableSum_app. reflexivity.
    + rewrite <- app_assoc, usableSum_app. reflexivity.
Qed.

Lemma arenaCheck_spec st bs fuel :
  wf st bs -> (length bs <= fuel)%nat ->
  arenaCheck fuel st
  = Ok (mkReport (linesOf (arenaBegin st) bs) (Z.of_nat (length bs))
                 (usableSum true bs) (usableSum false bs)) st.
Proof.
  intros Hwf Hfuel. unfold arenaCheck.
  rewrite (bind_run get_arenaBegin _ st (arenaBegin st) st eq_refl).
  pose proof (arenaCheck_loop_spec st bs [] fuel (mkReport [] 0 0 0) Hwf
                (wf_ne _ _ Hwf) Hfuel eq_refl eq_refl eq_refl) as H.
  cbn [span app lines] in H.
  replace (arenaBegin st + 0) with (arenaBegin st) in H by lia.
  exact H.
Qed.


(** ** Growing in place: the successor merge of the resize functions *)

Lemma wrap_align8_sz d : - 8 < d < 2 ^ 63 -> wrap64 (align8 (wrap64 d)) = align8 d.
Proof.
  intros H. pose proof (align8_bounds d) as [Hb _].
  assert (H0 : 0 <= align8 d).
  { rewrite align8_div. Z.to_euclidean_division_equations. lia. }
  destruct (Z_lt_le_dec d 0) as [Hneg|Hpos].
  - rewrite (wrap64_neg d) by lia. rewrite align8_shift.
    unfold wrap64. rewrite <- (Z.mul_1_l (2 ^ 64)) at 1.
    rewrite Z_mod_plus_full. apply Z.mod_small. lia.
  - rewrite (wrap64_id d) by lia. apply wrap64_id. lia.
Qed.

Section GrowNext.
Context (st : state) (pre : list blk) (uc : Z) (al : bool) (un : Z) (post : list blk).
Hypothesis Hwf : wf st (pre ++ (uc, al) :: (un, false) :: post).
Let aC := arenaBegin st + span pre.
Let aN := arenaBegin st + span pre + 24 + uc.

Lemma next_wfN : wf st ((pre ++ [(uc, al)]) ++ (un, false) :: post).
Proof. by rewrite <- app_snoc_cons. Qed.

Lemma next_aN : aN = arenaBegin st + span (pre ++ [(uc, al)]).
Proof. rewrite span_app. subst aN. blia. Qed.

Lemma next_bounds :
  8 <= aC /\ 0 <= uc /\ 0 <= un /\
  aN + 24 + un <= arenaEnd st /\ arenaBegin st <= aC /\
  arenaEnd st - arenaBegin st < 2 ^ 31 /\ arenaEnd st < 2 ^ 64.
Proof.
  pose proof (bounds_at _ _ _ _ _ Hwf eq_refl) as HC.
  pose proof (bounds_at _ _ _ _ _ next_wfN next_aN) as HN.
  destruct (wf_split _ _ _ _ Hwf) as (_ & _ & _ & Hs & _).
  pose proof (wf_size _ _ Hwf) as Hsz. pose proof (wf_hi _ _ Hwf) as Hhi.
  unfold seg, INT_MAX in *. cbn [fst] in *. subst aC aN. lia.
Qed.

Lemma resizeRegion_reaches_next newSize fuel :
  uc < newSize -> newSize <= uc + un ->
  resizeRegion fuel (aC + 16) newSize st = mergeNext aC aN un uc newSize st.
Proof.
  intros H1 H2. pose proof next_bounds as Hb.
  unfold resizeRegion.
  rewrite (bind_run _ _ _ _ _ (oldSize_at _ _ _ _ aC Hwf eq_refl)). cbn [fst].
  rewrite wrap64_id by lia. rewrite Z.geb_leb, (proj2 (Z.leb_gt _ _)) by lia.
  rewrite (prefix_at _ _ _ _ aC Hwf eq_refl).
  rewrite (bind_run _ _ _ _ _ (next_at _ _ _ _ aC Hwf eq_refl)). cbn [fst].
  fold aC. fold aN.
  rewrite (bind_run _ _ _ _ _ (usable_at _ _ _ _ _ next_wfN next_aN)).
  rewrite (bind_run _ _ _ _ _ (usable_at _ _ _ _ aC Hwf eq_refl)).
  rewrite (bind_run _ _ _ _ _ (isFree_at _ _ _ _ _ next_wfN next_aN)).
  cbn [fst snd negb].
  rewrite (sumSize_int st _ un uc Hwf) by lia.
  by rewrite Z.geb_leb, (proj2 (Z.leb_le _ _)) by lia.
Qed.

Lemma resizeRegionExtra_reaches_next newSize fuel :
  uc < newSize -> newSize <= uc + un ->
  resizeRegionExtra fuel (aC + 16) newSize st = mergeNext aC aN un uc newSize st.
Proof.
  intros H1 H2. pose proof next_bounds as Hb.
  unfold resizeRegionExtra.
  rewrite (bind_run _ _ _ _ _ (oldSize_at _ _ _ _ aC Hwf eq_refl)). cbn [fst].
  rewrite wrap64_id by lia. rewrite Z.geb_leb, (proj2 (Z.leb_gt _ _)) by lia.
  rewrite (prefix_at _ _ _ _ aC Hwf eq_refl).
  rewrite (bind_run _ _ _ _ _ (next_at _ _ _ _ aC Hwf eq_refl)). cbn [fst].
  fold aC. fold aN.
  rewrite (bind_run _ _ _ _ _ (usable_at _ _ _ _ _ next_wfN next_aN)).
  rewrite (bind_run _ _ _ _ _ (usable_at _ _ _ _ aC Hwf eq_refl)).
  rewrite (bind_run _ _ _ _ _ (isFree_at _ _ _ _ _ next_wfN next_aN)).
  cbn [fst snd negb].
  rewrite (sumSize_int st _ un uc Hwf) by lia.
  by rewrite Z.geb_leb, (proj2 (Z.leb_le _ _)) by lia.
Qed.

Lemma mergeNext_aSize newSize :
  uc < newSize -> newSize <= uc + un ->
  toInt (align8 (toInt (wrap64 (newSize - uc)))) = align8 (newSize - uc) /\
  8 <= align8 (newSize - uc) < 2 ^ 31 - 16.
Proof.
  intros H1 H2. pose proof next_bounds as Hb.
  pose proof (align8_bounds (newSize - uc)) as [Hk Hk8].
  split; [apply int_align8_int; lia|].
  split; [|lia]. Z.to_euclidean_division_equations. lia.
Qed.

Lemma mergeNext_split newSize :
  uc < newSize -> newSize <= uc + un ->
  let k := align8 (newSize - uc) in
  k + 8 <= un -> 24 <= k ->
  exists m',
    mergeNext aC aN un uc newSize st = Ok (aC + 16) (set_mem st m') /\
    wf (set_mem st m') (pre ++ (uc + k, true) :: (un - k, false) :: post) /\
    modifies (mem st) m' (fun x => aC <= x < aC + 12 \/ aN <= x < aN + 24 + un).
Proof.
  intros H1 H2 k Hk Hk24. pose proof next_bounds as Hb.
  destruct (mergeNext_aSize newSize H1 H2) as [Hsz Hkb]. fold k in Hsz, Hkb.
  unfold mergeNext. rewrite Hsz.
  rewrite toInt_id by lia. rewrite (wrap64_id (k + 8)) by lia.
  rewrite Z.geb_leb, (proj2 (Z.leb_le _ _)) by lia.
  rewrite (wrap64_id (aN + k)) by lia.
  replace (aN + k) with (aN + 24 + (k - 24)) by lia.
  destruct (carve_at _ _ _ _ _ (k - 24) aN next_wfN next_aN) as (m1 & Hrun1 & Hwf1 & Hmod1);
    [lia..|].
  rewrite (bind_run _ _ _ _ _ Hrun1).
  rewrite <- app_assoc in Hwf1. cbn [app] in Hwf1.
  replace (un - (k - 24) - 24) with (un - k) in Hwf1 by lia.
  destruct (set_flag_at _ _ _ _ _ false aC Hwf1 eq_refl) as (m2 & Hrun2 & Hwf2 & Hmod2).
  cbn [flagOf] in Hrun2. rewrite (bind_run _ _ _ _ _ Hrun2).
  cbn [set_mem arenaBegin mem] in *.
  destruct (coalescePrev_merge _ _ _ _ _ Hwf2 eq_refl eq_refl) as (m3 & Hrun3 & Hwf3 & Hmod3).
  cbn [set_mem arenaBegin mem fst snd] in *. unfold extent in Hrun3, Hmod3.
  cbn [fst] in Hrun3, Hmod3.
  replace (arenaBegin st + span pre + (24 + uc)) with aN in Hrun3, Hmod3 by (subst aN; lia).
  fold aC in Hrun3, Hmod3.
  rewrite (bind_run _ _ _ _ _ Hrun3).
  destruct (set_flag_at _ _ _ _ _ true aC Hwf3 eq_refl) as (m4 & Hrun4 & Hwf4 & Hmod4).
  cbn [flagOf] in Hrun4. rewrite (bind_run _ _ _ _ _ Hrun4).
  cbn [set_mem arenaBegin mem] in *.
  unfold ret. rewrite prefixToRegion_prefix by lia.
  exists m4. split; [done|]. split.
  - replace (uc + k) with (uc + 24 + (k - 24)) by lia. exact Hwf4.
  - intros x Hx.
    rewrite (Hmod4 x), (Hmod3 x), (Hmod2 x), (Hmod1 x); [done|lia..].
Qed.

Lemma mergeNext_whole newSize :
  uc < newSize -> newSize <= uc + un ->
  un < align8 (newSize - uc) + 8 ->
  exists m',
    mergeNext aC aN un uc newSize st = Ok (aC + 16) (set_mem st m') /\
    wf (set_mem st m') (pre ++ (uc + 24 + un, true) :: post) /\
    modifies (mem st) m' (fun x => aC <= x < aC + 12 \/ aN <= x < aN + 24 + un).
Proof.
  intros H1 H2 Hk. pose proof next_bounds as Hb.
  destruct (mergeNext_aSize newSize H1 H2) as [Hsz Hkb].
  unfold mergeNext. rewrite Hsz.
  rewrite toInt_id by lia. rewrite (wrap64_id (_ + 8)) by lia.
  rewrite Z.geb_leb, (proj2 (Z.leb_gt _ _)) by lia.
  unfold ret at 1. unfold bind at 1.
  destruct (set_flag_at _ _ _ _ _ false aC Hwf eq_refl) as (m2 & Hrun2 & Hwf2 & Hmod2).
  cbn [flagOf] in Hrun2. rewrite (bind_run _ _ _ _ _ Hrun2).
  cbn [set_mem arenaBegin mem] in *.
  destruct (coalescePrev_merge _ _ _ _ _ Hwf2 eq_refl eq_refl) as (m3 & Hrun3 & Hwf3 & Hmod3).
  cbn [set_mem arenaBegin mem fst snd] in *. unfold extent in Hrun3, Hmod3.
  cbn [fst] in Hrun3, Hmod3.
  replace (arenaBegin st + span pre + (24 + uc)) with aN in Hrun3, Hmod3 by (subst aN; lia).
  fold aC in Hrun3, Hmod3.
  rewrite (bind_run _ _ _ _ _ Hrun3).
  destruct (set_flag_at _ _ _ _ _ true aC Hwf3 eq_refl) as (m4 & Hrun4 & Hwf4 & Hmod4).
  cbn [flagOf] in Hrun4. rewrite (bind_run _ _ _ _ _ Hrun4).
  cbn [set_mem arenaBegin mem] in *.
  unfold ret. rewrite prefixToRegion_prefix by lia.
  exists m4. split; [done|]. split; [exact Hwf4|].
  intros x Hx.
  rewrite (Hmod4 x), (Hmod3 x), (Hmod2 x); [done|lia..].
Qed.

End GrowNext.

(** ** Growing backwards: the predecessor merge of [resizeRegionExtra] *)

Section GrowPrev.
Context (st : state) (pre : list blk) (up uc : Z) (al : bool) (c : blk) (post : list blk).
Hypothesis Hwf : wf st (pre ++ (up, false) :: (uc, al) :: c :: post).
Let aP := arenaBegin st + span pre.
Let aC := arenaBegin st + span pre + 24 + up.
Let aN := arenaBegin st + span pre + 24 + up + 24 + uc.

Lemma prev_wfC : wf st ((pre ++ [(up, false)]) ++ (uc, al) :: c :: post).
Proof. by rewrite <- app_snoc_cons. Qed.

Lemma prev_wfN : wf st ((pre ++ [(up, false); (uc, al)]) ++ c :: post).
Proof. rewrite <- app_assoc. exact Hwf. Qed.

Lemma prev_aC : aC = arenaBegin st + span (pre ++ [(up, false)]).
Proof. rewrite span_app. subst aC. blia. Qed.

Lemma prev_aN : aN = arenaBegin st + span (pre ++ [(up, false); (uc, al)]).
Proof. rewrite span_app. subst aN. blia. Qed.

Lemma prev_bounds :
  8 <= aP /\ 0 <= up /\ 0 <= uc /\ 0 <= c.1 /\
  aN + 24 + c.1 <= arenaEnd st /\ arenaBegin st <= aP /\
  arenaEnd st - arenaBegin st < 2 ^ 31 /\ arenaEnd st < 2 ^ 64.
Proof.
  pose proof (bounds_at _ _ _ _ _ Hwf eq_refl) as HP.
  pose proof (bounds_at _ _ _ _ _ prev_wfC prev_aC) as HC.
  pose proof (bounds_at _ _ _ _ _ prev_wfN prev_aN) as HN.
  destruct (wf_split _ _ _ _ Hwf) as (_ & _ & _ & Hs & _).
  pose proof (wf_size _ _ Hwf) as Hsz. pose proof (wf_hi _ _ Hwf) as Hhi.
  unfold seg, INT_MAX in *. cbn [fst] in *. subst aP aC aN. lia.
Qed.

Lemma resizeRegionExtra_reaches_prev newSize fuel :
  uc < newSize -> c.2 = true \/ c.1 + uc < newSize -> newSize <= up + uc ->
  resizeRegionExtra fuel (aC + 16) newSize st = mergePrev aC aP up uc newSize st.
Proof.
  intros H1 Hc H2. pose proof prev_bounds as Hb.
  unfold resizeRegionExtra.
  rewrite (bind_run _ _ _ _ _ (oldSize_at _ _ _ _ _ prev_wfC prev_aC)). cbn [fst].
  rewrite wrap64_id by lia. rewrite Z.geb_leb, (proj2 (Z.leb_gt _ _)) by lia.
  rewrite (prefix_at _ _ _ _ _ prev_wfC prev_aC).
  rewrite (bind_run _ _ _ _ _ (next_at _ _ _ _ _ prev_wfC prev_aC)). cbn [fst].
  fold aN.
  rewrite (bind_run _ _ _ _ _ (usable_at _ _ _ _ _ prev_wfN prev_aN)).
  rewrite (bind_run _ _ _ _ _ (usable_at _ _ _ _ _ prev_wfC prev_aC)).
  rewrite (bind_run _ _ _ _ _ (isFree_at _ _ _ _ _ prev_wfN prev_aN)).
  cbn [fst snd].
  assert (Hrest : resizeExtraPrev fuel (aC + 16) newSize uc aC aN c.1 uc st
                  = mergePrev aC aP up uc newSize st).
  { unfold resizeExtraPrev.
    rewrite (bind_run _ _ _ _ _ (prev_at _ _ _ _ _ aC Hwf ltac:(subst aC; blia))).
    fold aP.
    rewrite (bind_run _ _ _ _ _ (usable_at _ _ _ _ aP Hwf eq_refl)).
    rewrite (bind_run _ _ _ _ _ (isFree_at _ _ _ _ aP Hwf eq_refl)).
    cbn [fst snd negb].
    rewrite (sumSize_int st _ up uc Hwf) by lia.
    by rewrite Z.geb_leb, (proj2 (Z.leb_le _ _)) by lia. }
  destruct (c.2) eqn:Ec; cbn [negb]; [exact Hrest|].
  destruct Hc as [?|Hsum]; [done|].
  rewrite (sumSize_int st _ c.1 uc Hwf) by lia.
  rewrite Z.geb_leb, (proj2 (Z.leb_gt _ _)) by lia. exact Hrest.
Qed.

Lemma mergePrev_aSize newSize :
  uc < newSize -> newSize <= up + uc ->
  let k := align8 (up - align8 (newSize - uc)) in
  toInt (wrap64 (align8 (wrap64 (newSize - uc)))) = align8 (newSize - uc) /\
  wrap64 (align8 (wrap64 (up - align8 (newSize - uc)))) = k /\
  0 <= k /\ k <= up /\ (up mod 8 = 0 -> newSize <= up - k + uc).
Proof.
  intros H1 H2 k. pose proof prev_bounds as Hb.
  pose proof (align8_bounds (newSize - uc)) as [Hm Hm8].
  pose proof (align8_bounds (up - align8 (newSize - uc))) as [Hk Hk8]. fold k in Hk, Hk8.
  assert (Hmu : align8 (newSize - uc) < up + 8) by lia.
  split; [apply int_align8_sz; lia|].
  split; [apply wrap_align8_sz; lia|].
  assert (Hm0 : 8 <= align8 (newSize - uc)).
  { Z.to_euclidean_division_equations. lia. }
  split; [Z.to_euclidean_division_equations; lia|].
  split; [lia|].
  intros Hup. subst k. rewrite align8_fix; [lia|].
  rewrite Zminus_mod, Hup, Hm8. reflexivity.
Qed.

Lemma mergePrev_split newSize :
  uc < newSize -> newSize <= up + uc ->
  let k := align8 (up - align8 (newSize - uc)) in
  k + 24 <= up ->
  exists m',
    mergePrev aC aP up uc newSize st = Ok (aP + 24 + k + 16) (set_mem st m') /\
    wf (set_mem st m') (pre ++ (k, false) :: (up - k + uc, true) :: c :: post) /\
    modifies (mem st) m' (fun x => aP <= x < aC + 12 \/ aC + 16 + uc <= x < aC + 24 + uc).
Proof.
  intros H1 H2 k Hk. pose proof prev_bounds as Hb.
  destruct (mergePrev_aSize newSize H1 H2) as (Hms & Has & Hk0 & Hkup & Hnew).
  fold k in Has, Hk0, Hkup, Hnew.
  unfold mergePrev. rewrite Hms, Has, prefixSize_eq, suffixSize_eq.
  rewrite (wrap64_id (k + 8)) by lia.
  rewrite Z.geb_leb, (proj2 (Z.leb_le _ _)) by lia.
  replace (aP + 16 + 8 + k) with (aP + 24 + k) by lia.
  rewrite (wrap64_id (aP + 24 + k)) by lia.
  destruct (carve_at _ _ _ _ _ k aP Hwf eq_refl) as (m1 & Hrun1 & Hwf1 & Hmod1); [lia..|].
  rewrite (bind_run _ _ _ _ _ Hrun1).
  set (sl := up - k - 24) in *.
  assert (Hwf1C : wf (set_mem st m1)
            ((pre ++ [(k, false); (sl, false)]) ++ (uc, al) :: c :: post)).
  { rewrite <- app_assoc. exact Hwf1. }
  assert (HaC : aC = arenaBegin (set_mem st m1) + span (pre ++ [(k, false); (sl, false)])).
  { rewrite span_app. subst aC sl. cbn [arenaBegin set_mem]. blia. }
  destruct (set_flag_at _ _ _ _ _ false aC Hwf1C HaC) as (m2 & Hrun2 & Hwf2 & Hmod2).
  cbn [flagOf] in Hrun2. rewrite (bind_run _ _ _ _ _ Hrun2).
  cbn [set_mem arenaBegin mem] in *.
  assert (Hwf2' : wf (set_mem st m2)
            ((pre ++ [(k, false)]) ++ (sl, false) :: (uc, false) :: c :: post)).
  { rewrite <- app_assoc. cbn [app]. rewrite <- app_assoc in Hwf2. exact Hwf2. }
  destruct (coalescePrev_merge _ _ _ _ _ Hwf2' eq_refl eq_refl) as (m3 & Hrun3 & Hwf3 & Hmod3).
  cbn [set_mem arenaBegin mem fst snd] in *. unfold extent in Hrun3, Hmod3.
  cbn [fst] in Hrun3, Hmod3.
  assert (Hsl : arenaBegin st + span (pre ++ [(k, false)]) = aP + 24 + k).
  { rewrite span_app. subst aP. blia. }
  rewrite Hsl in Hrun3, Hmod3.
  replace (aP + 24 + k + (24 + sl)) with aC in Hrun3, Hmod3 by (subst aC aP sl; lia).
  rewrite (bind_run _ _ _ _ _ Hrun3).
  destruct (set_flag_at _ _ _ _ _ true (aP + 24 + k) Hwf3) as (m4 & Hrun4 & Hwf4 & Hmod4).
  { cbn [arenaBegin set_mem]. lia. }
  cbn [flagOf] in Hrun4. rewrite (bind_run _ _ _ _ _ Hrun4).
  cbn [set_mem arenaBegin mem] in *.
  unfold ret. rewrite prefixToRegion_prefix by lia.
  exists m4. split; [done|]. split.
  - rewrite <- app_assoc in Hwf4. cbn [app] in Hwf4.
    replace (up - k + uc) with (sl + 24 + uc) by (subst sl; lia). exact Hwf4.
  - intros x Hx.
    rewrite (Hmod4 x), (Hmod3 x), (Hmod2 x), (Hmod1 x); [done|subst aC sl; lia..].
Qed.

Lemma mergePrev_whole newSize :
  uc < newSize -> newSize <= up + uc ->
  up < align8 (up - align8 (newSize - uc)) + 8 ->
  exists m',
    mergePrev aC aP up uc newSize st = Ok (aP + 16) (set_mem st m') /\
    wf (set_mem st m') (pre ++ (up + 24 + uc, true) :: c :: post) /\
    modifies (mem st) m' (fun x => aP <= x < aC + 12 \/ aC + 16 + uc <= x < aC + 24 + uc).
Proof.
  intros H1 H2 Hk. pose proof prev_bounds as Hb.
  destruct (mergePrev_aSize newSize H1 H2) as (Hms & Has & Hk0 & Hkup & Hnew).
  unfold mergePrev. rewrite Hms, Has.
  rewrite (wrap64_id (_ + 8)) by lia.
  rewrite Z.geb_leb, (proj2 (Z.leb_gt _ _)) by lia.
  unfold ret at 1. unfold bind at 1.
  destruct (set_flag_at _ _ _ _ _ false aC prev_wfC prev_aC) as (m2 & Hrun2 & Hwf2 & Hmod2).
  cbn [flagOf] in Hrun2. rewrite (bind_run _ _ _ _ _ Hrun2).
  cbn [set_mem arenaBegin mem] in *.
  rewrite <- app_assoc in Hwf2. cbn [app] in Hwf2.
  destruct (coalescePrev_merge _ _ _ _ _ Hwf2 eq_refl eq_refl) as (m3 & Hrun3 & Hwf3 & Hmod3).
  cbn [set_mem arenaBegin mem fst snd] in *. unfold extent in Hrun3, Hmod3.
  cbn [fst] in Hrun3, Hmod3.
  replace (arenaBegin st + span pre + (24 + up)) with aC in Hrun3, Hmod3 by (subst aC; lia).
  fold aP in Hrun3, Hmod3.
  rewrite (bind_run _ _ _ _ _ Hrun3).
  destruct (set_flag_at _ _ _ _ _ true aP Hwf3 eq_refl) as (m4 & Hrun4 & Hwf4 & Hmod4).
  cbn [flagOf] in Hrun4. rewrite (bind_run _ _ _ _ _ Hrun4).
  cbn [set_mem arenaBegin mem] in *.
  unfold ret. rewrite prefixToRegion_prefix by lia.
  exists m4. split; [done|]. split; [exact Hwf4|].
  intros x Hx.
  rewrite (Hmod4 x), (Hmod3 x), (Hmod2 x); [done|subst aC; lia..].
Qed.

End GrowPrev.


(** ** What allocation and freeing keep *)

Lemma naf_last_alloc l (b b' : blk) :
  b'.2 = true -> noAdjacentFree (l ++ [b]) -> noAdjacentFree (l ++ [b']).
Proof.
  intros Hb'. induction l as [|x l IH]; [done|].
  destruct l as [|y l].
  - simpl. intros _. split; [by right|done].
  - change (noAdjacentFree ((x :: y :: l) ++ [b]))
      with ((x.2 = true \/ y.2 = true) /\ noAdjacentFree ((y :: l) ++ [b])).
    change (noAdjacentFree ((x :: y :: l) ++ [b']))
      with ((x.2 = true \/ y.2 = true) /\ noAdjacentFree ((y :: l) ++ [b'])).
    intuition.
Qed.

Lemma handedOut_noAdjacentFree pre u post (u' : Z) (rem : list blk) :
  rem = [] \/ (exists x, rem = [(x, false)]) ->
  noAdjacentFree (pre ++ (u, false) :: post) ->
  noAdjacentFree (pre ++ (u', true) :: rem ++ post).
Proof.
  intros Hrem H. apply naf_app in H. destruct H as [Hl Hr].
  apply naf_app. split.
  - eapply naf_last_alloc; [|exact Hl]. done.
  - destruct Hrem as [->|[x ->]]; cbn [app].
    + destruct post as [|c post]; [done|].
      split; [by left|]. by apply naf_tail in Hr.
    + split; [by left|]. eapply naf_flag_head; [|exact Hr]. done.
Qed.

Lemma joinPrev_alloc pre u v post :
  noAdjacentFree (pre ++ (v, false) :: post) -> joinPrev pre u = (pre, u).
Proof.
  intros H. destruct (list_snoc_cases pre) as [->|(l & q & ->)]; [apply joinPrev_nil|].
  rewrite joinPrev_snoc. rewrite <- app_assoc in H. cbn [app] in H.
  apply naf_app in H. destruct H as [_ H]. simpl in H.
  destruct H as [[Hq|Hq] _]; [by rewrite Hq|done].
Qed.

Lemma freed_handedOut pre u post s :
  noAdjacentFree (pre ++ (u, false) :: post) ->
  freed pre (if align8 s + prefixSize + suffixSize + 8 <=? u then align8 s else u)
        ((if align8 s + prefixSize + suffixSize + 8 <=? u
          then [(u - align8 s - 24, false)] else []) ++ post)
  = pre ++ (u, false) :: post.
Proof.
  intros H. unfold freed. rewrite (joinPrev_alloc _ _ _ _ H). cbn [fst snd].
  destruct (_ <=? u); cbn [app joinNext fst snd].
  - do 2 f_equal. f_equal. lia.
  - apply naf_app in H. destruct H as [_ H].
    destruct post as [|[v [|]] post]; cbn [joinNext fst snd]; [done..|].
    simpl in H. destruct H as [[?|?] _]; done.
Qed.

Lemma freed_sizesAligned pre u al post :
  sizesAligned (pre ++ (u, al) :: post) -> sizesAligned (freed pre u post).
Proof.
  unfold sizesAligned, freed. intros H.
  apply Forall_app in H. destruct H as [Hpre H].
  apply Forall_cons in H. destruct H as [Hu Hpost]. cbn [fst] in Hu.
  assert (H24 : forall x y, x mod 8 = 0 -> y mod 8 = 0 -> (x + 24 + y) mod 8 = 0).
  { intros x y Hx Hy. Z.to_euclidean_division_equations. lia. }
  assert (Hj : Forall (fun b : blk => b.1 mod 8 = 0) (joinPrev pre u).1 /\
               (joinPrev pre u).2 mod 8 = 0).
  { destruct (list_snoc_cases pre) as [->|(l & q & ->)]; [by rewrite joinPrev_nil|].
    rewrite joinPrev_snoc. apply Forall_app in Hpre. destruct Hpre as [Hl Hq].
    apply Forall_cons in Hq. destruct Hq as [Hq _].
    destruct (q.2); cbn [fst snd].
    - split; [|done]. apply Forall_app. split; [done|]. by constructor.
    - split; [done|]. by apply H24. }
  destruct Hj as [Hj1 Hj2].
  apply Forall_app. split; [done|].
  destruct post as [|[v [|]] post]; cbn [joinNext fst snd].
  - by constructor.
  - constructor; [done|]. done.
  - apply Forall_cons in Hpost. destruct Hpost as [Hv Hpost]. cbn [fst] in Hv.
    constructor; [|done]. cbn [fst]. by apply H24.
Qed.

Lemma freeRegion_payloads st pre u al post :
  wf st (pre ++ (u, al) :: post) ->
  exists st',
    freeRegion (arenaBegin st + span pre + 16) st = Ok tt st' /\
    wf st' (freed pre u post) /\
    forall l b r x,
      pre ++ (u, al) :: post = l ++ b :: r ->
      arenaBegin st + span l + 16 <= x < arenaBegin st + span l + 16 + b.1 ->
      byteAt (mem st') x = byteAt (mem st) x.
Proof.
  intros Hwf. destruct (freeRegion_spec _ _ _ _ _ Hwf) as (m' & Hrun & Hwf' & Hmod).
  exists (set_mem st m'). split; [done|]. split; [done|].
  intros l b r x Hl Hx. cbn [mem set_mem]. apply Hmod.
  pose proof (wf_chain _ _ Hwf) as Hch. rewrite Hl in Hch |- *.
  eapply payload_not_meta; [exact Hch|exact Hx].
Qed.


(** ** A client's calls, one after the other *)

Lemma allocatedRegions_elem a bs r n :
  (r, n) ∈ allocatedRegions a bs <->
  exists pre post, bs = pre ++ (n, true) :: post /\ r = a + span pre + 16.
Proof.
  revert a. induction bs as [|[u al] bs IH]; intros a; cbn [allocatedRegions fst snd].
  - split; [by intros ?%elem_of_nil|]. intros (pre & post & H & _). by destruct pre.
  - rewrite elem_of_app, IH. split.
    + intros [H|(pre & post & -> & ->)].
      * destruct al; [|by apply elem_of_nil in H].
        apply list_elem_of_singleton in H. injection H as -> ->.
        exists [], bs. split; [done|]. cbn [span]. lia.
      * exists ((u, al) :: pre), post. split; [done|]. cbn [span]. lia.
    + intros (pre & post & H & ->). destruct pre as [|b pre]; cbn [app] in H.
      * injection H as -> -> ->. left. apply list_elem_of_singleton.
        cbn [span]. f_equal. lia.
      * injection H as -> ->. right. exists pre, post. split; [done|].
        cbn [span]. lia.
Qed.

Lemma split_by_span : forall (l1 l2 : list blk) x y r1 r2,
  Forall (fun b : blk => 0 <= b.1) (l1 ++ x :: r1) ->
  l1 ++ x :: r1 = l2 ++ y :: r2 -> span l1 = span l2 ->
  l1 = l2 /\ x = y /\ r1 = r2.
Proof.
  induction l1 as [|a l1 IH]; intros l2 x y r1 r2 Hnn Heq Hsp.
  - destruct l2 as [|b l2]; cbn [app] in Heq.
    + by injection Heq as -> ->.
    + exfalso. injection Heq as -> ->.
      apply Forall_cons in Hnn. destruct Hnn as [Hb Hr].
      apply Forall_app in Hr. destruct Hr as [Hl2 _].
      pose proof (span_nonneg _ Hl2). cbn [span] in Hsp. unfold extent in Hsp. lia.
  - destruct l2 as [|b l2]; cbn [app] in Heq.
    + exfalso. injection Heq as -> <-. cbn [app] in Hnn.
      apply Forall_cons in Hnn. destruct Hnn as [Hb Hr].
      apply Forall_app in Hr. destruct Hr as [Hl1 _].
      pose proof (span_nonneg _ Hl1). cbn [span] in Hsp. unfold extent in Hsp. lia.
    + injection Heq as -> Heq. cbn [app] in Hnn.
      apply Forall_cons in Hnn. destruct Hnn as [_ Hnn].
      cbn [span] in Hsp.
      destruct (IH l2 x y r1 r2 Hnn Heq ltac:(lia)) as (-> & -> & ->). done.
Qed.

Lemma allocatedRegions_freed a pre u post :
  allocatedRegions a (freed pre u post)
  = allocatedRegions a pre ++ allocatedRegions (a + span pre + 24 + u) post.
Proof.
  unfold freed. rewrite allocatedRegions_app. cbn [allocatedRegions fst snd app].
  assert (Hj : allocatedRegions a (joinPrev pre u).1 = allocatedRegions a pre /\
               span (joinPrev pre u).1 + (joinPrev pre u).2 = span pre + u).
  { destruct (list_snoc_cases pre) as [->|(l & q & ->)]; [by rewrite joinPrev_nil|].
    rewrite joinPrev_snoc. destruct q as [q [|]]; cbn [fst snd]; [done|].
    rewrite allocatedRegions_app, span_app. cbn [allocatedRegions span fst snd app].
    rewrite app_nil_r. split; [done|]. unfold extent. cbn [fst]. lia. }
  destruct Hj as [-> Hsp]. f_equal.
  destruct post as [|[v [|]] post]; cbn [joinNext fst snd allocatedRegions app].
  - done.
  - unfold extent. cbn [fst]. do 2 f_equal; lia.
  - unfold extent. cbn [fst]. f_equal. lia.
Qed.

Lemma wf_length st bs :
  wf st bs -> 24 * Z.of_nat (length bs) <= arenaEnd st - arenaBegin st.
Proof.
  intros Hwf. pose proof (wf_chain _ _ Hwf) as Hch.
  pose proof (chain_end _ _ _ _ Hch) as He.
  pose proof (usableSum_bounds true _ (chain_nonneg _ _ _ _ Hch)). lia.
Qed.

Lemma clientInv_fuel st held bs fuel :
  clientInv st held bs -> enoughFuel fuel -> (length bs < fuel)%nat.
Proof.
  intros (Hwf & Hsz & _) Hfuel. pose proof (wf_length _ _ Hwf) as H.
  rewrite Hsz in H. unfold enoughFuel, DEFAULT_BRKSIZE in *.
  change (1048576 / 24) with 43690 in Hfuel. lia.
Qed.

Lemma delete_held (held : list Z) i r :
  NoDup held -> held !! i = Some r ->
  NoDup (delete i held) /\ forall x, x ∈ delete i held <-> x ∈ held /\ x <> r.
Proof.
  intros Hnd Hi. pose proof (delete_Permutation _ _ _ Hi) as Hp.
  assert (Hnd' : NoDup (r :: delete i held)) by (by rewrite <- Hp).
  apply NoDup_cons in Hnd'. destruct Hnd' as [Hr Hnd'].
  split; [done|]. intros x.
  assert (Hx : x ∈ held <-> x ∈ r :: delete i held) by (by rewrite <- Hp).
  rewrite Hx, elem_of_cons. split.
  - intros H. split; [by right|]. by intros ->.
  - intros [[?|?] ?]; done.
Qed.

Lemma clientInv_alloc sel s st bs r st' held :
  allocResult sel s st bs r st' ->
  clientInv st held bs ->
  exists bs', clientInv st' (keep r held) bs'.
Proof.
  intros Hres (Hwf & Hsz & Hnaf & Hal & Hnd & Hheld).
  destruct Hres as [(-> & -> & _)|(Hr & pre & u & post & _ & Hall)].
  - exists bs. change (keep 0 held) with held.
    exact (conj Hwf (conj Hsz (conj Hnaf (conj Hal (conj Hnd Hheld))))).
  - unfold allocated in Hall. cbn zeta in Hall.
    destruct Hall as (Hbs & Hreg & Hwf' & _ & _ & Halign & _ & Hst' & _).
    set (split := align8 s + prefixSize + suffixSize + 8 <=? u) in *.
    set (u' := if split then align8 s else u) in *.
    set (rem := if split then [(u - align8 s - 24, false)] else []) in *.
    assert (Hbase : arenaBegin st' = arenaBegin st /\ arenaEnd st' = arenaEnd st).
    { rewrite Hst'. done. }
    destruct Hbase as [Hb He].
    assert (Hrem : rem = [] \/ exists x, rem = [(x, false)]).
    { subst rem. destruct split; [right; by eexists|by left]. }
    assert (Hnn : Forall (fun b : blk => 0 <= b.1) bs)
      by exact (chain_nonneg _ _ _ _ (wf_chain _ _ Hwf)).
    assert (HAR : forall x, x ∈ allocatedRegions (arenaBegin st) (pre ++ (u', true) :: rem ++ post)
                  <-> x = (r, u') \/ x ∈ allocatedRegions (arenaBegin st) bs).
    { intros x. rewrite Hbs, !allocatedRegions_app.
      cbn [allocatedRegions fst snd app]. rewrite allocatedRegions_app.
      assert (Hrest : allocatedRegions (arenaBegin st + span pre + extent (u', true)) rem
                      ++ allocatedRegions (arenaBegin st + span pre + extent (u', true) + span rem) post
                      = allocatedRegions (arenaBegin st + span pre + extent (u, false)) post).
      { subst rem u'. destruct split; cbn [allocatedRegions span fst snd app];
          unfold extent; cbn [fst]; f_equal; lia. }
      rewrite Hrest, !elem_of_app, elem_of_cons, <- Hreg. tauto. }
    unfold keep. rewrite (proj2 (Z.eqb_neq r 0)) by done.
    exists (pre ++ (u', true) :: rem ++ post).
    split; [exact Hwf'|]. split; [lia|].
    split; [apply (handedOut_noAdjacentFree pre u post u' rem Hrem); rewrite Hbs in Hnaf; exact Hnaf|].
    split; [by apply Halign|].
    split.
    + apply NoDup_cons. split; [|done]. intros Hin.
      apply Hheld in Hin. destruct Hin as [n Hin].
      apply allocatedRegions_elem in Hin. destruct Hin as (pre2 & post2 & Hbs2 & Hr2).
      rewrite Hbs in Hbs2, Hnn.
      destruct (split_by_span _ _ _ _ _ _ Hnn Hbs2 ltac:(lia)) as (_ & ? & _). done.
    + intros x. rewrite Hb, elem_of_cons, Hheld. split.
      * intros [->|[n Hn]]; [exists u'|exists n]; apply HAR; [by left|by right].
      * intros [n Hn]. apply HAR in Hn. destruct Hn as [Hn|Hn]; [left; congruence|right; by exists n].
Qed.

Lemma clientInv_free st held bs i r :
  clientInv st held bs -> held !! i = Some r ->
  exists st' bs', freeRegion r st = Ok tt st' /\ clientInv st' (delete i held) bs'.
Proof.
  intros (Hwf & Hsz & Hnaf & Hal & Hnd & Hheld) Hi.
  assert (Hin : r ∈ held) by (by eapply list_elem_of_lookup_2).
  apply Hheld in Hin. destruct Hin as [u Hin].
  apply allocatedRegions_elem in Hin. destruct Hin as (pre & post & -> & ->).
  destruct (freeRegion_spec _ _ _ _ _ Hwf) as (m' & Hrun & Hwf' & _).
  destruct (delete_held _ _ _ Hnd Hi) as [Hnd' Hdel].
  assert (Hnn : Forall (fun b : blk => 0 <= b.1) (pre ++ (u, true) :: post))
    by exact (chain_nonneg _ _ _ _ (wf_chain _ _ Hwf)).
  apply Forall_app in Hnn. destruct Hnn as [Hnp Hnq].
  apply Forall_cons in Hnq. destruct Hnq as [Hu Hnq]. cbn [fst] in Hu.
  exists (set_mem st m'), (freed pre u post). split; [done|].
  split; [done|]. split; [done|].
  split; [by eapply freed_noAdjacentFree|].
  split; [by eapply freed_sizesAligned|].
  split; [done|].
  intros x. rewrite Hdel, Hheld. cbn [arenaBegin set_mem].
  rewrite allocatedRegions_freed.
  setoid_rewrite allocatedRegions_app. cbn [allocatedRegions fst snd app].
  unfold extent. cbn [fst].
  replace (arenaBegin st + span pre + (24 + u)) with (arenaBegin st + span pre + 24 + u) by lia.
  split.
  - intros [[n Hn] Hx]. exists n.
    rewrite elem_of_app, elem_of_cons in Hn. rewrite elem_of_app.
    destruct Hn as [Hn|[Hn|Hn]]; [by left| |by right].
    injection Hn as -> ->. done.
  - intros [n Hn]. rewrite elem_of_app in Hn. split.
    + exists n. rewrite elem_of_app, elem_of_cons. tauto.
    + destruct Hn as [Hn|Hn].
      * pose proof (allocatedRegions_range _ _ _ _ Hnp Hn). lia.
      * pose proof (allocatedRegions_range _ _ _ _ Hnq Hn). lia.
Qed.

Lemma clientInv_fresh st st0 :
  arenaReady st st0 [(DEFAULT_BRKSIZE - 24, false)] -> clientInv st0 [] [(DEFAULT_BRKSIZE - 24, false)].
Proof.
  intros [_ Hwf]. split; [done|].
  pose proof (chain_end _ _ _ _ (wf_chain _ _ Hwf)) as He.
  cbn [span] in He. unfold extent in He. cbn [fst] in He.
  split; [lia|]. split; [done|].
  split; [by repeat constructor|].
  split; [constructor|].
  intros r. cbn [allocatedRegions snd app]. split.
  - by intros ?%elem_of_nil.
  - by intros [u ?%elem_of_nil].
Qed.

Lemma alloc_call (alloc : nat -> Z -> M Z) sel fuel s st held :
  (forall st st0 bs, arenaReady st st0 bs -> 0 <= s -> (length bs < fuel)%nat ->
     exists r st', alloc fuel s st = Ok r st' /\ allocResult sel s st0 bs r st') ->
  enoughFuel fuel -> 0 <= s ->
  (fresh st /\ held = []) \/ (exists bs, clientInv st held bs) ->
  exists r st' bs', alloc fuel s st = Ok r st' /\ clientInv st' (keep r held) bs'.
Proof.
  intros Hspec Hfuel Hs [[Hfresh ->]|[bs Hinv]].
  - destruct (arenaReady_fresh _ Hfresh) as [st0 Hready].
    pose proof (clientInv_fresh _ _ Hready) as Hinv.
    destruct (Hspec _ _ _ Hready Hs (clientInv_fuel _ _ _ _ Hinv Hfuel))
      as (r & st' & Hrun & Hres).
    destruct (clientInv_alloc _ _ _ _ _ _ _ Hres Hinv) as [bs' Hinv'].
    by exists r, st', bs'.
  - pose proof Hinv as (Hwf & _).
    destruct (Hspec _ _ _ (arenaReady_wf _ _ Hwf) Hs (clientInv_fuel _ _ _ _ Hinv Hfuel))
      as (r & st' & Hrun & Hres).
    destruct (clientInv_alloc _ _ _ _ _ _ _ Hres Hinv) as [bs' Hinv'].
    by exists r, st', bs'.
Qed.

Lemma runCalls_inv fuel : enoughFuel fuel -> forall cs st held,
  Forall validCall cs ->
  (fresh st /\ held = []) \/ (exists bs, clientInv st held bs) ->
  exists held' st',
    runCalls fuel cs held st = Ok held' st' /\
    ((fresh st' /\ held' = [] /\ st' = st) \/ exists bs', clientInv st' held' bs').
Proof.
  intros Hfuel. induction cs as [|c cs IH]; intros st held Hvalid Hinv.
  - exists held, st. split; [done|].
    destruct Hinv as [[? ?]|?]; [by left|by right].
  - apply Forall_cons in Hvalid. destruct Hvalid as [Hc Hvalid].
    destruct c as [s|s|i]; cbn [runCalls validCall] in *.
    + destruct (alloc_call firstFitAllocRegion _ fuel s st held
                  (fun st1 st0 bs => firstFitAllocRegion_spec st1 st0 bs s fuel)
                  Hfuel (proj1 Hc) Hinv) as (r & st1 & bs1 & Hrun & Hinv1).
      rewrite (bind_run _ _ _ _ _ Hrun).
      destruct (IH st1 (keep r held) Hvalid (or_intror (ex_intro _ bs1 Hinv1)))
        as (held' & st' & Hrun' & Hfin).
      exists held', st'. split; [done|]. right.
      destruct Hfin as [(Hf & _ & ->)|?]; [|done].
      destruct Hinv1 as (Hwf1 & _). destruct Hf as [Hz _].
      pose proof (wf_lo _ _ Hwf1). lia.
    + destruct (alloc_call bestFitAllocRegion _ fuel s st held
                  (fun st1 st0 bs => bestFitAllocRegion_spec st1 st0 bs s fuel)
                  Hfuel (proj1 Hc) Hinv) as (r & st1 & bs1 & Hrun & Hinv1).
      rewrite (bind_run _ _ _ _ _ Hrun).
      destruct (IH st1 (keep r held) Hvalid (or_intror (ex_intro _ bs1 Hinv1)))
        as (held' & st' & Hrun' & Hfin).
      exists held', st'. split; [done|]. right.
      destruct Hfin as [(Hf & _ & ->)|?]; [|done].
      destruct Hinv1 as (Hwf1 & _). destruct Hf as [Hz _].
      pose proof (wf_lo _ _ Hwf1). lia.
    + destruct (held !! i) as [r|] eqn:Hi.
      * destruct Hinv as [[_ ->]|[bs Hinv]]; [by rewrite lookup_nil in Hi|].
        destruct (clientInv_free _ _ _ _ _ Hinv Hi) as (st1 & bs1 & Hrun & Hinv1).
        rewrite (bind_run _ _ _ _ _ Hrun).
        destruct (IH st1 (delete i held) Hvalid (or_intror (ex_intro _ bs1 Hinv1)))
          as (held' & st' & Hrun' & Hfin).
        exists held', st'. split; [done|]. right.
        destruct Hfin as [(Hf & _ & ->)|?]; [|done].
        destruct Hinv1 as (Hwf1 & _). destruct Hf as [Hz _].
        pose proof (wf_lo _ _ Hwf1). lia.
      * exact (IH st held Hvalid Hinv).
Qed.


(** * The claims *)








(** C5. The fast path of the resize functions.  When the usable space [u]
    of the region's block already covers [newSize], each of
    [oldResizeRegion], [resizeRegion] and [resizeRegionExtra] returns the
    region it was given and leaves the whole state, hence the arena and the
    payload bytes, as it was. *)
Theorem resize_enough_is_noop st r u newSize fuel :
  r <> 0 ->
  computeUsableSpace (regionToPrefix r) st = Ok u st ->
  0 <= u < 2 ^ 31 ->
  newSize <= u ->
  oldResizeRegion fuel r newSize st = Ok r st /\
  resizeRegion fuel r newSize st = Ok r st /\
  resizeRegionExtra fuel r newSize st = Ok r st.
Proof.
  intros Hr Hu Hbd Hle.
  destruct (resize_prelude_enough st r u newSize Hr Hu Hbd Hle) as [Hold Hge].
  unfold oldResizeRegion, resizeRegion, resizeRegionExtra.
  rewrite !(bind_run _ _ _ _ _ Hold), Hge. done.
Qed.

Lemma resize_enough_is_noop_witness :
  oldResizeRegion 6 60640 100 testArena = Ok 60640 testArena /\
  resizeRegion 6 60640 100 testArena = Ok 60640 testArena /\
  resizeRegionExtra 6 60640 100 testArena = Ok 60640 testArena.
Proof.
  apply (resize_enough_is_noop testArena 60640 256 100 6).
  - lia.
  - vm_compute. reflexivity.
  - lia.
  - lia.
Defined.

(** C10, as stated, fails for the first block: in a fresh arena after one
    allocation of 8 bytes the block of region 4112 is the first block and
    its usable space 8 is below 100, yet [resizeRegionExtra] to 100 merges
    it with its free successor and returns before it ever looks at the
    predecessor. *)
Lemma resizeRegionExtra_first_block_returns :
  wf smallArena [(8, true); (1048520, false)] /\
  8 < 100 /\
  resizeRegionExtra 3 (arenaBegin smallArena + 16) 100 smallArena <> Fault 0 /\
  answer (resizeRegionExtra 3 (arenaBegin smallArena + 16) 100) smallArena = Some 4112.
Proof.
  split; [exact smallArena_wf|]. split; [lia|]. split.
  - vm_compute. discriminate.
  - vm_compute. reflexivity.
Qed.

(** C10, amended.  [resizeRegion] and [resizeRegionExtra] call
    [computeUsableSpace] on the successor before they test it, and
    [resizeRegionExtra] does the same with the predecessor.  So growing the
    last block of the arena makes both read through the null pointer (the
    access to address 0 faults), and so does [resizeRegionExtra] on the
    first block whenever the merge with the successor has not returned
    before, that is when the successor is allocated or too small. *)
Theorem resize_reads_null_neighbour st newSize fuel :
  (forall pre u al,
      wf st (pre ++ [(u, al)]) -> u < newSize ->
      resizeRegion fuel (arenaBegin st + span pre + 16) newSize st = Fault 0 /\
      resizeRegionExtra fuel (arenaBegin st + span pre + 16) newSize st = Fault 0) /\
  (forall u al c post,
      wf st ((u, al) :: c :: post) -> u < newSize ->
      c.2 = true \/ c.1 + u < newSize ->
      resizeRegionExtra fuel (arenaBegin st + 16) newSize st = Fault 0).
Proof.
  split.
  - intros pre u al Hwf Hlt. split.
    + by eapply resizeRegion_last.
    + by eapply resizeRegionExtra_last.
  - intros u al c post Hwf Hlt Hc. by eapply resizeRegionExtra_first.
Qed.

Lemma resize_reads_null_neighbour_witness :
  resizeRegion 6 (arenaBegin testArena
                  + span [(56504, false); (256, true); (25400, false); (256, true)] + 16)
               1000000 testArena = Fault 0 /\
  resizeRegionExtra 6 (arenaBegin testArena
                  + span [(56504, false); (256, true); (25400, false); (256, true)] + 16)
               1000000 testArena = Fault 0.
Proof.
  apply (proj1 (resize_reads_null_neighbour testArena 1000000 6)
           [(56504, false); (256, true); (25400, false); (256, true)] 966040 false).
  - exact testArena_wf.
  - lia.
Defined.

(** C4.  The arena invariant that [arenaCheck] asserts does not survive
    [resizeRegion]: on a fresh arena, after [firstFitAllocRegion(8)] the
    check passes and reports two blocks; [resizeRegion] of that region to 9
    bytes returns, but it re-stamps the successor's head with a total size
    of 8 bytes, less than [prefixSize + suffixSize], so the flag of that
    head lands on the suffix pointer of the free remainder, 40 bytes into
    the arena; the low half of that pointer then reads 0, the pointer lies
    outside the arena, and [arenaCheck] fails its assertion.  Shown for a
    heap that begins at 4096 and for one that begins at 0x555555756000. *)
Theorem resizeRegion_breaks_arenaCheck :
  answer (do r <- firstFitAllocRegion 3 8; do l <- layout 3; ret (r, l)) (boot 4096)
  = Some (4112, [(4096, 8, 1); (4128, 1048520, 0)]) /\
  answer (do r <- firstFitAllocRegion 3 8;
          do r' <- resizeRegion 3 r 9;
          do u <- computeUsableSpace 4096;
          do s <- get_suffix 4136;
          ret (r', u, s)) (boot 4096)
  = Some (4112, 16, 0) /\
  (do r <- firstFitAllocRegion 3 8;
   do_ resizeRegion 3 r 9;
   arenaCheck 3) (boot 4096) = AssertFail /\
  answer (do r <- firstFitAllocRegion 3 8;
          do r' <- resizeRegion 3 r 9;
          do s <- get_suffix (93824994336768 + 40);
          ret (r', s)) (boot 93824994336768)
  = Some (93824994336768 + 16, 93823560581120) /\
  (do r <- firstFitAllocRegion 3 8;
   do_ resizeRegion 3 r 9;
   arenaCheck 3) (boot 93824994336768) = AssertFail.
Proof. repeat split; vm_compute; reflexivity. Qed.

(** C9, as stated, fails: [oldResizeRegion] of the null region to 8 bytes
    on a process whose arena does not exist yet creates the arena and
    returns a fresh region. *)
Lemma oldResizeRegion_null_allocates :
  ~ (forall fuel newSize st,
        exists r, oldResizeRegion fuel 0 newSize st = Ok r st /\ r = 0).
Proof.
  intros H. destruct (H 3%nat 8 (boot 4096)) as (r & Hrun & ->).
  vm_compute in Hrun. discriminate Hrun.
Qed.

(** C9, amended.  A null region is treated as a region of size 0: for
    [newSize = 0] each resize function returns null and leaves the state as
    it was, and for a positive size [oldResizeRegion] does exactly what
    [firstFitAllocRegion newSize] does. *)
Theorem resize_null_region st fuel :
  oldResizeRegion fuel 0 0 st = Ok 0 st /\
  resizeRegion fuel 0 0 st = Ok 0 st /\
  resizeRegionExtra fuel 0 0 st = Ok 0 st /\
  (forall newSize,
     oldResizeRegion fuel 0 newSize st
     = if newSize <=? 0 then Ok 0 st else firstFitAllocRegion fuel newSize st).
Proof.
  do 3 (split; [reflexivity|]).
  intros newSize. unfold oldResizeRegion.
  change (resizeOldSize 0) with (@ret Z 0).
  unfold bind at 1. unfold ret at 1. change (wrap64 0) with 0.
  rewrite Z.geb_leb. destruct (newSize <=? 0); [reflexivity|].
  unfold bind. destruct (firstFitAllocRegion fuel newSize st); reflexivity.
Qed.

(** C6.  The scenario of the test program, at any place of any well-formed
    arena: an allocated block of usable space 256 between a free
    predecessor of 56504 and a free successor of 25400.  [resizeRegionExtra]
    to 58000 returns; the predecessor is cut down to 24184, and its tail,
    the block and the whole successor become one allocated block of usable
    space exactly 58000.  The region returned lies below the old one and
    its 58000 bytes cover the 256 bytes of the old region: the block was
    grown where it stood (no block was allocated elsewhere and none was
    freed). *)
Theorem resizeRegionExtra_full_merge st pre post fuel :
  wf st (pre ++ (56504, false) :: (256, true) :: (25400, false) :: post) ->
  let r := arenaBegin st + span pre + 24 + 56504 + 16 in
  exists r' st',
    resizeRegionExtra fuel r 58000 st = Ok r' st' /\
    wf st' (pre ++ (24184, false) :: (58000, true) :: post) /\
    (exists u', computeUsableSpace (regionToPrefix r') st' = Ok u' st' /\ 58000 <= u') /\
    r' <= r /\ r + 256 <= r' + 58000.
Proof.
  intros Hwf r.
  pose proof (extra_reaches_both _ _ _ _ _ _ _ Hwf 58000 fuel) as Hpath.
  rewrite (both_chooses _ _ _ _ _ _ _ Hwf) in Hpath by lia.
  change (56504 >? 25400) with true in Hpath. cbn iota in Hpath.
  destruct (mergeBothCutPrev_split _ _ _ _ _ _ _ Hwf 58000) as (m' & Hrun & Hwf'); [lia..| |].
  { vm_compute. discriminate. }
  change (keptOfPrev 56504 256 25400 58000) with 24184 in Hrun, Hwf'.
  replace (56504 - 24184 + 256 + 25400 + 24) with 58000 in Hwf' by lia.
  exists (arenaBegin st + span pre + 24 + 24184 + 16), (set_mem st m').
  split; [|split; [exact Hwf'|]].
  - subst r. rewrite Hpath by lia. exact Hrun.
  - assert (Hwf'' : wf (set_mem st m') ((pre ++ [(24184, false)]) ++ (58000, true) :: post)).
    { by rewrite <- app_assoc. }
    assert (Ha : arenaBegin st + span pre + 24 + 24184
                 = arenaBegin (set_mem st m') + span (pre ++ [(24184, false)])).
    { rewrite span_app. cbn [arenaBegin set_mem]. blia. }
    split; [|subst r; lia].
    exists 58000. split; [|lia].
    rewrite (prefix_at _ _ _ _ _ Hwf'' Ha).
    exact (usable_at _ _ _ _ _ Hwf'' Ha).
Qed.

Lemma resizeRegionExtra_full_merge_witness :
  exists r' st',
    resizeRegionExtra 6 (arenaBegin testArena + span [] + 24 + 56504 + 16) 58000 testArena
    = Ok r' st' /\
    wf st' ([] ++ (24184, false) :: (58000, true) :: [(256, true); (966040, false)]) /\
    (exists u', computeUsableSpace (regionToPrefix r') st' = Ok u' st' /\ 58000 <= u') /\
    r' <= arenaBegin testArena + span [] + 24 + 56504 + 16 /\
    arenaBegin testArena + span [] + 24 + 56504 + 16 + 256 <= r' + 58000.
Proof.
  apply (resizeRegionExtra_full_merge testArena [] [(256, true); (966040, false)] 6).
  exact testArena_wf.
Defined.




(** C8, amended.  When no in-place strategy applies, the three resize
    functions allocate a fresh region, copy, free and return the new region
    -- [resizeRegion] and [resizeRegionExtra] allocate it with
    [bestFitAllocRegion], but [oldResizeRegion] with [firstFitAllocRegion].
    For a region [r] of usable space [u < newSize] in a well-formed arena:
    the allocation returns.  When it returns a non-null region [n], the
    resize function returns that same [n], the first [u] bytes of [n] (the
    lesser of the old and the new usable size) are the bytes [r] held, and
    the block of [r] has been freed and coalesced.  When it returns null
    (no free block can hold [newSize]; the arena never grows) the result is
    not tested: for [0 < u] the copy loop stores through the null pointer
    and the call ends in a fault, for [u = 0] the block of [r] is freed and
    null is returned ([tailOutcome]).  The fallback is what
    [oldResizeRegion] always does; [resizeRegion] does it when the successor
    exists and is allocated or too small; [resizeRegionExtra] when both
    neighbours exist and no merge with the successor, the predecessor or
    both can supply [newSize]. *)
Theorem resize_fallback_tail st pre u post newSize fuel :
  wf st (pre ++ (u, true) :: post) ->
  u < newSize ->
  (length (pre ++ (u, true) :: post) < fuel)%nat ->
  let bs := pre ++ (u, true) :: post in
  let r := arenaBegin st + span pre + 16 in
  (exists n st1,
      firstFitAllocRegion fuel newSize st = Ok n st1 /\
      allocResult (fun l v _ => isFirstFit newSize l v) newSize st bs n st1 /\
      tailOutcome st pre u post n st1 (oldResizeRegion fuel r newSize st)) /\
  (forall c post',
      post = c :: post' ->
      c.2 = true \/ c.1 + u < newSize ->
      exists n st1,
        bestFitAllocRegion fuel newSize st = Ok n st1 /\
        allocResult (isBestFit newSize) newSize st bs n st1 /\
        tailOutcome st pre u post n st1 (resizeRegion fuel r newSize st)) /\
  (forall pre' q c post',
      pre = pre' ++ [q] -> post = c :: post' ->
      c.2 = true \/ c.1 + u < newSize ->
      q.2 = true \/ q.1 + u < newSize ->
      q.2 = true \/ c.2 = true \/ q.1 + c.1 + u < newSize ->
      exists n st1,
        bestFitAllocRegion fuel newSize st = Ok n st1 /\
        allocResult (isBestFit newSize) newSize st bs n st1 /\
        tailOutcome st pre u post n st1 (resizeRegionExtra fuel r newSize st)).
Proof.
  intros Hwf Hlt Hfuel bs r. subst r bs.
  pose proof (here_bounds _ _ _ _ Hwf) as Hb. cbn [fst] in Hb.
  pose proof (arenaReady_wf _ _ Hwf) as Hready.
  destruct (firstFitAllocRegion_spec st st _ newSize fuel Hready ltac:(lia) Hfuel)
    as (nF & stF & HrunF & HresF).
  destruct (bestFitAllocRegion_spec st st _ newSize fuel Hready ltac:(lia) Hfuel)
    as (nB & stB & HrunB & HresB).
  split; [|split].
  - exists nF, stF. split; [done|]. split; [done|].
    rewrite (oldResizeRegion_tail _ _ _ _ _ _ fuel Hwf Hlt).
    exact (tail_outcome firstFitAllocRegion _ _ _ _ _ _ _ _ _ Hwf Hlt HrunF HresF).
  - intros c post' -> Hc.
    exists nB, stB. split; [done|]. split; [done|].
    rewrite (resizeRegion_tail _ _ _ _ _ _ _ fuel Hwf Hlt Hc).
    exact (tail_outcome bestFitAllocRegion _ _ _ _ _ _ _ _ _ Hwf Hlt HrunB HresB).
  - intros pre' q c post' -> -> Hc Hq Hqc.
    exists nB, stB. split; [done|]. split; [done|].
    assert (Hwf' : wf st (pre' ++ q :: (u, true) :: c :: post')).
    { by rewrite <- app_assoc in Hwf. }
    pose proof (resizeRegionExtra_tail _ _ _ _ _ _ _ _ fuel Hwf' Hlt Hc Hq Hqc) as Hpath.
    cbn zeta in Hpath.
    replace (arenaBegin st + span pre' + extent q + 16)
      with (arenaBegin st + span (pre' ++ [q]) + 16) in Hpath
      by (rewrite span_app; blia).
    rewrite Hpath.
    exact (tail_outcome bestFitAllocRegion _ _ _ _ _ _ _ _ _ Hwf Hlt HrunB HresB).
Qed.

Lemma resize_fallback_tail_witness :
  exists n st1,
    firstFitAllocRegion 6 16000 testArena = Ok n st1 /\
    allocResult (fun l v _ => isFirstFit 16000 l v) 16000 testArena
      ([(56504, false); (256, true); (25400, false)] ++ (256, true) :: [(966040, false)])
      n st1 /\
    tailOutcome testArena [(56504, false); (256, true); (25400, false)] 256
      [(966040, false)] n st1
      (oldResizeRegion 6
         (arenaBegin testArena + span [(56504, false); (256, true); (25400, false)] + 16)
         16000 testArena).
Proof.
  refine (proj1 (resize_fallback_tail testArena
                   [(56504, false); (256, true); (25400, false)] 256 [(966040, false)]
                   16000 6 testArena_wf _ _)).
  - lia.
  - simpl. lia.
Defined.

(** C8, as stated, fails for [oldResizeRegion]: in the arena of the test
    programs the free blocks have usable sizes 56504, 25400 and 966040;
    growing the last allocated block to 16000 bytes with [oldResizeRegion]
    returns the region first fit finds, in the block of 56504, not the one
    best fit finds, in the block of 25400. *)
Lemma oldResizeRegion_uses_first_fit :
  answer (oldResizeRegion 6 86344 16000) testArena = Some 4112 /\
  answer (firstFitAllocRegion 6 16000) testArena = Some 4112 /\
  answer (bestFitAllocRegion 6 16000) testArena = Some 60920 /\
  answer (oldResizeRegion 6 86344 16000) testArena
  <> answer (bestFitAllocRegion 6 16000) testArena.
Proof. repeat split; vm_compute; (reflexivity || discriminate). Qed.
